(** * A shallow embedding of the site crawler (crawler.py)

    The development follows the layout of the source file: string and
    dictionary primitives, the hierarchy builder ([insert_path],
    [hierarchy_to_d3]), the sitemap seeder ([fetch_sitemap_urls]) and the
    main loop of [crawl].

    Python values are modelled as follows.
    - [str] is [string]; the byte-wise lexicographic order [String.le] is the
      code-point order Python uses for [sorted] on UTF-8 text.
    - [int] is [Z]; counters that start at 0 and are only incremented
      ([pages_count], [depth]) are [nat].
    - a [dict] whose iteration order can be observed is an association list
      in insertion order with unique keys; a [set] is a [gset].
    - files opened for writing are lists of records, appended at the end. *)

From Stdlib Require Import Ascii.
From stdpp Require Import base decidable option list sorting gmap strings.

#[local] Set Warnings "-clear-no-such-hyp,-register-all".

Open Scope Z_scope.

(** ** Python dictionaries as insertion-ordered association lists *)

Module Dict.
Section dict.
Context {V : Type}.

Definition t := list (string * V).

Definition keys (d : t) : list string := d.*1.

(** [d.get(k)] *)
Fixpoint get (k : string) (d : t) : option V :=
  match d with
  | [] => None
  | (k', v) :: d' => if decide (k' = k) then Some v else get k d'
  end.

(** [d[k] = v]: an existing key keeps its position, a new key goes last. *)
Fixpoint set (k : string) (v : V) (d : t) : t :=
  match d with
  | [] => [(k, v)]
  | (k', v') :: d' =>
      if decide (k' = k) then (k', v) :: d' else (k', v') :: set k v d'
  end.

Lemma get_set_eq k v d : get k (set k v d) = Some v.
Proof.
  induction d as [|[k' v'] d IH]; simpl.
  - by rewrite decide_True.
  - destruct (decide (k' = k)) as [->|Hne]; simpl.
    + by rewrite decide_True.
    + by rewrite decide_False.
Qed.

Lemma get_set_ne k k' v d : k ≠ k' → get k' (set k v d) = get k' d.
Proof.
  intros Hne. induction d as [|[k0 v0] d IH]; simpl.
  - by rewrite decide_False.
  - destruct (decide (k0 = k)) as [->|Hk0]; simpl.
    + by rewrite !decide_False.
    + destruct (decide (k0 = k')); [done|apply IH].
Qed.

Lemma get_set k k' v d :
  get k' (set k v d) = if decide (k = k') then Some v else get k' d.
Proof.
  destruct (decide (k = k')) as [->|?];
    [apply get_set_eq|by apply get_set_ne].
Qed.

Lemma get_Some_elem_of k v d : get k d = Some v → (k, v) ∈ d.
Proof.
  induction d as [|[k' v'] d IH]; simpl; [done|].
  destruct (decide (k' = k)) as [->|?].
  - intros [= ->]. left.
  - intros ?. right. auto.
Qed.

Lemma get_is_Some k d : is_Some (get k d) ↔ k ∈ keys d.
Proof.
  unfold keys. induction d as [|[k' v'] d IH]; simpl.
  - split; [by intros [? ?]|by intros ?%elem_of_nil].
  - destruct (decide (k' = k)) as [->|Hne].
    + split; [left|eauto].
    + rewrite IH, elem_of_cons. split; [by right|].
      by intros [?|?]; [congruence|].
Qed.

Lemma get_None k d : get k d = None ↔ k ∉ keys d.
Proof. rewrite <-get_is_Some, eq_None_not_Some. done. Qed.

Lemma elem_of_get k v d : NoDup (keys d) → (k, v) ∈ d → get k d = Some v.
Proof.
  unfold keys. induction d as [|[k' v'] d IH]; simpl.
  - by intros _ ?%elem_of_nil.
  - intros [Hnotin Hnd]%NoDup_cons [[= -> ->]|Hin]%elem_of_cons.
    + by rewrite decide_True.
    + rewrite decide_False; [by apply IH|].
      intros ->. apply Hnotin. apply list_elem_of_fmap. by exists (k, v).
Qed.

Lemma keys_set_elem_of k v d : k ∈ keys d → keys (set k v d) = keys d.
Proof.
  unfold keys. induction d as [|[k' v'] d IH]; cbn.
  - by intros ?%elem_of_nil.
  - intros Hin. destruct (decide (k' = k)) as [->|Hne]; cbn; [done|].
    f_equal. apply IH. apply elem_of_cons in Hin as [?|?]; [congruence|done].
Qed.

Lemma keys_set_not_elem_of k v d :
  k ∉ keys d → keys (set k v d) = keys d ++ [k].
Proof.
  unfold keys. induction d as [|[k' v'] d IH]; cbn; [done|].
  intros Hnin. destruct (decide (k' = k)) as [->|Hne]; cbn.
  - exfalso. apply Hnin. left.
  - f_equal. apply IH. intros ?. apply Hnin. by right.
Qed.

Lemma NoDup_keys_set k v d : NoDup (keys d) → NoDup (keys (set k v d)).
Proof.
  intros Hnd. destruct (decide (k ∈ keys d)) as [Hin|Hnin].
  - by rewrite keys_set_elem_of.
  - rewrite keys_set_not_elem_of by done.
    apply NoDup_app. split_and!; [done| |apply NoDup_singleton].
    by intros x Hx ->%list_elem_of_singleton.
Qed.

Lemma elem_of_keys_set k k' v d :
  k' ∈ keys (set k v d) ↔ k' = k ∨ k' ∈ keys d.
Proof.
  destruct (decide (k ∈ keys d)) as [Hin|Hnin].
  - rewrite keys_set_elem_of by done. naive_solver.
  - rewrite keys_set_not_elem_of, elem_of_app, list_elem_of_singleton by done.
    naive_solver.
Qed.
End dict.
Global Arguments t : clear implicits.
End Dict.

(** [sorted(xs)] on a list of strings. For a total order on the elements the
    result of a sort is unique, so any sorting algorithm is a model. *)
Definition sorted (xs : list string) : list string := merge_sort String.le xs.

Lemma sorted_Permutation ks : sorted ks ≡ₚ ks.
Proof. apply merge_sort_Permutation. Qed.

Lemma sorted_Sorted ks : Sorted String.le (sorted ks).
Proof. apply (Sorted_merge_sort String.le). Qed.

Lemma sorted_subseteq ks : sorted ks ⊆ ks.
Proof. intros x. by rewrite sorted_Permutation. Qed.

Lemma sorted_Permutation_eq ks1 ks2 : ks1 ≡ₚ ks2 → sorted ks1 = sorted ks2.
Proof.
  intros Hp. apply (Sorted_unique String.le); [apply sorted_Sorted..|].
  by rewrite !sorted_Permutation.
Qed.

Lemma Sorted_strict_NoDup (l : list string) :
  Sorted String.le l → NoDup l → Sorted (strict String.le) l.
Proof.
  intros Hs%(Sorted_StronglySorted String.le) Hnd.
  apply StronglySorted_Sorted.
  induction Hs as [|x l Hs IH Hx]; [constructor|].
  apply NoDup_cons in Hnd as [Hnin Hnd]. constructor; [by apply IH|].
  rewrite Forall_forall in Hx |- *. intros y Hy. split; [by apply Hx|].
  intros Hyx. assert (x = y) as -> by (apply (anti_symm String.le); auto).
  done.
Qed.

(** ** Hierarchy builder *)

Module Hierarchy.

(** A node is a [dict] with the optional keys ["__count"] and ["children"];
    a missing key is [None]. *)
Inductive node : Type :=
  Node (count : option Z) (children : option (Dict.t node)).

Definition n_count (n : node) : option Z := let 'Node c _ := n in c.
Definition n_children (n : node) : option (Dict.t node) :=
  let 'Node _ ch := n in ch.

(** [hroot: Dict = {"__count": 0}] *)
Definition fresh : node := Node (Some 0) None.

(** [insert_path(hroot, path_segments)]. The source walks down by rebinding
    [node] and mutates the dictionaries in place; here every level writes the
    updated child back under its key, which is where the mutated object
    lives. [setdefault] on a missing key appends the key, as [Dict.set]. *)
Fixpoint insert_path (hroot : node) (path_segments : list string) : node :=
  match path_segments with
  | [] => hroot
  | seg :: rest =>
      if decide (seg = "") then insert_path hroot rest
      else
        let children := default [] (n_children hroot) in
        let node := default (Node (Some 0) None) (Dict.get seg children) in
        let node := Node (Some (default 0 (n_count node) + 1)) (n_children node) in
        Node (n_count hroot) (Some (Dict.set seg (insert_path node rest) children))
  end.

(** The output of [hierarchy_to_d3]: [{"name", "children"}] or
    [{"name", "value"}]. *)
Inductive d3 : Type :=
  | D3Leaf (name : string) (value : Z)
  | D3Node (name : string) (children : list d3).

Definition d3_name (t : d3) : string :=
  match t with D3Leaf n _ | D3Node n _ => n end.

(** [hierarchy_to_d3(node, name)]. The recursive calls are made on the
    entries of [children_map] in dictionary order and then picked up in the
    order of [sorted(children_map.keys())]; [hierarchy_to_d3_unfold] below
    states the equation in the form of the source. *)
Fixpoint hierarchy_to_d3 (node : node) (name : string) : d3 :=
  match node with
  | Node count None => D3Leaf name (default 1 count)
  | Node count (Some []) => D3Leaf name (default 1 count)
  | Node count (Some ((_ :: _) as children_map)) =>
      let rendered :=
        (fix go (d : Dict.t Hierarchy.node) : Dict.t d3 :=
           match d with
           | [] => []
           | (k, n) :: d' => (k, hierarchy_to_d3 n k) :: go d'
           end) children_map in
      D3Node name
        (omap (λ k, Dict.get k rendered) (sorted (Dict.keys children_map)))
  end.

(** The accumulator after inserting the segment lists [ps], first to last. *)
Definition build (ps : list (list string)) : node :=
  foldl insert_path fresh ps.

Example build_ex1 :
  build [["personas"; "a"]; ["personas"; ""; "b"]; ["empresas"]]
  = Node (Some 0) (Some
      [("personas", Node (Some 2) (Some
          [("a", Node (Some 1) None); ("b", Node (Some 1) None)]));
       ("empresas", Node (Some 1) None)]).
Proof. reflexivity. Qed.

Example render_ex1 :
  hierarchy_to_d3
    (build [["personas"; "b"]; ["personas"; ""; "a"]; ["empresas"]]) "host"
  = D3Node "host"
      [D3Leaf "empresas" 1;
       D3Node "personas" [D3Leaf "a" 1; D3Leaf "b" 1]].
Proof. vm_compute. reflexivity. Qed.

(** *** Structural induction through the children dictionaries *)

Lemma node_ind' (P : node → Prop) :
  (∀ count children,
      Forall (λ kv, P kv.2) (default [] children) → P (Node count children)) →
  ∀ n, P n.
Proof.
  intros HP. fix IH 1. intros [count children]. apply HP.
  destruct children as [d|]; cbn; [|constructor].
  induction d as [|[k n] d IHd]; constructor; [apply IH|apply IHd].
Qed.

(** *** Addressing nodes by path *)

Definition children_of (n : node) : Dict.t node := default [] (n_children n).

(** The node reached from [n] along [path], if it exists. *)
Fixpoint node_at (n : node) (path : list string) : option node :=
  match path with
  | [] => Some n
  | k :: path' => Dict.get k (children_of n) ≫= λ c, node_at c path'
  end.

(** The ["__count"] entry of the node at [path]: [None] when there is no such
    node, [Some None] when the node has no ["__count"] key. *)
Definition count_at (n : node) (path : list string) : option (option Z) :=
  n_count <$> node_at n path.

(** [node.get("__count", 0)] for the node at [path], 0 when it is missing. *)
Definition count0_at (n : node) (path : list string) : Z :=
  default 0 (mjoin (count_at n path)).

(** The segments that [insert_path] does not skip. *)
Definition clean (path_segments : list string) : list string :=
  filter (λ seg, seg ≠ "") path_segments.

Lemma insert_path_clean n p : insert_path n (clean p) = insert_path n p.
Proof.
  revert n. induction p as [|seg p IH]; intros n; [done|].
  unfold clean. rewrite filter_cons. cbn [insert_path].
  destruct (decide (seg ≠ "")) as [Hne|Heq%dec_stable].
  - cbn [insert_path]. rewrite !decide_False by done. cbn zeta.
    f_equal. f_equal. f_equal. apply IH.
  - rewrite decide_True by done. apply IH.
Qed.

Lemma node_at_app n p1 p2 :
  node_at n (p1 ++ p2) = node_at n p1 ≫= λ c, node_at c p2.
Proof.
  revert n. induction p1 as [|k p1 IH]; intros n; cbn; [done|].
  destruct (Dict.get k (children_of n)); cbn; [apply IH|done].
Qed.

Lemma count_at_cons n k path :
  count_at n (k :: path)
  = Dict.get k (children_of n) ≫= λ c, count_at c path.
Proof.
  unfold count_at. cbn. by destruct (Dict.get k (children_of n)).
Qed.

(** What one insertion does to every counter: the root is left alone, the
    nodes on the inserted path (created when missing) gain one, all other
    nodes are untouched. *)
Lemma count_at_insert_path n p path :
  count_at (insert_path n p) path =
    if decide (path = []) then count_at n []
    else if decide (path `prefix_of` clean p)
         then Some (Some (count0_at n path + 1))
         else count_at n path.
Proof.
  revert n path. induction p as [|seg p IH]; intros n path.
  { cbn. destruct (decide (path = [])) as [->|Hne]; [done|].
    rewrite decide_False; [done|]. by intros ->%prefix_nil_inv. }
  cbn [insert_path]. unfold clean. rewrite filter_cons. fold (clean p).
  destruct (decide (seg = "")) as [->|Hseg].
  { rewrite (decide_False (P := "" ≠ "")) by (intros Hne; by apply Hne).
    apply IH. }
  rewrite (decide_True (P := seg ≠ "")) by done. cbn zeta.
  destruct path as [|k path]; [by rewrite decide_True|].
  rewrite decide_False by done.
  rewrite count_at_cons. change (children_of (Node ?c (Some ?d))) with d.
  rewrite Dict.get_set. fold (children_of n).
  destruct (decide (seg = k)) as [->|Hk].
  - cbn [mbind option_bind]. rewrite IH.
    set (child := default (Node (Some 0) None) (Dict.get k (children_of n))).
    assert (Hcnt0 : ∀ π, count0_at n (k :: π) = count0_at child π).
    { intros π. unfold count0_at. rewrite count_at_cons. subst child.
      destruct (Dict.get k (children_of n)) as [c|]; [done|].
      by destruct π. }
    assert (Hcnt : ∀ π, π ≠ [] → count_at n (k :: π) = count_at child π).
    { intros π Hπ. rewrite count_at_cons. subst child.
      destruct (Dict.get k (children_of n)) as [c|]; [done|].
      by destruct π. }
    destruct (decide (path = [])) as [->|Hpath].
    + rewrite decide_True by (apply prefix_cons, prefix_nil).
      by rewrite Hcnt0.
    + destruct (decide (path `prefix_of` clean p)) as [Hpre|Hnpre].
      * rewrite decide_True by (by apply prefix_cons).
        rewrite Hcnt0. unfold count0_at, count_at.
        by destruct path.
      * rewrite decide_False by (by intros ?%prefix_cons_inv_2).
        rewrite Hcnt by done. unfold count_at. by destruct path.
  - rewrite decide_False by (by intros ?%prefix_cons_inv_1).
    by rewrite count_at_cons.
Qed.

(** *** Counters of the accumulator built from a list of insertions *)

(** How many of the inserted segment lists pass through [path]. *)
Definition through (ps : list (list string)) (path : list string) : nat :=
  length (filter (λ p, path `prefix_of` clean p) ps).

(** How many of the inserted segment lists end exactly at [path]. *)
Definition ending (ps : list (list string)) (path : list string) : nat :=
  length (filter (λ p, clean p = path) ps).

Lemma build_snoc ps p : build (ps ++ [p]) = insert_path (build ps) p.
Proof. unfold build. by rewrite foldl_app. Qed.

Lemma through_snoc ps p path :
  through (ps ++ [p]) path =
    if decide (path `prefix_of` clean p) then S (through ps path)
    else through ps path.
Proof.
  unfold through. rewrite filter_app, length_app, filter_cons, filter_nil.
  case_decide; cbn; lia.
Qed.

Lemma count_at_build_root ps : count_at (build ps) [] = Some (Some 0).
Proof.
  induction ps as [|p ps IH] using rev_ind; [done|].
  by rewrite build_snoc, count_at_insert_path, decide_True.
Qed.

Lemma count_at_build ps k path :
  count_at (build ps) (k :: path) =
    if decide (through ps (k :: path) = 0%nat) then None
    else Some (Some (Z.of_nat (through ps (k :: path)))).
Proof.
  induction ps as [|p ps IH] using rev_ind; [done|].
  rewrite build_snoc, count_at_insert_path, through_snoc.
  rewrite decide_False by done.
  destruct (decide (k :: path `prefix_of` clean p)) as [Hpre|Hnpre]; [|done].
  rewrite decide_False by done. unfold count0_at. rewrite IH.
  case_decide as H0; cbn; [rewrite H0; done|].
  do 2 f_equal. lia.
Qed.

(** *** Well-formed dictionaries: keys are unique at every level *)

Inductive wf : node → Prop :=
  wf_Node count children :
    NoDup (Dict.keys (default [] children)) →
    Forall (λ kv, wf kv.2) (default [] children) →
    wf (Node count children).

Lemma wf_children n k c :
  wf n → Dict.get k (children_of n) = Some c → wf c.
Proof.
  intros [count children Hnd Hall] Hget.
  apply Dict.get_Some_elem_of in Hget.
  by apply (proj1 (Forall_forall _ _) Hall (k, c)).
Qed.

Lemma wf_keys n : wf n → NoDup (Dict.keys (children_of n)).
Proof. by intros [count children Hnd Hall]. Qed.

Lemma Forall_dict_set (P : node → Prop) k v (d : Dict.t node) :
  P v → Forall (λ kv, P kv.2) d → Forall (λ kv, P kv.2) (Dict.set k v d).
Proof.
  intros Hv. induction 1 as [|[k' v'] d Hkv Hd IH]; cbn.
  - by repeat constructor.
  - case_decide; constructor; auto.
Qed.

Lemma wf_insert_path n p : wf n → wf (insert_path n p).
Proof.
  revert n. induction p as [|seg p IH]; intros n Hn; [done|].
  cbn [insert_path]. case_decide; [by apply IH|]. cbn zeta.
  fold (children_of n).
  constructor; cbn.
  - by apply Dict.NoDup_keys_set, wf_keys.
  - apply Forall_dict_set; [|by destruct Hn].
    apply IH. destruct (Dict.get seg (children_of n)) as [c|] eqn:Hget; cbn.
    + apply (wf_children _ _ _ Hn) in Hget. by destruct Hget; constructor.
    + by repeat constructor.
Qed.

Lemma wf_build ps : wf (build ps).
Proof.
  induction ps as [|p ps IH] using rev_ind.
  - by repeat constructor.
  - rewrite build_snoc. by apply wf_insert_path.
Qed.

(** *** The rendering equation of the source *)

(** [children_map[k]], used only for keys of [children_map]. *)
Definition children_index (children_map : Dict.t node) (k : string) : node :=
  default (Node None None) (Dict.get k children_map).

Definition render_entries (d : Dict.t node) : Dict.t d3 :=
  (λ kv, (kv.1, hierarchy_to_d3 kv.2 kv.1)) <$> d.

Lemma get_render_entries k d :
  Dict.get k (render_entries d) = (λ n, hierarchy_to_d3 n k) <$> Dict.get k d.
Proof.
  induction d as [|[k' n] d IH]; cbn; [done|].
  by destruct (decide (k' = k)) as [->|?].
Qed.

Lemma omap_get_render_entries d ks :
  ks ⊆ Dict.keys d →
  omap (λ k, Dict.get k (render_entries d)) ks
  = (λ k, hierarchy_to_d3 (children_index d k) k) <$> ks.
Proof.
  induction ks as [|k ks IH]; intros Hsub; cbn; [done|].
  rewrite get_render_entries. unfold children_index at 1.
  assert (is_Some (Dict.get k d)) as [n ->].
  { apply Dict.get_is_Some, Hsub. left. }
  cbn. f_equal. apply IH. intros x Hx. apply Hsub. by right.
Qed.

Lemma render_entries_fix d :
  (fix go (d : Dict.t node) : Dict.t d3 :=
     match d with
     | [] => []
     | (k, n) :: d' => (k, hierarchy_to_d3 n k) :: go d'
     end) d = render_entries d.
Proof. induction d as [|[k n] d IH]; [done|]. cbn. by f_equal. Qed.

(** [hierarchy_to_d3] satisfies the equation written in the source:
    [out["children"] = [hierarchy_to_d3(children_map[k], k)
                        for k in sorted(children_map.keys())]] when
    [children_map] is non-empty, [out["value"] = node.get("__count", 1)]
    otherwise. *)
Lemma hierarchy_to_d3_unfold n name :
  hierarchy_to_d3 n name =
    let children_map := children_of n in
    if decide (children_map = []) then D3Leaf name (default 1 (n_count n))
    else D3Node name
           ((λ k, hierarchy_to_d3 (children_index children_map k) k)
              <$> sorted (Dict.keys children_map)).
Proof.
  destruct n as [count [[|[k0 n0] d]|]]; [done| |done].
  cbn zeta. rewrite decide_False by done.
  change (children_of (Node count (Some ((k0, n0) :: d))))
    with ((k0, n0) :: d).
  rewrite <-omap_get_render_entries by apply sorted_subseteq.
  cbn [hierarchy_to_d3]. by rewrite render_entries_fix.
Qed.

(** *** The rendering only depends on the counters reachable by path *)

Lemma elem_of_keys_count_at n k :
  k ∈ Dict.keys (children_of n) ↔ is_Some (count_at n [k]).
Proof.
  rewrite <-Dict.get_is_Some, count_at_cons.
  destruct (Dict.get k (children_of n)); cbn; split; intros [? ?]; eauto; done.
Qed.

Lemma hierarchy_to_d3_ext n1 n2 name :
  wf n1 → wf n2 →
  (∀ path, count_at n1 path = count_at n2 path) →
  hierarchy_to_d3 n1 name = hierarchy_to_d3 n2 name.
Proof.
  revert n2 name. induction n1 as [count1 ch1 IH] using node_ind'.
  intros n2 name Hwf1 Hwf2 Hcnt.
  rewrite !hierarchy_to_d3_unfold. cbn zeta.
  set (n1 := Node count1 ch1) in *.
  change (default [] ch1) with (children_of n1) in IH.
  assert (Hkeys : Dict.keys (children_of n1) ≡ₚ Dict.keys (children_of n2)).
  { apply NoDup_Permutation; [by apply wf_keys..|].
    intros k. by rewrite !elem_of_keys_count_at, Hcnt. }
  assert (Hnil : children_of n1 = [] ↔ children_of n2 = []).
  { unfold Dict.keys in Hkeys. split; intros Heq; rewrite Heq in Hkeys.
    - symmetry in Hkeys. apply Permutation_nil_r in Hkeys.
      by apply fmap_nil_inv in Hkeys.
    - apply Permutation_nil_r in Hkeys. by apply fmap_nil_inv in Hkeys. }
  destruct (decide (children_of n1 = [])) as [H1|H1].
  - rewrite decide_True by (by apply Hnil).
    f_equal. specialize (Hcnt []). by injection Hcnt as ->.
  - rewrite decide_False by (by rewrite <-Hnil).
    f_equal. rewrite <-(sorted_Permutation_eq _ _ Hkeys).
    apply list_fmap_ext. intros i k Hk%list_elem_of_lookup_2.
    apply sorted_subseteq in Hk.
    unfold children_index.
    destruct (Dict.get k (children_of n1)) as [c1|] eqn:Hc1;
      [|by apply Dict.get_None in Hc1].
    destruct (Dict.get k (children_of n2)) as [c2|] eqn:Hc2;
      [|apply Dict.get_None in Hc2; by rewrite <-Hkeys in Hc2].
    cbn. rewrite Forall_forall in IH.
    apply (IH (k, c1)).
    + by apply Dict.get_Some_elem_of.
    + by apply (wf_children n1 k).
    + by apply (wf_children n2 k).
    + intros path. specialize (Hcnt (k :: path)).
      by rewrite !count_at_cons, Hc1, Hc2 in Hcnt.
Qed.

(** *** Sorted children *)

(** Every interior node lists its children in strictly increasing
    lexicographic order of their names. *)
Inductive d3_sorted : d3 → Prop :=
  | d3_sorted_leaf name value : d3_sorted (D3Leaf name value)
  | d3_sorted_node name children :
      Sorted (strict String.le) (d3_name <$> children) →
      Forall d3_sorted children →
      d3_sorted (D3Node name children).

Lemma d3_name_hierarchy_to_d3 n name : d3_name (hierarchy_to_d3 n name) = name.
Proof. rewrite hierarchy_to_d3_unfold. cbn zeta. by case_decide. Qed.

Lemma hierarchy_to_d3_sorted n name : wf n → d3_sorted (hierarchy_to_d3 n name).
Proof.
  revert name. induction n as [count ch IH] using node_ind'. intros name Hwf.
  rewrite hierarchy_to_d3_unfold. cbn zeta.
  set (n := Node count ch) in *.
  change (default [] ch) with (children_of n) in IH.
  case_decide; constructor.
  - rewrite <-list_fmap_compose.
    erewrite list_fmap_ext; [rewrite list_fmap_id|].
    + apply Sorted_strict_NoDup; [apply sorted_Sorted|].
      rewrite sorted_Permutation. by apply wf_keys.
    + intros i k _. apply d3_name_hierarchy_to_d3.
  - apply Forall_fmap, Forall_forall. intros k Hk%sorted_subseteq.
    change (d3_sorted (hierarchy_to_d3 (children_index (children_of n) k) k)).
    unfold children_index.
    destruct (Dict.get k (children_of n)) as [c|] eqn:Hc;
      [|by apply Dict.get_None in Hc].
    rewrite Forall_forall in IH. apply (IH (k, c)).
    + by apply Dict.get_Some_elem_of.
    + by apply (wf_children n k).
Qed.

Lemma through_Permutation ps1 ps2 path :
  ps1 ≡ₚ ps2 → through ps1 path = through ps2 path.
Proof. intros Hp. unfold through. by rewrite Hp. Qed.

Lemma count_at_build_Permutation ps1 ps2 path :
  ps1 ≡ₚ ps2 → count_at (build ps1) path = count_at (build ps2) path.
Proof.
  intros Hp. destruct path as [|k path].
  - by rewrite !count_at_build_root.
  - by rewrite !count_at_build, (through_Permutation _ _ _ Hp).
Qed.

(** *** The sum of the rendered leaf values *)

Definition Zsum (l : list Z) : Z := foldr Z.add 0 l.

Lemma Zsum_cons x l : Zsum (x :: l) = x + Zsum l.
Proof. done. Qed.

Lemma Zsum_Permutation l1 l2 : l1 ≡ₚ l2 → Zsum l1 = Zsum l2.
Proof.
  induction 1 as [|x l1 l2 _ IH|x y l|l1 l2 l3 _ IH1 _ IH2];
    rewrite ?Zsum_cons; lia.
Qed.

(** The sum of the [value] fields of the leaves of a rendered tree. *)
Fixpoint leaf_sum (t : d3) : Z :=
  match t with
  | D3Leaf _ value => value
  | D3Node _ children => Zsum (leaf_sum <$> children)
  end.

(** An insertion is terminal when it has at least one non-empty segment and
    its non-empty segments are not a proper prefix of those of another
    insertion: it ends at a leaf of the final tree. *)
Definition terminal (ps : list (list string)) (p : list string) : Prop :=
  clean p ≠ [] ∧
  Forall (λ q, clean p `prefix_of` clean q → clean q = clean p) ps.

#[global] Instance terminal_dec ps p : Decision (terminal ps p).
Proof. unfold terminal. apply _. Defined.

Lemma length_filter_ext {A} (P Q : A → Prop)
    `{!∀ x, Decision (P x), !∀ x, Decision (Q x)} (l : list A) :
  (∀ x, x ∈ l → P x ↔ Q x) → length (filter P l) = length (filter Q l).
Proof.
  induction l as [|x l IH]; intros HPQ; [done|].
  rewrite !filter_cons.
  assert (length (filter P l) = length (filter Q l)) as Hl.
  { apply IH. intros y Hy. apply HPQ. by right. }
  destruct (decide (P x)) as [HP|HP], (decide (Q x)) as [HQ|HQ]; cbn;
    try (by rewrite Hl); exfalso; apply (HPQ x) in HP || apply (HPQ x) in HQ;
    done || left.
Qed.

Lemma length_filter_or {A} (P P1 P2 : A → Prop)
    `{!∀ x, Decision (P x), !∀ x, Decision (P1 x), !∀ x, Decision (P2 x)}
    (l : list A) :
  (∀ x, x ∈ l → P x ↔ P1 x ∨ P2 x) →
  (∀ x, x ∈ l → P1 x → P2 x → False) →
  length (filter P l) = (length (filter P1 l) + length (filter P2 l))%nat.
Proof.
  induction l as [|x l IH]; intros Hor Hdisj; [done|].
  rewrite !filter_cons.
  assert (length (filter P l)
          = (length (filter P1 l) + length (filter P2 l))%nat) as Hl.
  { apply IH; intros y Hy; [apply Hor|apply Hdisj]; by right. }
  specialize (Hor x (list_elem_of_here _ _)).
  specialize (Hdisj x (list_elem_of_here _ _)).
  destruct (decide (P x)), (decide (P1 x)), (decide (P2 x)); cbn;
    try lia; tauto.
Qed.

(** Counting by classes: when the classes [Q k], [k ∈ ks], are pairwise
    disjoint, the members of their union are counted class by class. *)
Lemma length_filter_classes {A} (Q : string → A → Prop)
    `{!∀ k x, Decision (Q k x)} (ks : list string) (l : list A) :
  NoDup ks →
  (∀ x k1 k2, Q k1 x → Q k2 x → k1 = k2) →
  Z.of_nat (length (filter (λ x, Exists (λ k, Q k x) ks) l))
  = Zsum ((λ k, Z.of_nat (length (filter (Q k) l))) <$> ks).
Proof.
  intros Hnd Hinj. induction Hnd as [|k ks Hk Hnd IH].
  - rewrite (length_filter_ext _ (λ _, False)).
    + by induction l.
    + intros x _. by rewrite Exists_nil.
  - rewrite fmap_cons, Zsum_cons, <-IH, <-Nat2Z.inj_add. f_equal.
    apply length_filter_or.
    + intros x _. apply Exists_cons.
    + intros x _ HQ (k' & Hk' & HQ')%Exists_exists.
      by rewrite (Hinj x k k' HQ HQ') in Hk.
Qed.

Lemma length_filter_False {A} (P : A → Prop) `{!∀ x, Decision (P x)}
    (l : list A) :
  (∀ x, x ∈ l → ¬ P x) → length (filter P l) = 0%nat.
Proof.
  intros HP. rewrite (length_filter_ext _ (λ _, False)).
  - clear HP. by induction l.
  - intros x Hx. split; [by apply HP|done].
Qed.

Lemma through_ne_0 ps path :
  through ps path ≠ 0%nat ↔ ∃ q, q ∈ ps ∧ path `prefix_of` clean q.
Proof.
  unfold through. split.
  - destruct (filter _ ps) as [|q l] eqn:Hf; [done|]. intros _.
    assert (q ∈ filter (λ p, path `prefix_of` clean p) ps) as Hq
      by (rewrite Hf; left).
    apply list_elem_of_filter in Hq as [? ?]. eauto.
  - intros (q & Hq & Hpre) Hlen. apply length_zero_iff_nil in Hlen.
    assert (q ∈ filter (λ p, path `prefix_of` clean p) ps) as Hq'
      by (by apply list_elem_of_filter).
    rewrite Hlen in Hq'. by apply elem_of_nil in Hq'.
Qed.

Lemma node_at_build_is_Some ps path :
  path ≠ [] →
  is_Some (node_at (build ps) path)
  ↔ ∃ q, q ∈ ps ∧ path `prefix_of` clean q.
Proof.
  intros Hne. rewrite <-through_ne_0. destruct path as [|k path]; [done|].
  pose proof (count_at_build ps k path) as Hc. unfold count_at in Hc.
  destruct (node_at (build ps) (k :: path)) as [n|];
    destruct (decide (through ps (k :: path) = 0%nat)) as [H0|H0];
    cbn in Hc; done.
Qed.

Lemma n_count_build ps path n :
  path ≠ [] → node_at (build ps) path = Some n →
  n_count n = Some (Z.of_nat (through ps path)).
Proof.
  intros Hne Hn. destruct path as [|k path]; [done|].
  pose proof (count_at_build ps k path) as Hc. unfold count_at in Hc.
  rewrite Hn in Hc. cbn in Hc. case_decide; by simplify_eq.
Qed.

(** The children of the node at [path] are the segments with which some
    insertion continues after [path]. *)
Lemma elem_of_keys_build ps path n k :
  node_at (build ps) path = Some n →
  k ∈ Dict.keys (children_of n)
  ↔ ∃ q, q ∈ ps ∧ (path ++ [k]) `prefix_of` clean q.
Proof.
  intros Hn. rewrite <-node_at_build_is_Some by (by destruct path).
  rewrite node_at_app, Hn. cbn.
  rewrite <-Dict.get_is_Some.
  by destruct (Dict.get k (children_of n)).
Qed.

Lemma build_leaf_prefix ps path n q :
  node_at (build ps) path = Some n → children_of n = [] →
  q ∈ ps → path `prefix_of` clean q → clean q = path.
Proof.
  intros Hn Hleaf Hq [[|k r] Hr]; [by rewrite app_nil_r in Hr|].
  assert (k ∈ Dict.keys (children_of n)) as Hk.
  { apply (elem_of_keys_build ps path); [done|]. exists q. split; [done|].
    exists r. by rewrite <-app_assoc. }
  rewrite Hleaf in Hk. by apply elem_of_nil in Hk.
Qed.

Lemma prefix_snoc_inj {A} (l : list A) x1 x2 l' :
  (l ++ [x1]) `prefix_of` l' → (l ++ [x2]) `prefix_of` l' → x1 = x2.
Proof.
  intros [r1 ->] [r2 Hr2]. rewrite <-!app_assoc in Hr2.
  apply app_inv_head in Hr2. by simplify_eq/=.
Qed.

(** The leaves below the node at [path] add up to the number of terminal
    insertions that pass through [path]. *)
Lemma leaf_sum_node_at ps n :
  ∀ path name,
    node_at (build ps) path = Some n →
    leaf_sum (hierarchy_to_d3 n name)
    = Z.of_nat (length (filter
        (λ p, terminal ps p ∧ path `prefix_of` clean p) ps)).
Proof.
  induction n as [count ch IH] using node_ind'. intros path name Hn.
  rewrite hierarchy_to_d3_unfold. cbn zeta.
  set (n := Node count ch) in *.
  change (default [] ch) with (children_of n) in IH.
  destruct (decide (children_of n = [])) as [Hleaf|Hnode]; cbn [leaf_sum].
  - (* a leaf: its value is its counter *)
    destruct (decide (path = [])) as [->|Hpath].
    + pose proof (count_at_build_root ps) as Hroot.
      unfold count_at in Hroot. rewrite Hn in Hroot.
      injection Hroot as ->. cbn.
      rewrite length_filter_False; [done|].
      intros p Hp [[Hne _] _]. apply Hne.
      apply (build_leaf_prefix ps [] n p); [done..|apply prefix_nil].
    + rewrite (n_count_build ps path n) by done. cbn. f_equal.
      apply length_filter_ext. intros p Hp. split; [|by intros [Ht ?]].
      intros Hpre. split; [|done].
      pose proof (build_leaf_prefix ps path n p Hn Hleaf Hp Hpre) as Hp'.
      split; [by rewrite Hp'|].
      apply Forall_forall. intros q Hq Hpq. rewrite Hp' in Hpq |- *.
      by apply (build_leaf_prefix ps path n q).
  - (* an interior node: the leaves are those of its children *)
    rewrite <-list_fmap_compose.
    set (Q := λ k p, terminal ps p ∧ (path ++ [k]) `prefix_of` clean p).
    rewrite (list_fmap_ext _
      (λ k, Z.of_nat (length (filter (Q k) ps)))
      (sorted (Dict.keys (children_of n)))).
    2:{ intros i k Hk%list_elem_of_lookup_2%sorted_subseteq.
        unfold compose, children_index.
        destruct (Dict.get k (children_of n)) as [c|] eqn:Hc;
          [|by apply Dict.get_None in Hc].
        rewrite Forall_forall in IH.
        assert (node_at (build ps) (path ++ [k]) = Some c) as Hc'.
        { rewrite node_at_app, Hn.
          change (Dict.get k (children_of n) ≫= (λ c0, Some c0) = Some c).
          by rewrite Hc. }
        exact (IH (k, c) (Dict.get_Some_elem_of _ _ _ Hc) _ k Hc'). }
    rewrite <-length_filter_classes.
    2:{ rewrite sorted_Permutation. apply wf_keys.
        assert (wf (build ps)) as Hwf by apply wf_build.
        clear -Hn Hwf. revert Hn Hwf. generalize (build ps).
        induction path as [|k path IHp]; intros t Ht Hwf; cbn in Ht.
        - by simplify_eq.
        - destruct (Dict.get k (children_of t)) as [c|] eqn:Hc; [|done].
          apply (IHp c); [done|]. by apply (wf_children t k). }
    2:{ intros p k1 k2 [_ H1] [_ H2]. by apply (prefix_snoc_inj path _ _ _ H1). }
    f_equal. apply length_filter_ext. intros p Hp.
    rewrite Exists_exists. split.
    + intros (k & _ & Hterm & Hpre). split; [done|].
      etrans; [|done]. by apply prefix_app_r.
    + intros [Hterm [r Hr]]. destruct r as [|k r].
      * exfalso. rewrite app_nil_r in Hr.
        destruct (children_of n) as [|[k0 c0] d] eqn:Hch; [done|].
        assert (k0 ∈ Dict.keys (children_of n)) as Hk0
          by (rewrite Hch; left).
        apply (elem_of_keys_build ps path n k0 Hn) in Hk0
          as (q & Hq & Hpre).
        destruct Hterm as [_ Hall]. rewrite Forall_forall in Hall.
        assert (clean q = clean p) as Heq.
        { apply Hall; [done|]. rewrite Hr. etrans; [|done].
          by apply prefix_app_r. }
        rewrite Heq, Hr in Hpre. apply prefix_length in Hpre.
        rewrite length_app in Hpre. cbn in Hpre. lia.
      * exists k. split.
        { rewrite sorted_Permutation.
          apply (elem_of_keys_build ps path n k Hn). exists p.
          split; [done|]. exists r. by rewrite <-app_assoc. }
        split; [done|]. exists r. by rewrite <-app_assoc.
Qed.

(** Whether [path] addresses a node without children. *)
Definition is_leaf_at (n : node) (path : list string) : bool :=
  match node_at n path with
  | Some c => bool_decide (children_of c = [])
  | None => false
  end.

(** The terminal insertions are those that end at a leaf other than the
    root. *)
Lemma terminal_is_leaf_at ps p :
  p ∈ ps →
  terminal ps p ↔ clean p ≠ [] ∧ is_leaf_at (build ps) (clean p) = true.
Proof.
  intros Hp. unfold terminal, is_leaf_at.
  enough (clean p ≠ [] →
          Forall (λ q, clean p `prefix_of` clean q → clean q = clean p) ps
          ↔ match node_at (build ps) (clean p) with
            | Some c => bool_decide (children_of c = [])
            | None => false
            end = true) by tauto.
  intros Hne.
  destruct (node_at (build ps) (clean p)) as [c|] eqn:Hc.
  - rewrite bool_decide_eq_true, Forall_forall. split.
    + intros Hall. destruct (children_of c) as [|[k c'] d] eqn:Hch; [done|].
      assert (k ∈ Dict.keys (children_of c)) as Hk by (rewrite Hch; left).
      apply (elem_of_keys_build ps (clean p) c k Hc) in Hk as (q & Hq & Hpre).
      assert (clean q = clean p) as Heq.
      { apply Hall; [done|]. etrans; [|done]. by apply prefix_app_r. }
      rewrite Heq in Hpre. apply prefix_length in Hpre.
      rewrite length_app in Hpre. cbn in Hpre. lia.
    + intros Hleaf q Hq Hpre. by apply (build_leaf_prefix ps (clean p) c q).
  - exfalso. assert (is_Some (node_at (build ps) (clean p))) as [? ?]; [|congruence].
    apply node_at_build_is_Some; [done|]. by exists p.
Qed.

(** The number of distinct segment lists among the terminal insertions. *)
Definition distinct_terminal (ps : list (list string)) : nat :=
  length (remove_dups (clean <$> filter (terminal ps) ps)).

(** The number of insertions whose segment list is that of a leaf. *)
Definition ending_at_leaves (ps : list (list string)) : nat :=
  length (filter (λ p, is_leaf_at (build ps) (clean p) = true) ps).

(** *** The claims about the hierarchy builder *)

(** C3, counterexample. Inserting the single segment list [a, b] leaves the
    node [a] with counter 1 although no inserted path ends there: the
    counter of a non-terminal node is incremented as well. *)
Lemma terminal_only_count_fails :
  count_at (insert_path fresh ["a"; "b"]) ["a"] = Some (Some 1) ∧
  ending [["a"; "b"]] ["a"] = 0%nat ∧
  count_at (build [["a"; "b"]]) ["a"]
  ≠ Some (Some (Z.of_nat (ending [["a"; "b"]] ["a"]))).
Proof. split_and!; [reflexivity..|]. intros [=]. Qed.

(** C3, amended. An insertion increments the counter of every node on the
    inserted path (the nodes reached through its non-empty segments, created
    with counter 0 when missing) and leaves every other node and the root
    untouched. Hence, after any list of insertions into a fresh accumulator,
    a node other than the root exists exactly when some insertion passes
    through it, and its counter is the number of insertions that pass through
    it; the counter of the root stays 0. *)
Theorem insert_path_counts_prefixes ps k path :
  (∀ n p,
     count_at (insert_path n p) [] = count_at n [] ∧
     count_at (insert_path n p) (k :: path) =
       if decide ((k :: path) `prefix_of` clean p)
       then Some (Some (count0_at n (k :: path) + 1))
       else count_at n (k :: path)) ∧
  count_at (build ps) [] = Some (Some 0) ∧
  count_at (build ps) (k :: path) =
    if decide (through ps (k :: path) = 0%nat) then None
    else Some (Some (Z.of_nat (through ps (k :: path)))).
Proof.
  split_and!.
  - intros n p. rewrite !count_at_insert_path.
    rewrite decide_True by done. by rewrite decide_False.
  - apply count_at_build_root.
  - apply count_at_build.
Qed.

(** C7. Inserting the same multiset of segment lists into a fresh
    accumulator in any order renders the same tree, and in the rendered tree
    the children of every interior node are in strictly increasing
    lexicographic order of their names. ([hierarchy_to_d3] is a function of
    the accumulator state, so two renders of one state are equal.) *)
Theorem hierarchy_order_independent ps1 ps2 name :
  ps1 ≡ₚ ps2 →
  hierarchy_to_d3 (build ps1) name = hierarchy_to_d3 (build ps2) name ∧
  d3_sorted (hierarchy_to_d3 (build ps1) name).
Proof.
  intros Hp. split.
  - apply hierarchy_to_d3_ext; [apply wf_build..|].
    intros path. by apply count_at_build_Permutation.
  - apply hierarchy_to_d3_sorted, wf_build.
Qed.

Lemma hierarchy_order_independent_witness :
  let ps1 := [["personas"; "b"]; ["empresas"]; ["personas"; "a"]] in
  let ps2 := [["empresas"]; ["personas"; "b"]; ["personas"; "a"]] in
  ps1 ≡ₚ ps2 ∧
  hierarchy_to_d3 (build ps1) "host" = hierarchy_to_d3 (build ps2) "host" ∧
  d3_sorted (hierarchy_to_d3 (build ps1) "host").
Proof.
  cbv zeta. split; [apply perm_swap|].
  apply hierarchy_order_independent, perm_swap.
Defined.

(** C8, counterexample. Two insertions of the segment list [a] render one
    leaf of value 2, while there is one distinct inserted path; and when only
    the empty segment list is inserted, the root is rendered as a leaf of
    value 0 although one insertion has exactly the segment list of that
    leaf. *)
Lemma leaf_sum_distinct_paths_fails :
  leaf_sum (hierarchy_to_d3 (build [["a"]; ["a"]]) "host") = 2 ∧
  distinct_terminal [["a"]; ["a"]] = 1%nat ∧
  leaf_sum (hierarchy_to_d3 (build [[]]) "host") = 0 ∧
  ending_at_leaves [[]] = 1%nat.
Proof. by vm_compute. Qed.

(** C8, amended. The leaf values of the rendered tree add up to the number
    of insertions, counted with multiplicity, that have at least one
    non-empty segment and whose non-empty segments are not a proper prefix of
    those of another insertion; these are the insertions that end at a leaf
    other than the root. *)
Theorem leaf_sum_terminal_insertions ps name :
  leaf_sum (hierarchy_to_d3 (build ps) name)
  = Z.of_nat (length (filter (terminal ps) ps)) ∧
  length (filter (terminal ps) ps)
  = length (filter (λ p, clean p ≠ [] ∧
                         is_leaf_at (build ps) (clean p) = true) ps).
Proof.
  split.
  - rewrite (leaf_sum_node_at ps (build ps) [] name) by done. f_equal.
    apply length_filter_ext. intros p _. split; [by intros [? _]|].
    intros ?. split; [done|apply prefix_nil].
  - apply length_filter_ext. intros p Hp. by apply terminal_is_leaf_at.
Qed.

End Hierarchy.

(** ** String primitives *)

(** [s.startswith(prefix)] *)
Definition startswith (s prefix : string) : bool := String.prefix prefix s.

(** [s.endswith(suffix)] *)
Definition endswith (s suffix : string) : bool :=
  String.prefix (String.rev suffix) (String.rev s).

(** [needle in s] *)
Fixpoint str_contains (needle s : string) : bool :=
  String.prefix needle s ||
  match s with
  | EmptyString => false
  | String _ s' => str_contains needle s'
  end.

(** [s.split(sep)] for a separator of one character. *)
Fixpoint split_on (sep : ascii) (s : string) : list string :=
  match s with
  | EmptyString => [EmptyString]
  | String c s' =>
      if decide (c = sep) then EmptyString :: split_on sep s'
      else match split_on sep s' with
           | [] => [String c EmptyString]
           | seg :: segs => String c seg :: segs
           end
  end.

Example split_on_ex :
  split_on "/"%char "/personas//a/" = [""; "personas"; ""; "a"; ""].
Proof. reflexivity. Qed.

(** The remaining [str] methods the crawler calls are taken from the Python
    runtime as an interface. *)
Class StrLib := {
  (** [s.strip()] *)
  str_strip : string → string;
  (** [s.lower()] *)
  str_lower : string → string;
  (** [s.splitlines()] *)
  str_splitlines : string → list string;
  (** [s.replace(old, new)] *)
  str_replace : string → string → string → string;
}.

(** ** URL library ([urllib.parse]) *)

Record ParseResult := { scheme : string; netloc : string; path : string }.

(** [None] stands for a raised exception ([ValueError] on a malformed
    reference). [urldefrag] gives the URL part of its result. *)
Class UrlLib := {
  urlparse : string → option ParseResult;
  urljoin : string → string → option string;
  urldefrag : string → option string;
}.

(** ** HTTP ([requests]) and HTML ([bs4]) *)

Record Response := {
  resp_status_code : Z;
  (** [resp.headers.get("Content-Type")] *)
  resp_content_type : option string;
  (** [resp.url], the URL reached after redirects *)
  resp_url : string;
  resp_text : string;
}.

(** The outcome of a GET: a response, a [requests.RequestException]
    (timeout, connection refused, TLS failure, ...) with its message, or an
    exception of another class. *)
Inductive get_result :=
  | Got (resp : Response)
  | RequestException (e : string)
  | OtherException.

(** The requests are numbered in the order in which they are made, so a URL
    may answer differently at different times. *)
Class Http := {
  (** [requests.get(sm, ...)] of the sitemap seeder *)
  requests_get : nat → string → get_result;
  (** [session.get(url, ...)] of the main loop *)
  session_get : nat → string → get_result;
}.

(** A tag found in the document, with the attributes the crawler reads. *)
Record Tag := {
  (** [tag.get("content")] *)
  tag_content : option string;
  (** [tag.get("href")] *)
  tag_href : option string;
}.

(** The queries the crawler makes on a parsed document. *)
Record Soup := {
  (** [soup.title.string] when [soup.title] and [soup.title.string] exist *)
  soup_title_string : option string;
  (** [soup.find("meta", attrs={"name": "description"})] *)
  find_meta_name_description : option Tag;
  (** [soup.find("meta", attrs={"property": "og:description"})] *)
  find_meta_og_description : option Tag;
  (** [soup.find("meta", attrs={"name": "Description"})] *)
  find_meta_name_Description : option Tag;
  (** [soup.find("link", rel=lambda v: v and "canonical" in v)] *)
  find_link_canonical : option Tag;
  (** [a["href"] for a in soup.find_all("a", href=True)] *)
  find_all_a_href : list string;
}.

Class Html := { BeautifulSoup : string → Soup }.

(** ** Robots policy ([urllib.robotparser]) *)

Class RobotsLib := {
  RobotFileParser : Type;
  (** [RobotFileParser()] *)
  rp_new : RobotFileParser;
  (** [rp.set_url(url); rp.read()]: the parser afterwards, and whether
      [read] raised. *)
  rp_read : string → RobotFileParser → RobotFileParser * bool;
  (** [rp.can_fetch(useragent, url)], [None] when it raises. *)
  rp_can_fetch : RobotFileParser → string → string → option bool;
}.

(** ** The crawler *)

(** The module-level configuration constants. [MAX_PAGES = None] is
    [float('inf')]. *)
Record Config := {
  BASE_URL : string;
  MAX_PAGES : option nat;
  MAX_DEPTH : nat;
  OBEY_ROBOTS : bool;
  USE_SITEMAP : bool;
  SITEMAP_URLS : list string;
  RECORD_BLOCKED_URLS : bool;
  USER_AGENT : string;
}.

Record PageRecord := {
  url : string;
  status_code : option Z;
  title : string;
  meta_description : string;
  canonical : option string;
  parent_url : option string;
  depth : nat;
}.

(** A line of [edges.jsonl]. *)
Record EdgeRecord := { source : string; target : string }.

(** A line of [errors.jsonl]. *)
Record ErrorRecord := { error_url : string; error : string }.

(** The messages the main loop sends to the logger, in the order of their
    calls in the source. *)
Inductive LogEvent :=
  | LogDequeued (u : string)
  | LogSkipDepth (u : string)
  | LogSkipOrigin (u : string)
  | LogSkipDuplicate (u : string)
  | LogRobotsBlocked (u : string)
  | LogRobotsError (u : string)
  | LogGet (u : string) (status : Z)
  | LogNoHtml (u : string)
  | LogRequestException (u : string)
  | LogEnqueued (child u : string).

#[global] Instance PageRecord_eq_dec : EqDecision PageRecord.
Proof. solve_decision. Defined.
#[global] Instance EdgeRecord_eq_dec : EqDecision EdgeRecord.
Proof. solve_decision. Defined.
#[global] Instance ErrorRecord_eq_dec : EqDecision ErrorRecord.
Proof. solve_decision. Defined.
#[global] Instance LogEvent_eq_dec : EqDecision LogEvent.
Proof. solve_decision. Defined.

Module Crawler.
Import Hierarchy.

(** A frontier entry [(url, parent, depth)]. *)
Definition Entry : Type := string * option string * nat.

(** The variables of [crawl] that the loop reads and writes, the three
    output files, the log and the number of GET requests made so far. *)
Record State := {
  visited : gset string;
  q : list Entry;
  hroot : node;
  pages_count : nat;
  pages_fp : list PageRecord;
  edges_fp : list EdgeRecord;
  errors_fp : list ErrorRecord;
  logger : list LogEvent;
  requests : nat;
}.

(** How an iteration of the loop ends: normally, or by an exception that
    leaves the loop and is caught by the handler around it. *)
Inductive Result :=
  | Next (st : State)
  | Raised (st : State).

Definition set_q (q' : list Entry) (st : State) : State :=
  {| visited := st.(visited); q := q'; hroot := st.(hroot);
     pages_count := st.(pages_count); pages_fp := st.(pages_fp);
     edges_fp := st.(edges_fp); errors_fp := st.(errors_fp);
     logger := st.(logger); requests := st.(requests) |}.

Definition log (ev : LogEvent) (st : State) : State :=
  {| visited := st.(visited); q := st.(q); hroot := st.(hroot);
     pages_count := st.(pages_count); pages_fp := st.(pages_fp);
     edges_fp := st.(edges_fp); errors_fp := st.(errors_fp);
     logger := st.(logger) ++ [ev]; requests := st.(requests) |}.

(** [visited.add(u)] *)
Definition visited_add (u : string) (st : State) : State :=
  {| visited := {[u]} ∪ st.(visited); q := st.(q); hroot := st.(hroot);
     pages_count := st.(pages_count); pages_fp := st.(pages_fp);
     edges_fp := st.(edges_fp); errors_fp := st.(errors_fp);
     logger := st.(logger); requests := st.(requests) |}.

(** [pages_fp.write(json.dumps(rec.__dict__) + "\n"); pages_count += 1] *)
Definition write_page (rec : PageRecord) (st : State) : State :=
  {| visited := st.(visited); q := st.(q); hroot := st.(hroot);
     pages_count := S st.(pages_count); pages_fp := st.(pages_fp) ++ [rec];
     edges_fp := st.(edges_fp); errors_fp := st.(errors_fp);
     logger := st.(logger); requests := st.(requests) |}.

(** [errors_fp.write(json.dumps({"url": u, "error": str(e)}) + "\n")] *)
Definition write_error (u e : string) (st : State) : State :=
  {| visited := st.(visited); q := st.(q); hroot := st.(hroot);
     pages_count := st.(pages_count); pages_fp := st.(pages_fp);
     edges_fp := st.(edges_fp);
     errors_fp := st.(errors_fp) ++ [{| error_url := u; error := e |}];
     logger := st.(logger); requests := st.(requests) |}.

(** [q.append((child, u, d)); edges_fp.write(...); logger.debug(...)] *)
Definition enqueue_child (u : string) (d : nat) (child : string)
    (st : State) : State :=
  {| visited := st.(visited); q := st.(q) ++ [(child, Some u, d)];
     hroot := st.(hroot);
     pages_count := st.(pages_count); pages_fp := st.(pages_fp);
     edges_fp := st.(edges_fp) ++ [{| source := u; target := child |}];
     errors_fp := st.(errors_fp);
     logger := st.(logger) ++ [LogEnqueued child u];
     requests := st.(requests) |}.

Definition set_hroot (h : node) (st : State) : State :=
  {| visited := st.(visited); q := st.(q); hroot := h;
     pages_count := st.(pages_count); pages_fp := st.(pages_fp);
     edges_fp := st.(edges_fp); errors_fp := st.(errors_fp);
     logger := st.(logger); requests := st.(requests) |}.

Definition count_request (st : State) : State :=
  {| visited := st.(visited); q := st.(q); hroot := st.(hroot);
     pages_count := st.(pages_count); pages_fp := st.(pages_fp);
     edges_fp := st.(edges_fp); errors_fp := st.(errors_fp);
     logger := st.(logger); requests := S st.(requests) |}.

Section crawl.
Context {strlib : StrLib} {urllib : UrlLib} {http : Http} {htmllib : Html}
  {robots : RobotsLib}.
Variable cfg : Config.

(** [normalize_url(base, href)]: [None] when an exception was caught. *)
Definition normalize_url (base href : string) : option string :=
  match urljoin base href with
  | Some abs_url => urldefrag abs_url
  | None => None
  end.

(** [same_origin(a, b)]; [None] when [urlparse] raises. *)
Definition same_origin (a b : string) : option bool :=
  pa ← urlparse a;
  pb ← urlparse b;
  Some (bool_decide ((pa.(scheme), pa.(netloc)) = (pb.(scheme), pb.(netloc)))).

(** [extract_meta(soup)] *)
Definition extract_meta (soup : Soup) : string * string :=
  let title :=
    match soup.(soup_title_string) with
    | Some s => if decide (s = "") then "SIN_TITULO" else str_strip s
    | None => "SIN_TITULO"
    end in
  let desc_tag :=
    match soup.(find_meta_name_description) with
    | Some t => Some t
    | None =>
        match soup.(find_meta_og_description) with
        | Some t => Some t
        | None => soup.(find_meta_name_Description)
        end
    end in
  let meta_description :=
    match desc_tag ≫= tag_content with
    | Some c => if decide (c = "") then "SIN_DESCRIPCION" else str_strip c
    | None => "SIN_DESCRIPCION"
    end in
  (title, meta_description).

(** [extract_canonical(soup)] *)
Definition extract_canonical (soup : Soup) : option string :=
  match soup.(find_link_canonical) ≫= tag_href with
  | Some h => if decide (h = "") then None else Some (str_strip h)
  | None => None
  end.

(** [is_html_response(resp)] *)
Definition is_html_response (resp : Response) : bool :=
  let ctype := str_lower (default "" resp.(resp_content_type)) in
  str_contains "text/html" ctype || str_contains "application/xhtml" ctype.

(** *** Sitemap seeder *)

(** The body of the loop over the lines of a sitemap: the location that is
    appended to [urls], if any. *)
Definition sitemap_line_loc (base_prefix line : string) : option string :=
  let line := str_strip line in
  if startswith line "<loc>" && endswith line "</loc>" then
    let loc := str_strip (str_replace (str_replace line "<loc>" "") "</loc>" "") in
    if startswith loc base_prefix then Some loc else None
  else None.

(** What one sitemap appends to [urls]; nothing when the request raised
    (the exception is logged) or did not answer 200 with a body. *)
Definition sitemap_locs (base_prefix : string) (r : get_result) : list string :=
  match r with
  | Got resp =>
      if bool_decide (resp.(resp_status_code) = 200)
         && bool_decide (resp.(resp_text) ≠ "")
      then omap (sitemap_line_loc base_prefix) (str_splitlines resp.(resp_text))
      else []
  | RequestException _ | OtherException => []
  end.

(** [fetch_sitemap_urls(logger, base_origin, base_prefix)] *)
Definition fetch_sitemap_urls (base_origin base_prefix : string) : list string :=
  let urls :=
    mjoin (imap (λ i sm, sitemap_locs base_prefix (requests_get i sm))
                cfg.(SITEMAP_URLS)) in
  sorted (elements (list_to_set urls : gset string)).

Lemma sitemap_line_loc_Some base_prefix line loc :
  sitemap_line_loc base_prefix line = Some loc ↔
    let line' := str_strip line in
    startswith line' "<loc>" = true ∧ endswith line' "</loc>" = true ∧
    loc = str_strip (str_replace (str_replace line' "<loc>" "") "</loc>" "") ∧
    startswith loc base_prefix = true.
Proof.
  unfold sitemap_line_loc. cbv zeta.
  destruct (startswith (str_strip line) "<loc>"),
    (endswith (str_strip line) "</loc>"); cbn;
    try (split; [done|by intros (? & ? & _)]).
  destruct (startswith (str_strip _) base_prefix) eqn:Hpre.
  - split; [by intros [= <-]|by intros (_ & _ & -> & _)].
  - split; [done|]. intros (_ & _ & -> & Hp). congruence.
Qed.

Lemma elem_of_sitemap_locs base_prefix r loc :
  loc ∈ sitemap_locs base_prefix r ↔
    ∃ resp line,
      r = Got resp ∧ resp.(resp_status_code) = 200 ∧ resp.(resp_text) ≠ "" ∧
      line ∈ str_splitlines resp.(resp_text) ∧
      sitemap_line_loc base_prefix line = Some loc.
Proof.
  unfold sitemap_locs. destruct r as [resp|e|].
  - destruct (bool_decide (resp_status_code resp = 200)) eqn:Hs; cbn.
    + apply bool_decide_eq_true in Hs.
      destruct (bool_decide (resp_text resp ≠ "")) eqn:Ht; cbn.
      * apply bool_decide_eq_true in Ht. rewrite list_elem_of_omap. split.
        { intros (line & Hline & Hloc). by exists resp, line. }
        { intros (resp' & line & [= <-] & _ & _ & Hline & Hloc). eauto. }
      * apply bool_decide_eq_false in Ht. split; [by intros ?%elem_of_nil|].
        by intros (resp' & line & [= <-] & _ & Ht' & _).
    + apply bool_decide_eq_false in Hs. split; [by intros ?%elem_of_nil|].
      by intros (resp' & line & [= <-] & Hs' & _).
  - split; [by intros ?%elem_of_nil|]. by intros (? & ? & ? & _).
  - split; [by intros ?%elem_of_nil|]. by intros (? & ? & ? & _).
Qed.

(** C6. The sitemap seeder returns a duplicate-free list in strictly
    increasing lexicographic order that contains exactly the locations
    extracted, from the sitemaps that answered 200 with a body, out of the
    lines of the form [<loc>...</loc>], whose text starts with the prefix. *)
Theorem fetch_sitemap_urls_sorted_unique base_origin base_prefix :
  let urls := fetch_sitemap_urls base_origin base_prefix in
  NoDup urls ∧
  Sorted (strict String.le) urls ∧
  ∀ loc, loc ∈ urls ↔
    ∃ i sm resp line,
      cfg.(SITEMAP_URLS) !! i = Some sm ∧
      requests_get i sm = Got resp ∧
      resp.(resp_status_code) = 200 ∧ resp.(resp_text) ≠ "" ∧
      line ∈ str_splitlines resp.(resp_text) ∧
      let line' := str_strip line in
      startswith line' "<loc>" = true ∧ endswith line' "</loc>" = true ∧
      loc = str_strip (str_replace (str_replace line' "<loc>" "") "</loc>" "") ∧
      startswith loc base_prefix = true.
Proof.
  cbv zeta. unfold fetch_sitemap_urls.
  set (urls := mjoin _).
  assert (NoDup (sorted (elements (list_to_set urls : gset string)))) as Hnd.
  { rewrite sorted_Permutation. apply NoDup_elements. }
  split_and!; [done| |].
  - by apply Sorted_strict_NoDup; [apply sorted_Sorted|].
  - intros loc.
    rewrite sorted_Permutation, elem_of_elements,
      elem_of_list_to_set.
    unfold urls. rewrite list_elem_of_join. split.
    + intros (locs & Hloc & Hlocs).
      apply elem_of_lookup_imap in Hlocs as (i & sm & -> & Hsm).
      apply elem_of_sitemap_locs in Hloc
        as (resp & line & Hget & Hs & Ht & Hline & Hsome).
      apply sitemap_line_loc_Some in Hsome.
      by exists i, sm, resp, line.
    + intros (i & sm & resp & line & Hsm & Hget & Hs & Ht & Hline & Hsome).
      exists (sitemap_locs base_prefix (requests_get i sm)). split.
      * apply elem_of_sitemap_locs. exists resp, line.
        split_and!; [done..|]. by apply sitemap_line_loc_Some.
      * by apply (elem_of_lookup_imap_2
          (λ i sm, sitemap_locs base_prefix (requests_get i sm))).
Qed.

(** *** Main loop *)

(** The anchors of a fetched page that are kept in [links_to_enqueue]: the
    references that normalize to a non-empty URL of the crawled origin.
    [None] when [same_origin] raises, which no handler in the loop catches. *)
Fixpoint collect_links (origin base : string) (hrefs : list string)
    : option (list string) :=
  match hrefs with
  | [] => Some []
  | href :: hrefs' =>
      match normalize_url base href with
      | None => collect_links origin base hrefs'
      | Some cand =>
          if decide (cand = "") then collect_links origin base hrefs'
          else
            match same_origin origin cand with
            | None => None
            | Some false => collect_links origin base hrefs'
            | Some true => (cand ::.) <$> collect_links origin base hrefs'
            end
      end
  end.

(** The loop over [links_to_enqueue] that closes an iteration. *)
Definition enqueue_children (u : string) (d : nat) (links_to_enqueue : list string)
    (st : State) : State :=
  foldl (λ st child,
           if decide (child ∉ st.(visited)) then enqueue_child u (S d) child st
           else st)
        st links_to_enqueue.

(** From [visited.add(url)] to the end of the iteration. *)
Definition finish_page (u : string) (parent : option string) (d : nat)
    (status_code : option Z) (title meta_description : string)
    (canonical : option string) (links_to_enqueue : list string)
    (st : State) : Result :=
  let st := visited_add u st in
  let rec := {| url := u; status_code := status_code; title := title;
                meta_description := meta_description; canonical := canonical;
                parent_url := parent; depth := d |} in
  let st := write_page rec st in
  match urlparse u with
  | None => Raised st
  | Some up =>
      let segs := filter (λ seg, seg ≠ "") (split_on "/" up.(path)) in
      let st := set_hroot (insert_path st.(hroot) segs) st in
      Next (enqueue_children u d links_to_enqueue st)
  end.

(** The request for [u] with its two handlers: [RequestException] is
    recorded in the error file and the iteration goes on with the defaults;
    any other exception leaves the loop. *)
Definition fetch_page (origin u : string) (parent : option string) (d : nat)
    (st : State) : Result :=
  match session_get st.(requests) u with
  | Got resp =>
      let st := log (LogGet u resp.(resp_status_code)) (count_request st) in
      let status_code := Some resp.(resp_status_code) in
      if is_html_response resp && bool_decide (resp.(resp_text) ≠ "") then
        let soup := BeautifulSoup resp.(resp_text) in
        let '(title, meta_description) := extract_meta soup in
        let canonical := extract_canonical soup in
        match collect_links origin resp.(resp_url) soup.(find_all_a_href) with
        | None => Raised st
        | Some links_to_enqueue =>
            finish_page u parent d status_code title meta_description
              canonical links_to_enqueue st
        end
      else
        finish_page u parent d status_code "SIN_TITULO" "SIN_DESCRIPCION"
          None [] (log (LogNoHtml u) st)
  | RequestException e =>
      finish_page u parent d None "SIN_TITULO" "SIN_DESCRIPCION" None []
        (write_error u e (log (LogRequestException u) (count_request st)))
  | OtherException => Raised (count_request st)
  end.

(** One iteration of the [while] loop, for a non-empty queue. *)
Definition loop_body (rp : RobotFileParser) (origin : string) (st : State)
    : Result :=
  match st.(q) with
  | [] => Next st
  | (u, parent, d) :: q' =>
      let st := log (LogDequeued u) (set_q q' st) in
      if decide (cfg.(MAX_DEPTH) < d)%nat then Next (log (LogSkipDepth u) st)
      else
        match same_origin cfg.(BASE_URL) u with
        | None => Raised st
        | Some false => Next (log (LogSkipOrigin u) st)
        | Some true =>
            if decide (u ∈ st.(visited)) then Next (log (LogSkipDuplicate u) st)
            else if cfg.(OBEY_ROBOTS) then
              match rp_can_fetch rp cfg.(USER_AGENT) u with
              | Some false =>
                  let st := visited_add u (log (LogRobotsBlocked u) st) in
                  if cfg.(RECORD_BLOCKED_URLS) then
                    Next (write_page
                            {| url := u; status_code := None;
                               title := "BLOQUEADA_POR_ROBOTS";
                               meta_description := "BLOQUEADA_POR_ROBOTS";
                               canonical := None; parent_url := parent;
                               depth := d |} st)
                  else Next st
              | Some true => fetch_page origin u parent d st
              | None => fetch_page origin u parent d (log (LogRobotsError u) st)
              end
            else fetch_page origin u parent d st
        end
  end.

(** [q and pages_count < MAX_PAGES] *)
Definition loop_cond (st : State) : bool :=
  bool_decide (st.(q) ≠ []) &&
  match cfg.(MAX_PAGES) with
  | None => true
  | Some m => bool_decide (st.(pages_count) < m)%nat
  end.

(** The [while] loop, run for at most [fuel] iterations: [None] when the
    fuel does not suffice, otherwise the state at the exit and whether the
    exit was by an exception. *)
Fixpoint crawl_loop (fuel : nat) (rp : RobotFileParser) (origin : string)
    (st : State) : option (State * bool) :=
  if loop_cond st then
    match fuel with
    | O => None
    | S fuel' =>
        match loop_body rp origin st with
        | Next st' => crawl_loop fuel' rp origin st'
        | Raised st' => Some (st', true)
        end
    end
  else Some (st, false).

(** [f"{parsed_base.scheme}://{parsed_base.netloc}"] *)
Definition origin_of (parsed_base : ParseResult) : string :=
  parsed_base.(scheme) +:+ "://" +:+ parsed_base.(netloc).

(** The parser after the optional [rp.read()], whose exception is logged. *)
Definition robots_setup (robots_url : string) : RobotFileParser :=
  if cfg.(OBEY_ROBOTS) then (rp_read robots_url rp_new).1 else rp_new.

(** The state in which the loop is entered, given the sitemap URLs. *)
Definition initial_state (sm_urls : list string) : State :=
  {| visited := ∅;
     q := (cfg.(BASE_URL), None, 0%nat)
          :: ((λ u, (u, Some cfg.(BASE_URL), 1%nat)) <$> sm_urls);
     hroot := fresh; pages_count := 0; pages_fp := []; edges_fp := [];
     errors_fp := []; logger := []; requests := 0 |}.

(** What [crawl] does before the loop: the robots parser, the origin and the
    initial state. [None] when [urlparse] or [urljoin] raises there, outside
    every handler. *)
Definition crawl_init : option (RobotFileParser * string * State) :=
  parsed_base ← urlparse cfg.(BASE_URL);
  let origin := origin_of parsed_base in
  robots_url ← urljoin origin "/robots.txt";
  let rp := robots_setup robots_url in
  let sm_urls :=
    if cfg.(USE_SITEMAP)
    then fetch_sitemap_urls origin (origin +:+ parsed_base.(path))
    else [] in
  Some (rp, origin, initial_state sm_urls).

(** What a crawl leaves behind: the final state with the three files,
    whether the loop was left by an exception, and [hierarchy.json]. *)
Record Output := { final : State; critical : bool; d3tree : d3 }.

(** [crawl()] *)
Definition crawl (fuel : nat) : option Output :=
  '(rp, origin, st0) ← crawl_init;
  '(st, crit) ← crawl_loop fuel rp origin st0;
  parsed_base ← urlparse cfg.(BASE_URL);
  Some {| final := st; critical := crit;
          d3tree := hierarchy_to_d3 st.(hroot) parsed_base.(netloc) |}.

(** *** The effect of one iteration on the records *)

Definition result_state (r : Result) : State :=
  match r with Next st | Raised st => st end.

(** The children loop appends, for every occurrence of a link that is not in
    [visited], an entry to the queue and an edge to the edge file, and
    changes nothing else but the log. *)
Lemma enqueue_children_spec u d links st :
  let new := filter (λ child, child ∉ st.(visited)) links in
  let st' := enqueue_children u d links st in
  st'.(visited) = st.(visited) ∧
  st'.(q) = st.(q) ++ ((λ child, (child, Some u, S d)) <$> new) ∧
  st'.(edges_fp)
    = st.(edges_fp) ++ ((λ child, {| source := u; target := child |}) <$> new) ∧
  st'.(hroot) = st.(hroot) ∧
  st'.(pages_count) = st.(pages_count) ∧
  st'.(pages_fp) = st.(pages_fp) ∧
  st'.(errors_fp) = st.(errors_fp) ∧
  st'.(requests) = st.(requests).
Proof.
  cbv zeta. unfold enqueue_children. revert st.
  induction links as [|child links IH]; intros st.
  { cbn. by rewrite !app_nil_r. }
  cbn [foldl]. rewrite filter_cons.
  destruct (decide (child ∉ st.(visited))) as [Hnew|Hold].
  - destruct (IH (enqueue_child u (S d) child st))
      as (Hv & Hq & He & Hh & Hc & Hp & Her & Hr).
    cbn in Hv, Hq, He, Hh, Hc, Hp, Her, Hr.
    rewrite Hv, Hq, He, Hh, Hc, Hp, Her, Hr.
    rewrite !fmap_cons, <-!app_assoc. done.
  - apply IH.
Qed.

(** What an iteration did to the page file, the page counter and the
    visited set, for the dequeued URL [u]: nothing but possibly marking [u]
    visited, or one record for [u], counted, with [u] marked visited. *)
Definition page_effect (u : string) (st st' : State) : Prop :=
  (st'.(pages_fp) = st.(pages_fp) ∧
   st'.(pages_count) = st.(pages_count) ∧
   (st'.(visited) = st.(visited) ∨ st'.(visited) = {[u]} ∪ st.(visited))) ∨
  (∃ rec, rec.(url) = u ∧
     st'.(pages_fp) = st.(pages_fp) ++ [rec] ∧
     st'.(pages_count) = S st.(pages_count) ∧
     st'.(visited) = {[u]} ∪ st.(visited)).

Lemma finish_page_effect u parent d sc t m c links st :
  let st' := result_state (finish_page u parent d sc t m c links st) in
  st'.(pages_fp)
    = st.(pages_fp) ++ [{| url := u; status_code := sc; title := t;
                           meta_description := m; canonical := c;
                           parent_url := parent; depth := d |}] ∧
  st'.(pages_count) = S st.(pages_count) ∧
  st'.(visited) = {[u]} ∪ st.(visited) ∧
  st'.(errors_fp) = st.(errors_fp) ∧
  st'.(requests) = st.(requests).
Proof.
  cbv zeta. unfold finish_page. destruct (urlparse u) as [up|]; [|done].
  cbn [result_state].
  match goal with |- context [enqueue_children ?u ?d ?l ?s] =>
    destruct (enqueue_children_spec u d l s)
      as (Hv & _ & _ & _ & Hc & Hp & He & Hr)
  end.
  by rewrite Hv, Hc, Hp, He, Hr.
Qed.

Lemma fetch_page_effect origin u parent d st :
  page_effect u st (result_state (fetch_page origin u parent d st)).
Proof.
  unfold fetch_page.
  destruct (session_get _ u) as [resp|e|]; [| |by left; auto].
  - destruct (_ && _).
    + destruct (extract_meta _) as [t m].
      destruct (collect_links _ _ _) as [links|]; [|by left; auto].
      match goal with |- context [finish_page ?u ?p ?d ?sc ?t ?m ?c ?l ?s] =>
        destruct (finish_page_effect u p d sc t m c l s) as (Hp & Hc & Hv & _)
      end.
      right. eexists. split; [|split_and!; [exact Hp|exact Hc|exact Hv]]. done.
    + match goal with |- context [finish_page ?u ?p ?d ?sc ?t ?m ?c ?l ?s] =>
        destruct (finish_page_effect u p d sc t m c l s) as (Hp & Hc & Hv & _)
      end.
      right. eexists. split; [|split_and!; [exact Hp|exact Hc|exact Hv]]. done.
  - match goal with |- context [finish_page ?u ?p ?d ?sc ?t ?m ?c ?l ?s] =>
      destruct (finish_page_effect u p d sc t m c l s) as (Hp & Hc & Hv & _)
    end.
    right. eexists. split; [|split_and!; [exact Hp|exact Hc|exact Hv]]. done.
Qed.

Lemma loop_body_effect rp origin st u parent d q' :
  st.(q) = (u, parent, d) :: q' →
  let st' := result_state (loop_body rp origin st) in
  page_effect u st st' ∧
  (u ∈ st.(visited) →
   st'.(pages_fp) = st.(pages_fp) ∧ st'.(visited) = st.(visited)).
Proof.
  intros Hq. cbv zeta. unfold loop_body. rewrite Hq.
  set (st1 := log (LogDequeued u) (set_q q' st)).
  assert (Hfetch : ∀ st2,
    st2.(pages_fp) = st.(pages_fp) → st2.(pages_count) = st.(pages_count) →
    st2.(visited) = st.(visited) →
    page_effect u st (result_state (fetch_page origin u parent d st2))).
  { intros st2 Hp Hc Hv.
    pose proof (fetch_page_effect origin u parent d st2) as He.
    unfold page_effect in *. by rewrite Hp, Hc, Hv in He. }
  case_decide; [by split; [left|]; auto|].
  destruct (same_origin _ u) as [[]|]; [|by split; [left|]; auto..].
  destruct (decide (u ∈ visited st1)) as [Hin|Hnin];
    [by split; [left|]; auto|].
  split; [|done].
  destruct (OBEY_ROBOTS cfg); [|by apply Hfetch].
  destruct (rp_can_fetch rp _ u) as [[]|]; [by apply Hfetch| |by apply Hfetch].
  destruct (RECORD_BLOCKED_URLS cfg).
  - right. eexists. split_and!; [|reflexivity..]. reflexivity.
  - left. split_and!; [done..|by right].
Qed.

(** An invariant that every iteration preserves holds when the loop exits. *)
Lemma crawl_loop_invariant (Inv : State → Prop) rp origin :
  (∀ st, loop_cond st = true → Inv st →
         Inv (result_state (loop_body rp origin st))) →
  ∀ fuel st st' crit,
    Inv st → crawl_loop fuel rp origin st = Some (st', crit) → Inv st'.
Proof.
  intros Hstep fuel. induction fuel as [|fuel IH]; intros st st' crit HI; cbn.
  - destruct (loop_cond st); [done|]. by intros [= <- _].
  - destruct (loop_cond st) eqn:Hcond; [|by intros [= <- _]].
    specialize (Hstep st Hcond HI).
    destruct (loop_body rp origin st) as [st1|st1]; cbn in Hstep.
    + by apply IH.
    + by intros [= <- _].
Qed.

(** The loop runs its body only on a non-empty queue. *)
Lemma loop_cond_queue st :
  loop_cond st = true → ∃ u parent d q', st.(q) = (u, parent, d) :: q'.
Proof.
  unfold loop_cond. intros [Hq _]%andb_true_iff.
  apply bool_decide_eq_true in Hq.
  destruct st.(q) as [|[[u parent] d] q']; [done|]. eauto.
Qed.

(** Every recorded URL is visited, and no URL is recorded twice. *)
Definition pages_unique (st : State) : Prop :=
  NoDup (url <$> st.(pages_fp)) ∧
  ∀ rec, rec ∈ st.(pages_fp) → rec.(url) ∈ st.(visited).

Lemma pages_unique_step rp origin st :
  loop_cond st = true → pages_unique st →
  pages_unique (result_state (loop_body rp origin st)).
Proof.
  intros (u & parent & d & q' & Hq)%loop_cond_queue [Hnd Hvis].
  destruct (loop_body_effect rp origin st u parent d q' Hq) as [Heff Hdup].
  cbv zeta in *. unfold pages_unique.
  destruct Heff as [(Hp & _ & Hv)|(rec & Hu & Hp & _ & Hv)].
  - rewrite Hp. split; [done|]. intros rec Hrec.
    destruct Hv as [->| ->]; [by apply Hvis|].
    apply elem_of_union_r. by apply Hvis.
  - destruct (decide (u ∈ st.(visited))) as [Hin|Hnin].
    { destruct (Hdup Hin) as [Hp' _]. rewrite Hp' in Hp.
      apply (f_equal length) in Hp. rewrite length_app in Hp.
      cbn in Hp. lia. }
    rewrite Hp, Hv. split.
    + rewrite fmap_app. apply NoDup_app. split_and!; [done| |].
      * intros x (rec' & -> & Hrec')%list_elem_of_fmap.
        cbn. intros Heq%list_elem_of_singleton.
        apply Hnin. rewrite <-Hu, <-Heq. by apply Hvis.
      * apply NoDup_singleton.
    + intros rec' [Hrec'| ->%list_elem_of_singleton]%elem_of_app.
      * apply elem_of_union_r. by apply Hvis.
      * rewrite Hu. by apply elem_of_union_l, elem_of_singleton.
Qed.

(** The page counter is the number of records written, and stays within
    the configured maximum. *)
Definition pages_counted (st : State) : Prop :=
  st.(pages_count) = length st.(pages_fp) ∧
  ∀ m, cfg.(MAX_PAGES) = Some m → (st.(pages_count) ≤ m)%nat.

Lemma pages_counted_step rp origin st :
  loop_cond st = true → pages_counted st →
  pages_counted (result_state (loop_body rp origin st)).
Proof.
  intros Hcond [Hlen Hmax].
  destruct (loop_cond_queue st Hcond) as (u & parent & d & q' & Hq).
  destruct (loop_body_effect rp origin st u parent d q' Hq) as [Heff _].
  cbv zeta in *. unfold pages_counted.
  destruct Heff as [(Hp & Hc & _)|(rec & _ & Hp & Hc & _)]; rewrite Hp, Hc.
  - done.
  - split; [rewrite length_app; cbn; lia|].
    intros m Hm. unfold loop_cond in Hcond. rewrite Hm in Hcond.
    apply andb_true_iff in Hcond as [_ Hlt%bool_decide_eq_true]. lia.
Qed.

Lemma initial_state_pages sm_urls :
  pages_unique (initial_state sm_urls) ∧ pages_counted (initial_state sm_urls).
Proof.
  split; split; cbn; [constructor|by intros ? ?%elem_of_nil|done|lia].
Qed.

(** A crawl that returns has run the loop from the initial state to its
    exit. *)
Lemma crawl_Some fuel out :
  crawl fuel = Some out →
  ∃ rp origin sm_urls,
    crawl_loop fuel rp origin (initial_state sm_urls)
    = Some (out.(final), out.(critical)).
Proof.
  unfold crawl, crawl_init. intros Hc.
  destruct (urlparse (BASE_URL cfg)) as [parsed_base|]; [|done].
  cbn in Hc. destruct (urljoin _ "/robots.txt") as [robots_url|]; [|done].
  cbn in Hc.
  destruct (crawl_loop fuel _ _ _) as [[st crit]|] eqn:Hloop; [|done].
  cbn in Hc. injection Hc as <-. eauto.
Qed.

Lemma same_origin_Some_parse a b r :
  same_origin a b = Some r → is_Some (urlparse b).
Proof.
  unfold same_origin. destruct (urlparse a); [|done]. cbn.
  by destruct (urlparse b).
Qed.

(** When the URL parses, the tail of the iteration completes normally. *)
Lemma finish_page_Next u parent d sc t m c links st :
  is_Some (urlparse u) →
  let new := filter (λ child, child ∉ {[u]} ∪ st.(visited)) links in
  ∃ st',
    finish_page u parent d sc t m c links st = Next st' ∧
    st'.(pages_fp)
      = st.(pages_fp) ++ [{| url := u; status_code := sc; title := t;
                             meta_description := m; canonical := c;
                             parent_url := parent; depth := d |}] ∧
    st'.(visited) = {[u]} ∪ st.(visited) ∧
    st'.(q) = st.(q) ++ ((λ child, (child, Some u, S d)) <$> new) ∧
    st'.(edges_fp)
      = st.(edges_fp) ++ ((λ child, {| source := u; target := child |}) <$> new) ∧
    st'.(errors_fp) = st.(errors_fp).
Proof.
  intros [up Hup]. cbv zeta. unfold finish_page. rewrite Hup.
  eexists. split; [done|].
  match goal with |- context [enqueue_children ?u ?d ?l ?s] =>
    destruct (enqueue_children_spec u d l s)
      as (Hv & Hq & He & _ & _ & Hp & Her & _)
  end.
  by rewrite Hv, Hq, He, Hp, Her.
Qed.

(** An entry that passes the three tests and is not blocked is fetched, in a
    state that differs from the one before only in the queue and the log. *)
Lemma loop_body_fetches rp origin st u parent d q' :
  st.(q) = (u, parent, d) :: q' →
  (d ≤ cfg.(MAX_DEPTH))%nat →
  same_origin cfg.(BASE_URL) u = Some true →
  u ∉ st.(visited) →
  (cfg.(OBEY_ROBOTS) = true →
   rp_can_fetch rp cfg.(USER_AGENT) u ≠ Some false) →
  ∃ st2,
    loop_body rp origin st = fetch_page origin u parent d st2 ∧
    st2.(q) = q' ∧ st2.(visited) = st.(visited) ∧
    st2.(pages_fp) = st.(pages_fp) ∧ st2.(edges_fp) = st.(edges_fp) ∧
    st2.(errors_fp) = st.(errors_fp) ∧ st2.(requests) = st.(requests).
Proof.
  intros Hq Hd Hso Hnin Hrob. unfold loop_body. rewrite Hq, Hso.
  rewrite decide_False by lia.
  rewrite decide_False by done.
  destruct (OBEY_ROBOTS cfg); [|by eexists].
  destruct (rp_can_fetch rp _ u) as [[]|]; [by eexists| |by eexists].
  by destruct Hrob.
Qed.

(** *** Termination of the loop

    The queue holds, for each depth up to the maximum, finitely many
    entries, and one more class of entries that are too deep. An iteration
    removes an entry and adds entries only one level deeper, so the vector of
    these numbers decreases in the lexicographic order. *)

Inductive lex_lt : list nat → list nat → Prop :=
  | lex_lt_head x y l l' :
      (x < y)%nat → length l = length l' → lex_lt (x :: l) (y :: l')
  | lex_lt_tail x l l' : lex_lt l l' → lex_lt (x :: l) (x :: l').

Lemma lex_lt_length l l' : lex_lt l l' → length l = length l'.
Proof. induction 1; cbn; congruence. Qed.

Lemma lex_lt_wf : well_founded lex_lt.
Proof.
  intros l. remember (length l) as n eqn:Hn. revert l Hn.
  induction n as [|n IHn]; intros l Hn.
  { destruct l; [|done]. constructor. intros l' Hl'. inversion Hl'. }
  destruct l as [|y l]; [done|]. injection Hn as Hn.
  revert l Hn. induction (lt_wf y) as [y _ IHy]. intros l Hn.
  induction (IHn l Hn) as [l _ IHl].
  constructor. intros l' Hl'. inversion Hl' as [x ? l0 ? Hxy Hlen|? l0 ? Hlt]; subst.
  - apply IHy; [done|congruence].
  - apply IHl; [done|]. apply lex_lt_length in Hlt. congruence.
Qed.

Lemma lex_lt_pointwise (f g : nat → nat) b s n :
  (s ≤ b < s + n)%nat →
  (∀ i, (s ≤ i < b)%nat → f i = g i) →
  (f b < g b)%nat →
  lex_lt (f <$> seq s n) (g <$> seq s n).
Proof.
  revert s. induction n as [|n IH]; intros s Hb Heq Hlt; [lia|].
  cbn. destruct (decide (s = b)) as [->|Hne].
  - apply lex_lt_head; [done|]. by rewrite !length_fmap.
  - rewrite (Heq s) by lia. apply lex_lt_tail, IH; [lia| |done].
    intros i Hi. apply Heq. lia.
Qed.

(** The depth class of an entry: its depth, or one above the maximum. *)
Definition depth_class (e : Entry) : nat := e.2 `min` S cfg.(MAX_DEPTH).

Definition class_size (queue : list Entry) (i : nat) : nat :=
  length (filter (λ e, depth_class e = i) queue).

Definition class_sizes (queue : list Entry) : list nat :=
  class_size queue <$> seq 0 (S (S cfg.(MAX_DEPTH))).

(** What an iteration that completes does to the queue. *)
Lemma loop_body_queue rp origin st u parent d q' st' :
  st.(q) = (u, parent, d) :: q' →
  loop_body rp origin st = Next st' →
  st'.(q) = q' ∨
  ((d ≤ cfg.(MAX_DEPTH))%nat ∧
   ∃ new, st'.(q) = q' ++ ((λ child, (child, Some u, S d)) <$> new)).
Proof.
  intros Hq. unfold loop_body. rewrite Hq.
  assert (Hfetch : ∀ st2, st2.(q) = q' →
    fetch_page origin u parent d st2 = Next st' →
    ∃ new, st'.(q) = q' ++ ((λ child, (child, Some u, S d)) <$> new)).
  { intros st2 Hq2. unfold fetch_page.
    assert (Hfin : ∀ sc t m c links st3, st3.(q) = q' →
      finish_page u parent d sc t m c links st3 = Next st' →
      ∃ new, st'.(q) = q' ++ ((λ child, (child, Some u, S d)) <$> new)).
    { intros sc t m c links st3 Hq3. unfold finish_page.
      destruct (urlparse u); [|done]. intros [= <-].
      match goal with |- context [enqueue_children ?u ?d ?l ?s] =>
        destruct (enqueue_children_spec u d l s) as (_ & Hq4 & _)
      end.
      eexists. rewrite Hq4. cbn. by rewrite Hq3. }
    destruct (session_get _ u) as [resp|e|]; [| |done].
    - destruct (_ && _).
      + destruct (extract_meta _) as [t m].
        destruct (collect_links _ _ _) as [links|]; [|done].
        by apply Hfin.
      + by apply Hfin.
    - by apply Hfin. }
  case_decide as Hd; [intros [= <-]; by left|].
  destruct (same_origin _ u) as [[]|]; [|intros [= <-]; by left|done].
  case_decide; [intros [= <-]; by left|].
  intros Hbody. assert (d ≤ MAX_DEPTH cfg)%nat by lia.
  assert (Hright : ∀ st2, st2.(q) = q' →
    fetch_page origin u parent d st2 = Next st' →
    st'.(q) = q' ∨
    ((d ≤ cfg.(MAX_DEPTH))%nat ∧
     ∃ new, st'.(q) = q' ++ ((λ child, (child, Some u, S d)) <$> new))).
  { intros st2 Hq2 Hf. right. split; [done|]. by apply (Hfetch st2). }
  destruct (OBEY_ROBOTS cfg); [|by eapply Hright; [|exact Hbody]].
  destruct (rp_can_fetch rp _ u) as [[]|].
  - by eapply Hright; [|exact Hbody].
  - left. destruct (RECORD_BLOCKED_URLS cfg); by injection Hbody as <-.
  - by eapply Hright; [|exact Hbody].
Qed.

Lemma class_sizes_decrease rp origin st st' :
  loop_cond st = true → loop_body rp origin st = Next st' →
  lex_lt (class_sizes st'.(q)) (class_sizes st.(q)).
Proof.
  intros (u & parent & d & q' & Hq)%loop_cond_queue Hbody.
  pose proof (loop_body_queue rp origin st u parent d q' st' Hq Hbody) as Hq'.
  rewrite Hq. unfold class_sizes.
  set (b := depth_class (u, parent, d)).
  assert (Hhead : ∀ i, class_size ((u, parent, d) :: q') i
                       = ((if decide (b = i) then 1 else 0) + class_size q' i)%nat).
  { intros i. unfold class_size. rewrite filter_cons. fold b.
    by destruct (decide (b = i)). }
  assert (Hnew : ∀ new i, (d ≤ cfg.(MAX_DEPTH))%nat → (i ≤ b)%nat →
    class_size (q' ++ ((λ child, (child, Some u, S d)) <$> new)) i
    = class_size q' i).
  { intros new i Hd Hi. unfold class_size. rewrite filter_app, length_app.
    rewrite (length_filter_False _ (_ <$> new)); [lia|].
    intros e (c & -> & _)%list_elem_of_fmap.
    unfold b, depth_class in *. cbn in *. lia. }
  apply (lex_lt_pointwise _ _ b); [unfold b, depth_class; cbn; lia| |].
  - intros i Hi. rewrite Hhead, decide_False by lia. cbn.
    destruct Hq' as [->|(Hd & new & ->)]; [done|]. apply Hnew; lia.
  - rewrite Hhead, decide_True by done.
    destruct Hq' as [->|(Hd & new & ->)]; [lia|]. rewrite Hnew; lia.
Qed.

(** The loop exits from every state: some amount of fuel suffices. *)
Lemma crawl_loop_terminates rp origin st :
  ∃ fuel, is_Some (crawl_loop fuel rp origin st).
Proof.
  remember (class_sizes st.(q)) as sizes eqn:Hsizes. revert st Hsizes.
  induction (lex_lt_wf sizes) as [sizes _ IH]. intros st ->.
  destruct (loop_cond st) eqn:Hcond.
  - destruct (loop_body rp origin st) as [st'|st'] eqn:Hbody.
    + destruct (IH (class_sizes st'.(q))
                  (class_sizes_decrease rp origin st st' Hcond Hbody) st' eq_refl)
        as [fuel Hfuel].
      exists (S fuel). cbn. by rewrite Hcond, Hbody.
    + exists 1%nat. cbn. by rewrite Hcond, Hbody.
  - exists 0%nat. cbn. by rewrite Hcond.
Qed.

(** More fuel does not change the result. *)
Lemma crawl_loop_fuel_mono rp origin fuel fuel' st r :
  (fuel ≤ fuel')%nat →
  crawl_loop fuel rp origin st = Some r → crawl_loop fuel' rp origin st = Some r.
Proof.
  revert fuel' st. induction fuel as [|fuel IH]; intros fuel' st Hle; cbn.
  - destruct (loop_cond st) eqn:Hcond; [done|]. intros <-.
    destruct fuel'; cbn; by rewrite Hcond.
  - destruct (loop_cond st) eqn:Hcond.
    + destruct fuel' as [|fuel']; [lia|]. cbn. rewrite Hcond.
      destruct (loop_body rp origin st); [|done]. apply IH. lia.
    + intros <-. destruct fuel'; cbn; by rewrite Hcond.
Qed.

(** Unless an exception escapes before the loop, [crawl] returns. *)
Lemma crawl_terminates :
  is_Some crawl_init → ∃ fuel, is_Some (crawl fuel).
Proof.
  unfold crawl. intros [[[rp origin] st0] Hinit]. rewrite Hinit. cbn.
  destruct (crawl_loop_terminates rp origin st0) as (fuel & [st crit] & Hloop).
  exists fuel. rewrite Hloop. cbn.
  unfold crawl_init in Hinit. by destruct (urlparse (BASE_URL cfg)).
Qed.

(** *** The scope tests in the order of the specification *)

Inductive Rejection := CrossOrigin | DepthExceeded | Duplicate.

(** The scope filter as the specification words it: reject when the origin
    differs from the seed's, or the depth exceeds the maximum, or the URL is
    visited, tested in this order. [None] when the origin test raises. *)
Definition spec_rejection (st : State) (u : string) (d : nat)
    : option (option Rejection) :=
  same ← same_origin cfg.(BASE_URL) u;
  Some (if negb same then Some CrossOrigin
        else if decide (cfg.(MAX_DEPTH) < d)%nat then Some DepthExceeded
        else if decide (u ∈ st.(visited)) then Some Duplicate
        else None).

(** The reason the loop logs when it skips an entry. *)
Definition logged_rejection (ev : LogEvent) : option Rejection :=
  match ev with
  | LogSkipDepth _ => Some DepthExceeded
  | LogSkipOrigin _ => Some CrossOrigin
  | LogSkipDuplicate _ => Some Duplicate
  | _ => None
  end.

(** *** The claims about the main loop *)

(** C1. In every completed crawl the URLs of the page records are pairwise
    distinct and every recorded URL is in the visited set: the record of a
    URL is written together with its insertion into the visited set, and an
    iteration whose dequeued URL is already visited writes no record and
    leaves the visited set as it is, however often the URL sits in the
    queue. *)
Theorem page_urls_unique fuel out :
  crawl fuel = Some out →
  NoDup (url <$> out.(final).(pages_fp)) ∧
  (∀ rec, rec ∈ out.(final).(pages_fp) → rec.(url) ∈ out.(final).(visited)) ∧
  (∀ rp origin st u parent d q',
     st.(q) = (u, parent, d) :: q' → u ∈ st.(visited) →
     (result_state (loop_body rp origin st)).(pages_fp) = st.(pages_fp) ∧
     (result_state (loop_body rp origin st)).(visited) = st.(visited)).
Proof.
  intros (rp & origin & sm_urls & Hloop)%crawl_Some.
  assert (pages_unique out.(final)) as [Hnd Hvis].
  { eapply (crawl_loop_invariant pages_unique);
      [apply pages_unique_step|apply initial_state_pages|exact Hloop]. }
  split_and!; [done..|].
  intros rp' origin' st u parent d q' Hq Hin.
  by apply (loop_body_effect rp' origin' st u parent d q' Hq).
Qed.

(** C10. With a configured maximum [m], a completed crawl has written at
    most [m] page records of any kind: the page counter that the loop
    condition compares with the maximum is the number of records in the page
    file, the placeholder records of blocked URLs included. *)
Theorem page_records_bounded fuel out m :
  cfg.(MAX_PAGES) = Some m →
  crawl fuel = Some out →
  (length out.(final).(pages_fp) ≤ m)%nat ∧
  out.(final).(pages_count) = length out.(final).(pages_fp).
Proof.
  intros Hm (rp & origin & sm_urls & Hloop)%crawl_Some.
  assert (pages_counted out.(final)) as [Hlen Hmax].
  { eapply (crawl_loop_invariant pages_counted);
      [apply pages_counted_step|apply initial_state_pages|exact Hloop]. }
  split; [|done]. rewrite <-Hlen. by apply Hmax.
Qed.

(** C2, amended. When an eligible entry is fetched and answers with an HTML
    document, the iteration writes one edge record for each occurrence, among
    the links kept from the document, of a target that is not in the visited
    set (which by then contains the URL of the page itself), in document
    order, and appends exactly these targets to the queue at the next depth;
    for a target that is already visited it writes no edge. *)
Theorem edges_only_for_unvisited_targets
    rp origin st u parent d q' resp links :
  st.(q) = (u, parent, d) :: q' →
  (d ≤ cfg.(MAX_DEPTH))%nat →
  same_origin cfg.(BASE_URL) u = Some true →
  u ∉ st.(visited) →
  (cfg.(OBEY_ROBOTS) = true →
   rp_can_fetch rp cfg.(USER_AGENT) u ≠ Some false) →
  session_get st.(requests) u = Got resp →
  is_html_response resp = true →
  resp.(resp_text) ≠ "" →
  collect_links origin resp.(resp_url)
    (BeautifulSoup resp.(resp_text)).(find_all_a_href) = Some links →
  let new := filter (λ child, child ∉ {[u]} ∪ st.(visited)) links in
  ∃ st',
    loop_body rp origin st = Next st' ∧
    st'.(edges_fp)
      = st.(edges_fp) ++ ((λ child, {| source := u; target := child |}) <$> new) ∧
    st'.(q) = q' ++ ((λ child, (child, Some u, S d)) <$> new).
Proof.
  intros Hq Hd Hso Hnin Hrob Hget Hhtml Htext Hlinks. cbv zeta.
  destruct (loop_body_fetches rp origin st u parent d q')
    as (st2 & -> & Hq2 & Hv2 & _ & He2 & _ & Hr2); [done..|].
  unfold fetch_page. rewrite Hr2, Hget, Hhtml, bool_decide_eq_true_2 by done.
  cbn [andb]. destruct (extract_meta _) as [t m]. rewrite Hlinks.
  match goal with |- context [finish_page ?u ?p ?d ?sc ?t ?m ?c ?l ?s] =>
    destruct (finish_page_Next u p d sc t m c l s)
      as (st' & -> & _ & _ & Hq' & He' & _)
  end; [by eapply same_origin_Some_parse|].
  exists st'. split; [done|]. cbn in Hq', He'.
  by rewrite Hq', He', Hq2, Hv2, He2.
Qed.

(** C5. When the request for an eligible entry raises a request exception,
    the iteration completes normally: it appends one error record with the
    URL and the message, one page record with no status code and the
    placeholder title and description, marks the URL visited, enqueues
    nothing, and the loop goes on from the rest of the queue: it runs on
    from the state after the iteration and exits, with the result of the
    loop run from there. *)
Theorem request_exception_recorded rp origin st u parent d q' e :
  st.(q) = (u, parent, d) :: q' →
  (d ≤ cfg.(MAX_DEPTH))%nat →
  same_origin cfg.(BASE_URL) u = Some true →
  u ∉ st.(visited) →
  (cfg.(OBEY_ROBOTS) = true →
   rp_can_fetch rp cfg.(USER_AGENT) u ≠ Some false) →
  session_get st.(requests) u = RequestException e →
  ∃ st',
    loop_body rp origin st = Next st' ∧
    st'.(errors_fp) = st.(errors_fp) ++ [{| error_url := u; error := e |}] ∧
    st'.(pages_fp)
      = st.(pages_fp) ++ [{| url := u; status_code := None;
                             title := "SIN_TITULO";
                             meta_description := "SIN_DESCRIPCION";
                             canonical := None; parent_url := parent;
                             depth := d |}] ∧
    st'.(visited) = {[u]} ∪ st.(visited) ∧
    st'.(q) = q' ∧
    st'.(edges_fp) = st.(edges_fp) ∧
    (loop_cond st = true →
     (∀ fuel, crawl_loop (S fuel) rp origin st = crawl_loop fuel rp origin st') ∧
     ∃ fuel r,
       crawl_loop fuel rp origin st' = Some r ∧
       crawl_loop (S fuel) rp origin st = Some r).
Proof.
  intros Hq Hd Hso Hnin Hrob Hget.
  destruct (loop_body_fetches rp origin st u parent d q')
    as (st2 & Hbody & Hq2 & Hv2 & Hp2 & He2 & Her2 & Hr2); [done..|].
  unfold fetch_page in Hbody. rewrite Hr2, Hget in Hbody.
  match type of Hbody with context [finish_page ?u ?p ?d ?sc ?t ?m ?c ?l ?s] =>
    destruct (finish_page_Next u p d sc t m c l s)
      as (st' & Hfin & Hp' & Hv' & Hq' & He' & Her')
  end; [by eapply same_origin_Some_parse|].
  rewrite Hfin in Hbody. exists st'. cbn in Hp', Hv', Hq', He', Her'.
  rewrite app_nil_r in Hq', He'.
  split_and!; [done|congruence..|].
  intros Hcond.
  assert (Hnext : ∀ fuel,
    crawl_loop (S fuel) rp origin st = crawl_loop fuel rp origin st').
  { intros fuel. cbn. by rewrite Hcond, Hbody. }
  split; [done|].
  destruct (crawl_loop_terminates rp origin st') as (fuel & r & Hr).
  exists fuel, r. split; [done|]. by rewrite Hnext.
Qed.

(** C9, amended. The loop tests a dequeued entry in the order: depth above
    the maximum, then another origin than the seed's, then membership in the
    visited set. An entry that fails a test is skipped with the log message
    of that test, whatever the later tests would say (a too deep entry is
    skipped even when its URL cannot be parsed), and the skip changes nothing
    but the queue, which loses the entry, and the log. *)
Theorem scope_tests_in_order rp origin st u parent d q' :
  st.(q) = (u, parent, d) :: q' →
  let st1 := log (LogDequeued u) (set_q q' st) in
  ((cfg.(MAX_DEPTH) < d)%nat →
   loop_body rp origin st = Next (log (LogSkipDepth u) st1)) ∧
  ((d ≤ cfg.(MAX_DEPTH))%nat →
   same_origin cfg.(BASE_URL) u = Some false →
   loop_body rp origin st = Next (log (LogSkipOrigin u) st1)) ∧
  ((d ≤ cfg.(MAX_DEPTH))%nat →
   same_origin cfg.(BASE_URL) u = Some true →
   u ∈ st.(visited) →
   loop_body rp origin st = Next (log (LogSkipDuplicate u) st1)).
Proof.
  intros Hq. cbv zeta. unfold loop_body. rewrite Hq. split_and!.
  - intros Hd. by rewrite decide_True.
  - intros Hd ->. by rewrite decide_False by lia.
  - intros Hd -> Hin. rewrite decide_False by lia. by rewrite decide_True.
Qed.

End crawl.
End Crawler.

(** ** The robots parser of the Python standard library

    A model of [urllib.robotparser.RobotFileParser] as far as [read] and
    [can_fetch] go. The parser starts with [disallow_all = allow_all = False]
    and [last_checked = 0]. [read] opens the URL: an [HTTPError] with code
    401 or 403 sets [disallow_all], another code from 400 to 499 sets
    [allow_all], every other exception propagates to the caller; a body that
    was read is parsed, which sets [last_checked]. [can_fetch] answers
    [False] when [disallow_all], [True] when [allow_all], [False] as long as
    [last_checked] is 0, and otherwise what the parsed rules say. *)

Module RobotParser.

Record t := {
  disallow_all : bool;
  allow_all : bool;
  last_checked : Z;
  (** the answer of the parsed entries for a user agent and a URL *)
  rules : string → string → bool;
}.

Definition new : t :=
  {| disallow_all := false; allow_all := false; last_checked := 0;
     rules := λ _ _, true |}.

(** What opening the robots URL gives. *)
Inductive urlopen_result :=
  | UrlError
  | HttpError (code : Z)
  | Body (now : Z) (parsed : string → string → bool).

(** [rp.read()]: the parser afterwards and whether an exception
    propagated. *)
Definition read (r : urlopen_result) (rp : t) : t * bool :=
  match r with
  | UrlError => (rp, true)
  | HttpError code =>
      if bool_decide (code = 401 ∨ code = 403) then
        ({| disallow_all := true; allow_all := rp.(allow_all);
            last_checked := rp.(last_checked); rules := rp.(rules) |}, false)
      else if bool_decide (400 ≤ code < 500) then
        ({| disallow_all := rp.(disallow_all); allow_all := true;
            last_checked := rp.(last_checked); rules := rp.(rules) |}, false)
      else (rp, false)
  | Body now parsed =>
      ({| disallow_all := rp.(disallow_all); allow_all := rp.(allow_all);
          last_checked := now; rules := parsed |}, false)
  end.

(** [rp.can_fetch(useragent, url)] *)
Definition can_fetch (rp : t) (useragent url : string) : bool :=
  if rp.(disallow_all) then false
  else if rp.(allow_all) then true
  else if bool_decide (rp.(last_checked) = 0) then false
  else rp.(rules) useragent url.

(** A parser whose [read] raised has not been marked as read, and answers
    [False] for every URL. *)
Lemma can_fetch_unread useragent url :
  (read UrlError new).2 = true ∧
  can_fetch (read UrlError new).1 useragent url = false.
Proof. done. Qed.

(** The library instance for a site whose robots URL answers [r]. *)
Definition lib (r : urlopen_result) : RobotsLib :=
  {| RobotFileParser := t;
     rp_new := new;
     rp_read := λ _ rp, read r rp;
     rp_can_fetch := λ rp useragent url, Some (can_fetch rp useragent url) |}.

End RobotParser.

(** ** The crawler with the standard robots parser *)

Module RobotsPolicy.
Import Crawler.

Section robots_policy.
Context {strlib : StrLib} {urllib : UrlLib} {http : Http} {htmllib : Html}.
Variable cfg : Config.

(** The robots URL could not be read: [urlopen] raised, or answered with a
    server error, which [read] neither reports nor records. *)
Definition read_failed (r : RobotParser.urlopen_result) : Prop :=
  r = RobotParser.UrlError ∨
  ∃ code, r = RobotParser.HttpError code ∧ ¬ (400 ≤ code < 500).

(** With robots compliance on and a robots URL that could not be read, every
    entry that passes the scope tests is blocked: it is marked visited and,
    when blocked URLs are recorded, gets a placeholder record; it is not
    requested. *)
Lemma read_failure_blocks_every_url r robots_url origin st u parent d q' :
  read_failed r →
  cfg.(OBEY_ROBOTS) = true →
  st.(q) = (u, parent, d) :: q' →
  (d ≤ cfg.(MAX_DEPTH))%nat →
  same_origin cfg.(BASE_URL) u = Some true →
  u ∉ st.(visited) →
  let st1 := visited_add u (log (LogRobotsBlocked u)
                              (log (LogDequeued u) (set_q q' st))) in
  loop_body (robots := RobotParser.lib r) cfg
    (robots_setup (robots := RobotParser.lib r) cfg robots_url) origin st
  = Next (if cfg.(RECORD_BLOCKED_URLS)
          then write_page {| url := u; status_code := None;
                             title := "BLOQUEADA_POR_ROBOTS";
                             meta_description := "BLOQUEADA_POR_ROBOTS";
                             canonical := None; parent_url := parent;
                             depth := d |} st1
          else st1).
Proof.
  intros Hr Hobey Hq Hd Hso Hnin. cbv zeta.
  unfold loop_body, robots_setup. rewrite Hq, Hso, Hobey.
  rewrite decide_False by lia. rewrite decide_False by done.
  assert (RobotParser.can_fetch (RobotParser.read r RobotParser.new).1
            (USER_AGENT cfg) u = false) as Hcf.
  { destruct Hr as [->|(code & -> & Hcode)]; [done|].
    unfold RobotParser.read.
    destruct (bool_decide (code = 401 ∨ code = 403)) eqn:H4; [done|].
    by rewrite bool_decide_eq_false_2. }
  cbn. rewrite Hcf. by destruct (RECORD_BLOCKED_URLS cfg).
Qed.

(** The loop itself fails open only when the permission check raises: the
    entry is then requested like an allowed one. *)
Lemma can_fetch_exception_fails_open {robots : RobotsLib}
    rp origin st u parent d q' :
  cfg.(OBEY_ROBOTS) = true →
  st.(q) = (u, parent, d) :: q' →
  (d ≤ cfg.(MAX_DEPTH))%nat →
  same_origin cfg.(BASE_URL) u = Some true →
  u ∉ st.(visited) →
  rp_can_fetch rp cfg.(USER_AGENT) u = None →
  loop_body cfg rp origin st
  = fetch_page origin u parent d
      (log (LogRobotsError u) (log (LogDequeued u) (set_q q' st))).
Proof.
  intros Hobey Hq Hd Hso Hnin Hcf.
  unfold loop_body. rewrite Hq, Hso, Hobey, Hcf.
  rewrite decide_False by lia. by rewrite decide_False.
Qed.

End robots_policy.
End RobotsPolicy.

(** ** A small world for running the crawler

    Instances of the library interfaces that cover the URLs and documents of
    the examples: ASCII string operations, URLs of the shape
    [scheme://netloc/path?query#fragment], and documents whose text is the
    list of their anchors separated by blanks. *)

Module World.

Fixpoint lstrip (s : string) : string :=
  match s with
  | String c s' => if Ascii.is_space c then lstrip s' else s
  | EmptyString => EmptyString
  end.

Definition strip (s : string) : string :=
  String.rev (lstrip (String.rev (lstrip s))).

Fixpoint replace_go (old new : string) (skip : nat) (s : string) : string :=
  match s with
  | EmptyString => EmptyString
  | String c s' =>
      match skip with
      | S k => replace_go old new k s'
      | O =>
          if String.prefix old s
          then new +:+ replace_go old new (String.length old - 1) s'
          else String c (replace_go old new 0 s')
      end
  end.

Definition splitlines (s : string) : list string :=
  match reverse (split_on "010" s) with
  | EmptyString :: rest => reverse rest
  | _ => split_on "010" s
  end.

Definition lower_ascii (c : ascii) : ascii :=
  let n := N_of_ascii c in
  if bool_decide (65 ≤ n ≤ 90)%N then ascii_of_N (n + 32) else c.

Fixpoint lower (s : string) : string :=
  match s with
  | EmptyString => EmptyString
  | String c s' => String (lower_ascii c) (lower s')
  end.

Example lower_ex : lower "Text/HTML; charset=UTF-8" = "text/html; charset=utf-8".
Proof. reflexivity. Qed.

#[export] Instance str_lib : StrLib :=
  {| str_strip := strip;
     str_lower := lower;
     str_splitlines := splitlines;
     str_replace := λ s old new, replace_go old new 0 s |}.

(** The text before the first occurrence of ["://"] and the text after it. *)
Fixpoint cut_scheme (s : string) : option (string * string) :=
  if String.prefix "://" s then Some (EmptyString, String.substring 3 (String.length s - 3) s)
  else match s with
       | EmptyString => None
       | String c s' => '(a, b) ← cut_scheme s'; Some (String c a, b)
       end.

(** The text before the first character that satisfies [stop], and the
    rest. *)
Fixpoint take_until (stop : ascii → bool) (s : string) : string * string :=
  match s with
  | EmptyString => (EmptyString, EmptyString)
  | String c s' =>
      if stop c then (EmptyString, s)
      else let '(a, b) := take_until stop s' in (String c a, b)
  end.

Definition is_one_of (cs : list ascii) (c : ascii) : bool :=
  bool_decide (c ∈ cs).

(** A network location with an unmatched bracket makes the parser raise. *)
Definition parse (u : string) : option ParseResult :=
  match cut_scheme u with
  | Some (sch, rest) =>
      let '(loc, rest) := take_until (is_one_of ["/"; "?"; "#"]%char) rest in
      let '(pth, _) := take_until (is_one_of ["?"; "#"]%char) rest in
      if str_contains "[" loc && negb (str_contains "]" loc) then None
      else Some {| scheme := sch; netloc := loc; path := pth |}
  | None =>
      let '(pth, _) := take_until (is_one_of ["?"; "#"]%char) u in
      Some {| scheme := EmptyString; netloc := EmptyString; path := pth |}
  end.

Definition join (base href : string) : option string :=
  match cut_scheme href with
  | Some _ => pr ← parse href; Some href
  | None =>
      pb ← parse base;
      let root := pb.(scheme) +:+ "://" +:+ pb.(netloc) in
      if String.prefix "/" href then Some (root +:+ href)
      else Some (root +:+ "/" +:+ href)
  end.

#[export] Instance url_lib : UrlLib :=
  {| urlparse := parse;
     urljoin := join;
     urldefrag := λ u, Some (take_until (is_one_of ["#"]%char) u).1 |}.

#[export] Instance html : Html :=
  {| BeautifulSoup := λ text,
       {| soup_title_string := None;
          find_meta_name_description := None;
          find_meta_og_description := None;
          find_meta_name_Description := None;
          find_link_canonical := None;
          find_all_a_href := String.words text |} |}.

Definition html_page (u anchors : string) : get_result :=
  Got {| resp_status_code := 200; resp_content_type := Some "text/html";
         resp_url := u; resp_text := anchors |}.

Example parse_ex :
  parse "https://example.com/personas/a?x=1#top"
  = Some {| scheme := "https"; netloc := "example.com"; path := "/personas/a" |}.
Proof. reflexivity. Qed.

Example join_ex :
  join "https://example.com/personas" "/personas/a"
  = Some "https://example.com/personas/a".
Proof. reflexivity. Qed.

End World.

(** ** Runs of the crawler on small sites *)

Module Scenarios.
Import World Crawler.

Definition seed : string := "https://example.com/personas".
Definition page_a : string := "https://example.com/personas/a".

Definition config (max_pages : option nat) (max_depth : nat)
    (obey_robots : bool) : Config :=
  {| BASE_URL := seed; MAX_PAGES := max_pages; MAX_DEPTH := max_depth;
     OBEY_ROBOTS := obey_robots; USE_SITEMAP := true;
     SITEMAP_URLS := ["https://example.com/sitemap.xml"];
     RECORD_BLOCKED_URLS := true; USER_AGENT := "Mozilla/5.0" |}.

Definition nl : string := String "010" EmptyString.

(** A site of two pages that link to each other; the seed also links to
    another origin. Its sitemap lists the second page twice and a URL
    outside the prefix. *)
Definition two_pages : Http :=
  {| requests_get := λ _ _,
       Got {| resp_status_code := 200; resp_content_type := Some "text/xml";
              resp_url := "https://example.com/sitemap.xml";
              resp_text :=
                "<urlset>" +:+ nl
                +:+ "  <loc>https://example.com/personas/a</loc>" +:+ nl
                +:+ "  <loc>https://example.com/empresas</loc>" +:+ nl
                +:+ "  <loc>https://example.com/personas/a</loc>" +:+ nl
                +:+ "</urlset>" |};
     session_get := λ _ u,
       if decide (u = seed)
       then html_page u "/personas/a https://other.com/x"
       else if decide (u = page_a) then html_page u "/personas#top"
       else OtherException |}.

(** The same site when every request times out. *)
Definition all_timeouts : Http :=
  {| requests_get := λ _ _, RequestException "timeout";
     session_get := λ _ _, RequestException "timeout" |}.

(** A robots URL that answers with rules that allow everything. *)
Definition robots_ok : RobotsLib :=
  RobotParser.lib (RobotParser.Body 1 (λ _ _, true)).

(** A robots URL that cannot be reached. *)
Definition robots_unreachable : RobotsLib :=
  RobotParser.lib RobotParser.UrlError.

Definition crawl_two_pages (max_pages : option nat) : option Output :=
  crawl (http := two_pages) (robots := robots_ok) (config max_pages 8 false) 20.

Example sitemap_ex :
  fetch_sitemap_urls (http := two_pages) (config None 8 false)
    "https://example.com" "https://example.com/personas"
  = ["https://example.com/personas/a"].
Proof. vm_compute. reflexivity. Qed.

Example crawl_two_pages_ex :
  (λ out, (url <$> out.(final).(pages_fp), out.(final).(edges_fp),
           out.(critical), out.(d3tree)))
    <$> crawl_two_pages None
  = Some ([seed; page_a],
          [{| source := seed; target := page_a |}],
          false,
          Hierarchy.D3Node "example.com"
            [Hierarchy.D3Node "personas" [Hierarchy.D3Leaf "a" 1]]).
Proof. vm_compute. reflexivity. Qed.

Definition page_record (u : string) (parent : option string) (d : nat)
    (sc : option Z) (t m : string) : PageRecord :=
  {| url := u; status_code := sc; title := t; meta_description := m;
     canonical := None; parent_url := parent; depth := d |}.

Lemma page_urls_unique_witness :
  ∃ out, crawl_two_pages None = Some out ∧
         NoDup (url <$> out.(final).(pages_fp)).
Proof.
  destruct (crawl_two_pages None) as [out|] eqn:Hout;
    [|by vm_compute in Hout].
  exists out. split; [done|].
  exact (proj1 (page_urls_unique (http := two_pages) (robots := robots_ok)
                  (config None 8 false) 20 out Hout)).
Defined.

Lemma page_records_bounded_witness :
  ∃ out, crawl_two_pages (Some 1%nat) = Some out ∧
         (length out.(final).(pages_fp) ≤ 1)%nat.
Proof.
  destruct (crawl_two_pages (Some 1%nat)) as [out|] eqn:Hout;
    [|by vm_compute in Hout].
  exists out. split; [done|].
  exact (proj1 (page_records_bounded (http := two_pages) (robots := robots_ok)
                  (config (Some 1%nat) 8 false) 20 out 1 eq_refl Hout)).
Defined.

(** The state in which the loop is entered when the sitemap gave nothing. *)
Definition st0 (cfg : Config) : State := initial_state cfg [].

Lemma request_exception_recorded_witness :
  ∃ st',
    loop_body (http := all_timeouts) (robots := robots_ok)
      (config None 8 false) RobotParser.new "https://example.com"
      (st0 (config None 8 false)) = Next st' ∧
    st'.(errors_fp) = [{| error_url := seed; error := "timeout" |}] ∧
    st'.(pages_fp)
      = [page_record seed None 0 None "SIN_TITULO" "SIN_DESCRIPCION"] ∧
    st'.(q) = [] ∧
    ∃ fuel r,
      crawl_loop (http := all_timeouts) (robots := robots_ok)
        (config None 8 false) fuel RobotParser.new "https://example.com" st'
      = Some r ∧
      crawl_loop (http := all_timeouts) (robots := robots_ok)
        (config None 8 false) (S fuel) RobotParser.new "https://example.com"
        (st0 (config None 8 false))
      = Some r.
Proof.
  destruct (request_exception_recorded
              (http := all_timeouts) (robots := robots_ok)
              (config None 8 false) RobotParser.new "https://example.com"
              (st0 (config None 8 false)) seed None 0 [] "timeout")
    as (st' & Hbody & He & Hp & _ & Hq & _ & Hloop).
  - reflexivity.
  - cbn. lia.
  - reflexivity.
  - apply not_elem_of_empty.
  - intros [=].
  - reflexivity.
  - destruct (Hloop eq_refl) as (_ & fuel & r & Hr' & Hr).
    exists st'. split_and!; [done..|]. by exists fuel, r.
Defined.

Lemma edges_only_for_unvisited_targets_witness :
  ∃ st',
    loop_body (http := two_pages) (robots := robots_ok)
      (config None 8 false) RobotParser.new "https://example.com"
      (st0 (config None 8 false)) = Next st' ∧
    st'.(edges_fp) = [{| source := seed; target := page_a |}] ∧
    st'.(q) = [(page_a, Some seed, 1%nat)].
Proof.
  destruct (edges_only_for_unvisited_targets
              (http := two_pages) (robots := robots_ok)
              (config None 8 false) RobotParser.new "https://example.com"
              (st0 (config None 8 false)) seed None 0 []
              {| resp_status_code := 200;
                 resp_content_type := Some "text/html";
                 resp_url := seed;
                 resp_text := "/personas/a https://other.com/x" |}
              [page_a])
    as (st' & Hbody & He & Hq).
  - reflexivity.
  - cbn. lia.
  - reflexivity.
  - apply not_elem_of_empty.
  - intros [=].
  - reflexivity.
  - reflexivity.
  - done.
  - reflexivity.
  - exists st'. split; [done|]. rewrite He, Hq. by vm_compute.
Defined.

(** C2, counterexample. The second page is fetched as HTML and its only
    anchor resolves to the seed, which is visited by then: the page record
    is written, the edge from the second page to the seed is not. *)
Lemma edge_to_visited_target_missing :
  collect_links "https://example.com" page_a
    (BeautifulSoup "/personas#top").(find_all_a_href) = Some [seed] ∧
  (λ out,
     (bool_decide
        (page_record page_a (Some seed) 1 (Some 200)
           "SIN_TITULO" "SIN_DESCRIPCION" ∈ out.(final).(pages_fp)),
      bool_decide
        ({| source := page_a; target := seed |} ∈ out.(final).(edges_fp))))
    <$> crawl_two_pages None
  = Some (true, false).
Proof. split; by vm_compute. Qed.

(** A crawl of the root of the site, one level deep. *)
Definition root : string := "https://example.com".

Definition shallow : Config :=
  {| BASE_URL := root; MAX_PAGES := None; MAX_DEPTH := 0;
     OBEY_ROBOTS := false; USE_SITEMAP := true;
     SITEMAP_URLS := ["https://example.com/sitemap.xml"];
     RECORD_BLOCKED_URLS := true; USER_AGENT := "Mozilla/5.0" |}.

(** Two locations that start with the prefix [https://example.com] of that
    crawl: one of another host, and one that [urlparse] rejects. *)
Definition lookalike : string := "https://example.com.evil.org/x".
Definition unparsable : string := "https://example.com[/x".

(** A site whose sitemap lists the two locations and whose root page has no
    anchors. *)
Definition lookalike_site : Http :=
  {| requests_get := λ _ _,
       Got {| resp_status_code := 200; resp_content_type := Some "text/xml";
              resp_url := "https://example.com/sitemap.xml";
              resp_text :=
                "<urlset>" +:+ nl
                +:+ "  <loc>https://example.com.evil.org/x</loc>" +:+ nl
                +:+ "  <loc>https://example.com[/x</loc>" +:+ nl
                +:+ "</urlset>" |};
     session_get := λ _ u,
       if decide (u = root) then html_page u "" else OtherException |}.

Definition crawl_lookalike : option Output :=
  crawl (http := lookalike_site) (robots := robots_ok) shallow 20.

(** The state in which that crawl enters its loop: the root and the two
    sitemap locations at depth 1. *)
Definition lookalike_start : State := initial_state shallow [lookalike; unparsable].

(** The state after its first iteration, which fetches the root. *)
Definition lookalike_fetched : State :=
  result_state
    (loop_body (http := lookalike_site) (robots := robots_ok) shallow
       RobotParser.new root lookalike_start).

(** The skips that a crawl logged, in order. *)
Definition skips (out : Output) : list LogEvent :=
  filter (λ ev, is_Some (logged_rejection ev)) out.(final).(logger).

(** C9, counterexample. The crawl of the root with maximum depth 0 takes
    two locations from the sitemap, at depth 1: one of another origin and
    one that does not parse. It skips both for their depth and ends
    normally, with the root as its only page. The order of the specification
    gives the origin as the reason for the first, and for the second makes
    the origin test, which raises. *)
Lemma depth_tested_before_origin :
  (λ out, (skips out, url <$> out.(final).(pages_fp), out.(critical)))
    <$> crawl_lookalike
  = Some ([LogSkipDepth lookalike; LogSkipDepth unparsable], [root], false) ∧
  spec_rejection shallow lookalike_fetched lookalike 1
    = Some (Some CrossOrigin) ∧
  spec_rejection shallow lookalike_fetched unparsable 1 = None.
Proof. split_and!; by vm_compute. Qed.

Lemma scope_tests_in_order_witness :
  crawl_init (http := lookalike_site) (robots := robots_ok) shallow
    = Some (RobotParser.new, root, lookalike_start) ∧
  loop_body (http := lookalike_site) (robots := robots_ok) shallow
    RobotParser.new root lookalike_start = Next lookalike_fetched ∧
  loop_body (http := lookalike_site) (robots := robots_ok) shallow
    RobotParser.new root lookalike_fetched
  = Next (log (LogSkipDepth lookalike)
            (log (LogDequeued lookalike)
               (set_q [(unparsable, Some root, 1%nat)] lookalike_fetched))).
Proof.
  split; [by vm_compute|]. split; [by vm_compute|].
  apply (scope_tests_in_order (http := lookalike_site) (robots := robots_ok)
           shallow RobotParser.new root lookalike_fetched
           lookalike (Some root) 1 [(unparsable, Some root, 1%nat)]).
  - by vm_compute.
  - cbn. lia.
Defined.

(** C4, at the failing input. Robots compliance is on and the robots URL
    cannot be reached, so [read] raises and the exception is logged. The
    parser has then not been read, [can_fetch] answers [False] for every URL,
    and the crawl blocks the seed and the sitemap URL: it writes their
    placeholder records and makes no request. *)
Lemma robots_read_failure_blocks :
  (λ out, (out.(final).(pages_fp), out.(final).(requests), out.(critical)))
    <$> crawl (http := two_pages) (robots := robots_unreachable)
          (config None 8 true) 20
  = Some ([page_record seed None 0 None
             "BLOQUEADA_POR_ROBOTS" "BLOQUEADA_POR_ROBOTS";
           page_record page_a (Some seed) 1 None
             "BLOQUEADA_POR_ROBOTS" "BLOQUEADA_POR_ROBOTS"],
          0%nat, false).
Proof. by vm_compute. Qed.

End Scenarios.

(** ** More about the hierarchy builder *)

Module HierarchyFacts.
Import Hierarchy.

(** A path segment as [crawl] produces it: not empty and without a slash. *)
Definition plain_segment (seg : string) : Prop :=
  seg ≠ "" ∧ str_contains "/" seg = false.

Lemma split_on_no_sep sep s seg :
  seg ∈ split_on sep s → str_contains (String sep "") seg = false.
Proof.
  revert seg. induction s as [|c s IH]; intros seg; cbn.
  { by intros ->%list_elem_of_singleton. }
  destruct (decide (c = sep)) as [->|Hne].
  - intros [->|Hin]%elem_of_cons; [done|by apply IH].
  - destruct (split_on sep s) as [|seg0 segs] eqn:Hsplit.
    + intros ->%list_elem_of_singleton. cbn.
      by destruct (ascii_dec sep c) as [->|].
    + intros [->|Hin]%elem_of_cons.
      * cbn. destruct (ascii_dec sep c) as [->|]; [done|]. cbn.
        apply IH. left.
      * apply IH. by right.
Qed.

(** The segments kept from a path are plain. *)
Lemma path_segments_plain pth seg :
  seg ∈ filter (λ seg, seg ≠ "") (split_on "/" pth) → plain_segment seg.
Proof.
  intros [Hne Hin]%list_elem_of_filter. split; [done|].
  by apply (split_on_no_sep "/" pth).
Qed.

(** Every key, at every level of the accumulator, satisfies [P]. *)
Inductive keys_ok (P : string → Prop) : node → Prop :=
  keys_ok_Node count children :
    Forall (λ kv, P kv.1 ∧ keys_ok P kv.2) (default [] children) →
    keys_ok P (Node count children).

Lemma keys_ok_children P n k c :
  keys_ok P n → Dict.get k (children_of n) = Some c → P k ∧ keys_ok P c.
Proof.
  intros [count children Hall] Hget. apply Dict.get_Some_elem_of in Hget.
  by apply (proj1 (Forall_forall _ _) Hall (k, c)).
Qed.

Lemma Forall_dict_set_key (P : string * node → Prop) k v (d : Dict.t node) :
  P (k, v) → Forall P d → Forall P (Dict.set k v d).
Proof.
  intros Hv. induction 1 as [|[k' v'] d Hkv Hd IH]; cbn.
  - by repeat constructor.
  - case_decide as Hk; [subst k'|]; constructor; auto.
Qed.

Lemma keys_ok_insert_path P n p :
  keys_ok P n → Forall P (clean p) → keys_ok P (insert_path n p).
Proof.
  revert n. induction p as [|seg p IH]; intros n Hn Hp; [done|].
  cbn [insert_path]. unfold clean in Hp. rewrite filter_cons in Hp.
  destruct (decide (seg = "")) as [->|Hseg].
  { rewrite decide_False in Hp by (intros Hne; by apply Hne). by apply IH. }
  rewrite decide_True in Hp by done. apply Forall_cons in Hp as [Hseg' Hp].
  cbn zeta. fold (children_of n). constructor. cbn.
  apply Forall_dict_set_key; [|by destruct Hn]. cbn. split; [done|].
  apply IH; [|done].
  destruct (Dict.get seg (children_of n)) as [c|] eqn:Hget; cbn.
  - destruct (keys_ok_children P n seg c Hn Hget) as [_ Hc].
    by destruct Hc; constructor.
  - by repeat constructor.
Qed.

(** Every node of a rendered tree other than its root has a name that
    satisfies [P]. *)
Inductive d3_names (P : string → Prop) : d3 → Prop :=
  | d3_names_leaf name value : d3_names P (D3Leaf name value)
  | d3_names_node name children :
      Forall (λ c, P (d3_name c) ∧ d3_names P c) children →
      d3_names P (D3Node name children).

Lemma hierarchy_to_d3_names P n name :
  keys_ok P n → d3_names P (hierarchy_to_d3 n name).
Proof.
  revert name. induction n as [count ch IH] using node_ind'. intros name Hok.
  rewrite hierarchy_to_d3_unfold. cbn zeta.
  set (n := Node count ch) in *.
  change (default [] ch) with (children_of n) in IH.
  case_decide; constructor.
  apply Forall_fmap, Forall_forall. intros k Hk%sorted_subseteq.
  change (P (d3_name (hierarchy_to_d3 (children_index (children_of n) k) k)) ∧
          d3_names P (hierarchy_to_d3 (children_index (children_of n) k) k)).
  rewrite d3_name_hierarchy_to_d3. unfold children_index.
  destruct (Dict.get k (children_of n)) as [c|] eqn:Hc;
    [|by apply Dict.get_None in Hc].
  destruct (keys_ok_children P n k c Hok Hc) as [HPk Hokc].
  split; [done|]. rewrite Forall_forall in IH.
  apply (IH (k, c)); [by apply Dict.get_Some_elem_of|done].
Qed.

(** X7. [insert_path] skips empty segments: inserting a segment list is
    inserting its non-empty segments, and a list with no non-empty segment
    (the empty list, or the path [/]) leaves the accumulator as it is. *)
Theorem insert_path_skips_empty n p :
  insert_path n p = insert_path n (filter (λ seg, seg ≠ "") p) ∧
  (Forall (λ seg, seg = "") p → insert_path n p = n).
Proof.
  split.
  - symmetry. apply insert_path_clean.
  - intros Hall. rewrite <-insert_path_clean.
    assert (clean p = []) as ->; [|done].
    unfold clean. induction Hall as [|seg p -> _ IH]; [done|].
    rewrite filter_cons. by rewrite decide_False by (intros Hne; by apply Hne).
Qed.

End HierarchyFacts.

(** ** More about the main loop *)

Module CrawlFacts.
Import Hierarchy HierarchyFacts Crawler.

Section crawl_facts.
Context {strlib : StrLib} {urllib : UrlLib} {http : Http} {htmllib : Html}
  {robots : RobotsLib}.
Variable cfg : Config.

(** The segments that [crawl] inserts for a URL:
    [[seg for seg in urlparse(url).path.split("/") if seg]]. *)
Definition url_segments (u : string) : list string :=
  match urlparse u with
  | Some up => filter (λ seg, seg ≠ "") (split_on "/" up.(path))
  | None => []
  end.

Definition child_entry (u : string) (d : nat) (child : string) : Entry :=
  (child, Some u, S d).

Definition child_edge (u child : string) : EdgeRecord :=
  {| source := u; target := child |}.

(** The placeholder record of a blocked URL. *)
Definition blocked_record (u : string) (parent : option string) (d : nat)
    : PageRecord :=
  {| url := u; status_code := None; title := "BLOQUEADA_POR_ROBOTS";
     meta_description := "BLOQUEADA_POR_ROBOTS"; canonical := None;
     parent_url := parent; depth := d |}.

(** The ways in which an iteration on the entry [(u, parent, d)] ends. *)
Inductive Step (origin : string) (st : State) (u : string)
    (parent : option string) (d : nat) (q' : list Entry) : Result → Prop :=
  | StepSkip st' :
      ((cfg.(MAX_DEPTH) < d)%nat ∨
       same_origin cfg.(BASE_URL) u = Some false ∨ u ∈ st.(visited)) →
      st'.(visited) = st.(visited) → st'.(hroot) = st.(hroot) →
      st'.(pages_fp) = st.(pages_fp) → st'.(edges_fp) = st.(edges_fp) →
      st'.(errors_fp) = st.(errors_fp) → st'.(requests) = st.(requests) →
      st'.(q) = q' →
      Step origin st u parent d q' (Next st')
  | StepRaised st' :
      st'.(visited) = st.(visited) → st'.(hroot) = st.(hroot) →
      st'.(pages_fp) = st.(pages_fp) → st'.(edges_fp) = st.(edges_fp) →
      st'.(errors_fp) = st.(errors_fp) →
      (st.(requests) ≤ st'.(requests) ≤ S st.(requests))%nat →
      st'.(q) = q' →
      Step origin st u parent d q' (Raised st')
  | StepBlocked st' :
      (d ≤ cfg.(MAX_DEPTH))%nat →
      same_origin cfg.(BASE_URL) u = Some true →
      u ∉ st.(visited) →
      cfg.(OBEY_ROBOTS) = true →
      st'.(visited) = {[u]} ∪ st.(visited) → st'.(hroot) = st.(hroot) →
      st'.(pages_fp)
        = st.(pages_fp)
          ++ (if cfg.(RECORD_BLOCKED_URLS) then [blocked_record u parent d]
              else []) →
      st'.(edges_fp) = st.(edges_fp) →
      st'.(errors_fp) = st.(errors_fp) → st'.(requests) = st.(requests) →
      st'.(q) = q' →
      Step origin st u parent d q' (Next st')
  | StepFetched st' rec links errs :
      (d ≤ cfg.(MAX_DEPTH))%nat →
      same_origin cfg.(BASE_URL) u = Some true →
      u ∉ st.(visited) →
      rec.(url) = u → rec.(depth) = d → rec.(parent_url) = parent →
      Forall (λ child, child ≠ "" ∧ same_origin origin child = Some true)
        links →
      (errs = [] ∨
       ∃ e, errs = [{| error_url := u; error := e |}] ∧
            rec.(status_code) = None ∧ rec.(title) = "SIN_TITULO" ∧
            rec.(meta_description) = "SIN_DESCRIPCION" ∧ links = []) →
      (links = [] ∨ is_Some rec.(status_code)) →
      st'.(visited) = {[u]} ∪ st.(visited) →
      st'.(hroot) = insert_path st.(hroot) (url_segments u) →
      st'.(pages_fp) = st.(pages_fp) ++ [rec] →
      st'.(edges_fp)
        = st.(edges_fp)
          ++ (child_edge u
                <$> filter (λ child, child ∉ {[u]} ∪ st.(visited)) links) →
      st'.(errors_fp) = st.(errors_fp) ++ errs →
      st'.(requests) = S st.(requests) →
      st'.(q)
        = q' ++ (child_entry u d
                   <$> filter (λ child, child ∉ {[u]} ∪ st.(visited)) links) →
      (is_Some rec.(status_code) ∨ rec.(title) = "SIN_TITULO") →
      Step origin st u parent d q' (Next st').

(** The links kept from a page are non-empty URLs of the crawled origin. *)
Lemma collect_links_Forall origin base hrefs links :
  collect_links origin base hrefs = Some links →
  Forall (λ child, child ≠ "" ∧ same_origin origin child = Some true) links.
Proof.
  revert links. induction hrefs as [|href hrefs IH]; intros links; cbn.
  { intros [= <-]. constructor. }
  destruct (normalize_url base href) as [cand|]; [|apply IH].
  case_decide as Hne; [apply IH|].
  destruct (same_origin origin cand) as [[]|] eqn:Hso; [|apply IH|done].
  destruct (collect_links origin base hrefs) as [links'|]; [|done].
  intros [= <-]. constructor; [done|by apply IH].
Qed.

Lemma same_origin_url_segments a u :
  same_origin a u = Some true →
  ∃ up, urlparse u = Some up ∧
        url_segments u = filter (λ seg, seg ≠ "") (split_on "/" up.(path)).
Proof.
  intros [up Hup]%same_origin_Some_parse. exists up. split; [done|].
  unfold url_segments. by rewrite Hup.
Qed.

(** The tail of an iteration, from [visited.add(url)] on, for a URL that
    parses. *)
Lemma finish_page_fields u parent d sc t m c links st :
  is_Some (urlparse u) →
  ∃ st',
    finish_page u parent d sc t m c links st = Next st' ∧
    st'.(visited) = {[u]} ∪ st.(visited) ∧
    st'.(hroot) = insert_path st.(hroot) (url_segments u) ∧
    st'.(pages_fp)
      = st.(pages_fp) ++ [{| url := u; status_code := sc; title := t;
                             meta_description := m; canonical := c;
                             parent_url := parent; depth := d |}] ∧
    st'.(edges_fp)
      = st.(edges_fp)
        ++ (child_edge u
              <$> filter (λ child, child ∉ {[u]} ∪ st.(visited)) links) ∧
    st'.(errors_fp) = st.(errors_fp) ∧
    st'.(requests) = st.(requests) ∧
    st'.(q)
      = st.(q) ++ (child_entry u d
                     <$> filter (λ child, child ∉ {[u]} ∪ st.(visited)) links).
Proof.
  intros [up Hup]. unfold finish_page, url_segments. rewrite Hup.
  eexists. split; [done|].
  match goal with |- context [enqueue_children ?u ?d ?l ?s] =>
    destruct (enqueue_children_spec u d l s)
      as (Hv & Hq & He & Hh & _ & Hp & Her & Hr)
  end.
  by rewrite Hv, Hq, He, Hh, Hp, Her, Hr.
Qed.

Lemma fetch_page_step origin st st2 u parent d q' :
  (d ≤ cfg.(MAX_DEPTH))%nat →
  same_origin cfg.(BASE_URL) u = Some true →
  u ∉ st.(visited) →
  st2.(visited) = st.(visited) → st2.(hroot) = st.(hroot) →
  st2.(pages_fp) = st.(pages_fp) → st2.(edges_fp) = st.(edges_fp) →
  st2.(errors_fp) = st.(errors_fp) → st2.(requests) = st.(requests) →
  st2.(q) = q' →
  Step origin st u parent d q' (fetch_page origin u parent d st2).
Proof.
  intros Hd Hso Hnin Hv Hh Hp He Her Hr Hq.
  pose proof (same_origin_Some_parse _ _ _ Hso) as Hparse.
  assert (Hfin : ∀ sc t m c links errs st3,
    Forall (λ child, child ≠ "" ∧ same_origin origin child = Some true) links →
    (errs = [] ∨
     ∃ e, errs = [{| error_url := u; error := e |}] ∧ sc = None ∧
          t = "SIN_TITULO" ∧ m = "SIN_DESCRIPCION" ∧ links = []) →
    (links = [] ∨ is_Some sc) →
    (is_Some sc ∨ t = "SIN_TITULO") →
    st3.(visited) = st.(visited) → st3.(hroot) = st.(hroot) →
    st3.(pages_fp) = st.(pages_fp) → st3.(edges_fp) = st.(edges_fp) →
    st3.(errors_fp) = st.(errors_fp) ++ errs →
    st3.(requests) = S st.(requests) → st3.(q) = q' →
    Step origin st u parent d q'
      (finish_page u parent d sc t m c links st3)).
  { intros sc t m c links errs st3 Hall Herrs Hsc Hkind
      Hv3 Hh3 Hp3 He3 Her3 Hr3 Hq3.
    destruct (finish_page_fields u parent d sc t m c links st3 Hparse)
      as (st' & -> & Hv' & Hh' & Hp' & He' & Her' & Hr' & Hq').
    rewrite Hv3 in Hv', He', Hq'. rewrite Hh3 in Hh'. rewrite Hp3 in Hp'.
    rewrite He3 in He'. rewrite Her3 in Her'. rewrite Hr3 in Hr'.
    rewrite Hq3 in Hq'.
    apply (StepFetched origin st u parent d q' st'
             {| url := u; status_code := sc; title := t;
                meta_description := m; canonical := c;
                parent_url := parent; depth := d |} links errs);
      done. }
  unfold fetch_page. rewrite Hr.
  destruct (session_get _ u) as [resp|e|].
  - destruct (_ && _).
    + destruct (extract_meta _) as [t m].
      destruct (collect_links _ _ _) as [links|] eqn:Hlinks.
      * apply (Hfin _ _ _ _ _ []); cbn; rewrite ?app_nil_r; try done;
          [by eapply collect_links_Forall|by left|by right|by left
          |by rewrite Hr].
      * apply StepRaised; cbn; try done. rewrite Hr. lia.
    + apply (Hfin _ _ _ _ _ []); cbn; rewrite ?app_nil_r; try done;
        [by left|by left|by left|by rewrite Hr].
  - apply (Hfin _ _ _ _ _ [{| error_url := u; error := e |}]); cbn;
      try done; [right; by exists e|by left|by right|by rewrite Her
                |by rewrite Hr].
  - apply StepRaised; cbn; try done. rewrite Hr. lia.
Qed.

(** Every iteration on a non-empty queue ends in one of the four ways. *)
Lemma loop_body_step rp origin st u parent d q' :
  st.(q) = (u, parent, d) :: q' →
  Step origin st u parent d q' (loop_body cfg rp origin st).
Proof.
  intros Hq. unfold loop_body. rewrite Hq.
  case_decide as Hd; [apply StepSkip; auto|].
  destruct (same_origin _ u) as [[]|] eqn:Hso;
    [|apply StepSkip; auto|by apply StepRaised; cbn; try done; lia].
  case_decide as Hin; [apply StepSkip; auto|]. cbn in Hin.
  assert (d ≤ MAX_DEPTH cfg)%nat by lia.
  destruct (OBEY_ROBOTS cfg) eqn:Hobey; [|by apply fetch_page_step].
  destruct (rp_can_fetch rp _ u) as [[]|];
    [by apply fetch_page_step| |by apply fetch_page_step].
  destruct (RECORD_BLOCKED_URLS cfg) eqn:Hrec.
  - apply StepBlocked; cbn; try done. by rewrite Hrec.
  - apply StepBlocked; cbn; try done. by rewrite Hrec, app_nil_r.
Qed.

(** What [crawl] computes, step by step. *)
Lemma crawl_unfold fuel out :
  crawl cfg fuel = Some out →
  ∃ rp parsed_base,
    urlparse cfg.(BASE_URL) = Some parsed_base ∧
    crawl_loop cfg fuel rp (origin_of parsed_base)
      (initial_state cfg
         (if cfg.(USE_SITEMAP)
          then fetch_sitemap_urls cfg (origin_of parsed_base)
                 (origin_of parsed_base +:+ parsed_base.(path))
          else []))
    = Some (out.(final), out.(critical)) ∧
    out.(d3tree) = hierarchy_to_d3 out.(final).(hroot) parsed_base.(netloc).
Proof.
  unfold crawl, crawl_init. intros Hc.
  destruct (urlparse (BASE_URL cfg)) as [parsed_base|]; [|done].
  cbn in Hc. destruct (urljoin _ "/robots.txt") as [robots_url|]; [|done].
  cbn in Hc.
  destruct (crawl_loop cfg fuel _ _ _) as [[st crit]|] eqn:Hloop; [|done].
  cbn in Hc. injection Hc as <-. eauto.
Qed.

(** A property that every way of ending an iteration preserves holds when
    the loop exits. *)
Lemma crawl_loop_step_invariant (Inv : State → Prop) rp origin :
  (∀ st u parent d q' r,
     st.(q) = (u, parent, d) :: q' → Step origin st u parent d q' r →
     Inv st → Inv (result_state r)) →
  ∀ fuel st st' crit,
    Inv st → crawl_loop cfg fuel rp origin st = Some (st', crit) → Inv st'.
Proof.
  intros Hstep. apply crawl_loop_invariant.
  intros st (u & parent & d & q' & Hq)%loop_cond_queue HI.
  apply (Hstep st u parent d q' _ Hq); [|done]. by apply loop_body_step.
Qed.

(** The same for a loop that exits without an exception, where only the
    iterations that complete matter. *)
Lemma crawl_loop_next_invariant (Inv : State → Prop) rp origin :
  (∀ st u parent d q' st',
     st.(q) = (u, parent, d) :: q' →
     Step origin st u parent d q' (Next st') → Inv st → Inv st') →
  ∀ fuel st st',
    Inv st → crawl_loop cfg fuel rp origin st = Some (st', false) → Inv st'.
Proof.
  intros Hstep fuel. induction fuel as [|fuel IH]; intros st st' HI; cbn.
  - destruct (loop_cond cfg st); [done|]. by intros [= <-].
  - destruct (loop_cond cfg st) eqn:Hcond; [|by intros [= <-]].
    destruct (loop_cond_queue cfg st Hcond) as (u & parent & d & q' & Hq).
    pose proof (loop_body_step rp origin st u parent d q' Hq) as Hs.
    destruct (loop_body cfg rp origin st) as [st1|st1]; [|done].
    apply IH. by apply (Hstep st u parent d q' st1).
Qed.

(** *** Depth, origin and visited state of the page records *)

Definition pages_in_scope (st : State) : Prop :=
  ∀ rec, rec ∈ st.(pages_fp) →
    (rec.(depth) ≤ cfg.(MAX_DEPTH))%nat ∧
    same_origin cfg.(BASE_URL) rec.(url) = Some true ∧
    rec.(url) ∈ st.(visited).

Lemma pages_in_scope_step origin st u parent d q' r :
  st.(q) = (u, parent, d) :: q' → Step origin st u parent d q' r →
  pages_in_scope st → pages_in_scope (result_state r).
Proof.
  intros Hq Hstep Hinv.
  destruct Hstep as
    [st' Hwhy Hv Hh Hp He Her Hr Hq'
    |st' Hv Hh Hp He Her Hr Hq'
    |st' Hd Hso Hnin Hobey Hv Hh Hp He Her Hr Hq'
    |st' rec links errs Hd Hso Hnin Hu Hdep Hpar Hall Herrs Hsc
       Hv Hh Hp He Her Hr Hq'];
    cbn; intros rec0; rewrite Hp, Hv.
  - apply Hinv.
  - apply Hinv.
  - intros [Hrec|Hrec]%elem_of_app.
    + destruct (Hinv rec0 Hrec) as (? & ? & ?). split_and!; [done..|].
      by apply elem_of_union_r.
    + destruct (RECORD_BLOCKED_URLS cfg); [|by apply elem_of_nil in Hrec].
      apply list_elem_of_singleton in Hrec as ->. cbn.
      split_and!; [done..|]. by apply elem_of_union_l, elem_of_singleton.
  - intros [Hrec|Hrec%list_elem_of_singleton]%elem_of_app.
    + destruct (Hinv rec0 Hrec) as (? & ? & ?). split_and!; [done..|].
      by apply elem_of_union_r.
    + subst rec0. rewrite Hu, Hdep. split_and!; [done..|].
      by apply elem_of_union_l, elem_of_singleton.
Qed.

Lemma initial_state_in_scope sm_urls :
  pages_in_scope (initial_state cfg sm_urls).
Proof. by intros rec ?%elem_of_nil. Qed.

(** X1. In every completed crawl, also one left by an exception, each page
    record has a depth of at most [MAX_DEPTH] and a URL of the same scheme
    and network location as [BASE_URL]; this holds for the placeholder
    records of blocked URLs as well. *)
Theorem page_records_in_scope fuel out rec :
  crawl cfg fuel = Some out →
  rec ∈ out.(final).(pages_fp) →
  (rec.(depth) ≤ cfg.(MAX_DEPTH))%nat ∧
  same_origin cfg.(BASE_URL) rec.(url) = Some true.
Proof.
  intros (rp & pb & Hpb & Hloop & _)%crawl_unfold Hrec.
  assert (pages_in_scope out.(final)) as Hinv.
  { eapply (crawl_loop_step_invariant pages_in_scope);
      [apply pages_in_scope_step|apply initial_state_in_scope|exact Hloop]. }
  destruct (Hinv rec Hrec) as (? & ? & _). done.
Qed.

(** *** Edge records *)

Definition edges_ok (origin : string) (st : State) : Prop :=
  ∀ e, e ∈ st.(edges_fp) →
    e.(source) ≠ e.(target) ∧ e.(target) ≠ "" ∧
    same_origin origin e.(target) = Some true ∧
    ∃ rec, rec ∈ st.(pages_fp) ∧ rec.(url) = e.(source) ∧
           is_Some rec.(status_code).

Lemma edges_ok_step origin st u parent d q' r :
  st.(q) = (u, parent, d) :: q' → Step origin st u parent d q' r →
  edges_ok origin st → edges_ok origin (result_state r).
Proof.
  intros Hq Hstep Hinv.
  destruct Hstep as
    [st' Hwhy Hv Hh Hp He Her Hr Hq'
    |st' Hv Hh Hp He Her Hr Hq'
    |st' Hd Hso Hnin Hobey Hv Hh Hp He Her Hr Hq'
    |st' rec links errs Hd Hso Hnin Hu Hdep Hpar Hall Herrs Hsc
       Hv Hh Hp He Her Hr Hq'];
    cbn; intros e; rewrite He, Hp.
  - apply Hinv.
  - apply Hinv.
  - intros (? & ? & ? & rec & Hrec & ? & ?)%Hinv. split_and!; [done..|].
    exists rec. split; [by apply elem_of_app; left|done].
  - intros [He0|(child & -> & Hchild)%list_elem_of_fmap]%elem_of_app.
    + destruct (Hinv e He0) as (? & ? & ? & rec0 & Hrec0 & ? & ?).
      split_and!; [done..|].
      exists rec0. split; [by apply elem_of_app; left|done].
    + apply list_elem_of_filter in Hchild as [Hnew Hin]. cbn.
      rewrite Forall_forall in Hall. destruct (Hall child Hin) as [? ?].
      split_and!; [|done..|].
      * intros <-. apply Hnew. by apply elem_of_union_l, elem_of_singleton.
      * exists rec. split; [by apply elem_of_app; right; left|].
        split; [done|]. destruct Hsc as [->|?]; [|done].
        by apply elem_of_nil in Hin.
Qed.

(** X2. In every completed crawl, each edge record leads from a URL that
    has a page record with a status code (a page that was fetched) to a
    different, non-empty URL of the crawled origin: no edge is a self-loop,
    and no edge starts at a blocked or failed page. *)
Theorem edge_records_well_formed fuel out e :
  crawl cfg fuel = Some out →
  e ∈ out.(final).(edges_fp) →
  e.(source) ≠ e.(target) ∧ e.(target) ≠ "" ∧
  (∃ parsed_base,
     urlparse cfg.(BASE_URL) = Some parsed_base ∧
     same_origin (origin_of parsed_base) e.(target) = Some true) ∧
  ∃ rec, rec ∈ out.(final).(pages_fp) ∧ rec.(url) = e.(source) ∧
         is_Some rec.(status_code).
Proof.
  intros (rp & pb & Hpb & Hloop & _)%crawl_unfold He.
  assert (edges_ok (origin_of pb) out.(final)) as Hinv.
  { eapply (crawl_loop_step_invariant (edges_ok (origin_of pb)));
      [apply edges_ok_step| |exact Hloop].
    by intros e' ?%elem_of_nil. }
  destruct (Hinv e He) as (? & ? & ? & ?). split_and!; [done..| |done].
  by exists pb.
Qed.

(** *** Error records *)

Definition errors_ok (st : State) : Prop :=
  NoDup (error_url <$> st.(errors_fp)) ∧
  (length st.(errors_fp) ≤ length st.(pages_fp))%nat ∧
  ∀ e, e ∈ st.(errors_fp) →
    e.(error_url) ∈ st.(visited) ∧
    ∃ rec, rec ∈ st.(pages_fp) ∧ rec.(url) = e.(error_url) ∧
           rec.(status_code) = None ∧ rec.(title) = "SIN_TITULO" ∧
           rec.(meta_description) = "SIN_DESCRIPCION".

Lemma errors_ok_step origin st u parent d q' r :
  st.(q) = (u, parent, d) :: q' → Step origin st u parent d q' r →
  errors_ok st → errors_ok (result_state r).
Proof.
  intros Hq Hstep (Hnd & Hlen & Hinv).
  destruct Hstep as
    [st' Hwhy Hv Hh Hp He Her Hr Hq'
    |st' Hv Hh Hp He Her Hr Hq'
    |st' Hd Hso Hnin Hobey Hv Hh Hp He Her Hr Hq'
    |st' rec links errs Hd Hso Hnin Hu Hdep Hpar Hall Herrs Hsc
       Hv Hh Hp He Her Hr Hq'];
    cbn; unfold errors_ok; rewrite Her, Hp, Hv.
  - done.
  - done.
  - split_and!; [done|rewrite length_app; lia|].
    intros e (? & rec & Hrec & ?)%Hinv.
    split; [by apply elem_of_union_r|].
    exists rec. split; [by apply elem_of_app; left|done].
  - assert (Hold : ∀ e, e ∈ errors_fp st →
      error_url e ∈ {[u]} ∪ visited st ∧
      ∃ rec0, rec0 ∈ pages_fp st ++ [rec] ∧ url rec0 = error_url e ∧
              status_code rec0 = None ∧ title rec0 = "SIN_TITULO" ∧
              meta_description rec0 = "SIN_DESCRIPCION").
    { intros e (? & rec0 & Hrec0 & ?)%Hinv.
      split; [by apply elem_of_union_r|].
      exists rec0. split; [by apply elem_of_app; left|done]. }
    destruct Herrs as [->|(e0 & -> & Hst & Ht & Hm & _)].
    + rewrite app_nil_r. split_and!; [done|rewrite length_app; lia|done].
    + split_and!.
      * rewrite fmap_app. apply NoDup_app. split_and!; [done| |].
        { intros x (e & -> & He0)%list_elem_of_fmap.
          cbn. intros Heq%list_elem_of_singleton.
          apply Hnin. rewrite <-Heq. by apply Hinv. }
        { apply NoDup_singleton. }
      * rewrite !length_app. cbn. lia.
      * intros e [He0| ->%list_elem_of_singleton]%elem_of_app;
          [by apply Hold|].
        cbn. split; [by apply elem_of_union_l, elem_of_singleton|].
        exists rec. split; [by apply elem_of_app; right; left|done].
Qed.

(** X3. In every completed crawl, the error records have pairwise distinct
    URLs, each of them belongs to a page record with no status code and the
    placeholder title and description, and there are at most as many error
    records as page records: a failed request is recorded once and never
    retried. *)
Theorem error_records_match_pages fuel out :
  crawl cfg fuel = Some out →
  NoDup (error_url <$> out.(final).(errors_fp)) ∧
  (length out.(final).(errors_fp) ≤ length out.(final).(pages_fp))%nat ∧
  ∀ e, e ∈ out.(final).(errors_fp) →
    ∃ rec, rec ∈ out.(final).(pages_fp) ∧ rec.(url) = e.(error_url) ∧
           rec.(status_code) = None ∧ rec.(title) = "SIN_TITULO" ∧
           rec.(meta_description) = "SIN_DESCRIPCION".
Proof.
  intros (rp & pb & Hpb & Hloop & _)%crawl_unfold.
  assert (errors_ok out.(final)) as (Hnd & Hlen & Hinv).
  { eapply (crawl_loop_step_invariant errors_ok);
      [apply errors_ok_step| |exact Hloop].
    split_and!; cbn; [constructor|lia|by intros e ?%elem_of_nil]. }
  split_and!; [done..|]. intros e He. by destruct (Hinv e He).
Qed.

(** *** Requests *)

Definition requests_ok (st : State) : Prop :=
  (st.(requests) ≤ length st.(pages_fp))%nat ∧
  (cfg.(OBEY_ROBOTS) = false → st.(requests) = length st.(pages_fp)).

Lemma requests_ok_step origin st u parent d q' st' :
  st.(q) = (u, parent, d) :: q' → Step origin st u parent d q' (Next st') →
  requests_ok st → requests_ok st'.
Proof.
  intros Hq Hstep [Hle Heq]. unfold requests_ok.
  inversion Hstep as
    [st0 Hwhy Hv Hh Hp He Her Hr Hq'
    |
    |st0 Hd Hso Hnin Hobey Hv Hh Hp He Her Hr Hq'
    |st0 rec links errs Hd Hso Hnin Hu Hdep Hpar Hall Herrs Hsc
       Hv Hh Hp He Her Hr Hq']; subst st0; rewrite Hr, Hp.
  - done.
  - rewrite length_app. split; [lia|]. by rewrite Hobey.
  - rewrite length_app. cbn. split; [lia|]. intros ?. rewrite Heq; [lia|done].
Qed.

(** X4. In a crawl that completes without an exception, at most one request
    was made per page record, and with robots compliance off (the default)
    exactly one: skipped entries cause no request, and no URL is requested
    without being recorded. *)
Theorem one_request_per_page fuel out :
  crawl cfg fuel = Some out →
  out.(critical) = false →
  (out.(final).(requests) ≤ length out.(final).(pages_fp))%nat ∧
  (cfg.(OBEY_ROBOTS) = false →
   out.(final).(requests) = length out.(final).(pages_fp)).
Proof.
  intros (rp & pb & Hpb & Hloop & _)%crawl_unfold Hcrit.
  rewrite Hcrit in Hloop.
  eapply (crawl_loop_next_invariant requests_ok);
    [apply requests_ok_step| |exact Hloop].
  by split.
Qed.

(** *** Breadth-first order *)

Definition entry_depth (e : Entry) : nat := e.2.

(** The page records and the queue are in non-decreasing order of depth,
    the records come before the queue, and the queue spans at most two
    levels. *)
Definition bfs_ok (st : State) : Prop :=
  StronglySorted le (depth <$> st.(pages_fp)) ∧
  StronglySorted le (entry_depth <$> st.(q)) ∧
  (∀ rec e, rec ∈ st.(pages_fp) → e ∈ st.(q) →
     (rec.(depth) ≤ entry_depth e)%nat) ∧
  (∀ e e', e ∈ st.(q) → e' ∈ st.(q) → (entry_depth e' ≤ S (entry_depth e))%nat).

Lemma bfs_ok_step origin st u parent d q' r :
  st.(q) = (u, parent, d) :: q' → Step origin st u parent d q' r →
  bfs_ok st → bfs_ok (result_state r).
Proof.
  intros Hq Hstep (Hp1 & Hq1 & Hpq & Hspan). rewrite Hq in Hq1, Hpq, Hspan.
  cbn in Hq1. apply StronglySorted_cons in Hq1 as [Hhead Hq1].
  rewrite Forall_forall in Hhead.
  assert (Hlow : ∀ e, e ∈ q' → (d ≤ entry_depth e ≤ S d)%nat).
  { intros e He. split.
    - apply Hhead. by apply list_elem_of_fmap_2.
    - apply (Hspan (u, parent, d) e); [left|by right]. }
  assert (Hpd : ∀ rec, rec ∈ pages_fp st → (depth rec ≤ d)%nat).
  { intros rec Hrec. apply (Hpq rec (u, parent, d) Hrec). left. }
  assert (Hskip : ∀ st', pages_fp st' = pages_fp st → q st' = q' → bfs_ok st').
  { intros st' Hp Hq'. unfold bfs_ok. rewrite Hp, Hq'. split_and!; [done..| |].
    - intros rec e Hrec He. apply Hpq; [done|by right].
    - intros e e' He He'. apply Hspan; by right. }
  assert (Hrec : ∀ recs, Forall (λ rec, depth rec = d) recs →
    StronglySorted le (depth <$> pages_fp st ++ recs) ∧
    ∀ rec, rec ∈ pages_fp st ++ recs → (depth rec ≤ d)%nat).
  { intros recs Hrecs. rewrite Forall_forall in Hrecs. split.
    - rewrite fmap_app. apply StronglySorted_app. split_and!; [|done|].
      + intros x1 x2 (r1 & -> & Hr1)%list_elem_of_fmap
                     (r2 & -> & Hr2)%list_elem_of_fmap.
        rewrite (Hrecs r2 Hr2). by apply Hpd.
      + clear -Hrecs. induction recs as [|r0 recs IH]; [constructor|].
        cbn. constructor.
        * apply IH. intros x Hx. apply Hrecs. by right.
        * apply Forall_forall. intros x (r2 & -> & Hr2)%list_elem_of_fmap.
          rewrite (Hrecs r0), (Hrecs r2); [done|by right|left].
    - intros rec [?| Hin]%elem_of_app; [by apply Hpd|].
      by rewrite (Hrecs rec Hin). }
  destruct Hstep as
    [st' Hwhy Hv Hh Hp He Her Hr Hq'
    |st' Hv Hh Hp He Her Hr Hq'
    |st' Hd Hso Hnin Hobey Hv Hh Hp He Her Hr Hq'
    |st' rec links errs Hd Hso Hnin Hu Hdep Hpar Hall Herrs Hsc
       Hv Hh Hp He Her Hr Hq']; cbn.
  - by apply Hskip.
  - by apply Hskip.
  - unfold bfs_ok. rewrite Hp, Hq'.
    destruct (Hrec (if RECORD_BLOCKED_URLS cfg
                    then [blocked_record u parent d] else []))
      as [Hs Hle].
    { destruct (RECORD_BLOCKED_URLS cfg); by repeat constructor. }
    split_and!; [done..| |].
    + intros rec e Hrec' He'. etrans; [by apply Hle|]. by apply Hlow.
    + intros e e' He0 He'. apply Hspan; by right.
  - unfold bfs_ok. rewrite Hp, Hq'.
    destruct (Hrec [rec]) as [Hs Hle]; [by repeat constructor|].
    set (new := filter _ links) in *.
    assert (Hnew : ∀ e, e ∈ child_entry u d <$> new → entry_depth e = S d).
    { by intros e (c & -> & _)%list_elem_of_fmap. }
    assert (Hall' : ∀ e, e ∈ q' ++ (child_entry u d <$> new) →
      (d ≤ entry_depth e ≤ S d)%nat).
    { intros e [?|Hin]%elem_of_app; [by apply Hlow|].
      rewrite (Hnew e Hin). lia. }
    split_and!; [done| | |].
    + rewrite fmap_app. apply StronglySorted_app. split_and!; [|done|].
      * intros x1 x2 (e1 & -> & He1)%list_elem_of_fmap
                     (e2 & -> & He2)%list_elem_of_fmap.
        apply list_elem_of_fmap in He2 as (c & -> & _). cbn.
        by apply Hlow.
      * rewrite <-list_fmap_compose. clear. induction new as [|c new IH];
          [constructor|].
        cbn. constructor; [done|].
        apply Forall_forall. by intros x (c' & -> & _)%list_elem_of_fmap.
    + intros rec0 e Hrec0 He0. etrans; [by apply Hle|]. by apply Hall'.
    + intros e e' He0 He'. apply Hall' in He0, He'. lia.
Qed.

Lemma initial_state_bfs sm_urls : bfs_ok (initial_state cfg sm_urls).
Proof.
  unfold bfs_ok. cbn.
  assert (∀ e, e ∈ (λ u, (u, Some (BASE_URL cfg), 1%nat)) <$> sm_urls →
               entry_depth e = 1%nat) as Hone.
  { by intros e (c & -> & _)%list_elem_of_fmap. }
  split_and!.
  - constructor.
  - constructor.
    + rewrite <-list_fmap_compose. induction sm_urls as [|c l IH];
        [constructor|].
      cbn. constructor.
      * apply IH. intros e He. apply Hone. by right.
      * apply Forall_forall. by intros x (c' & -> & _)%list_elem_of_fmap.
    + apply Forall_forall. intros x (e & -> & He)%list_elem_of_fmap.
      rewrite (Hone e He). unfold entry_depth. cbn. lia.
  - by intros rec e ?%elem_of_nil.
  - intros e e' [->|He]%elem_of_cons [->|He']%elem_of_cons;
      rewrite ?(Hone _ He), ?(Hone _ He'); unfold entry_depth; cbn; lia.
Qed.

(** X5. In every completed crawl the page records are written in
    non-decreasing order of depth: the traversal is breadth-first, the seed
    and the sitemap URLs included. *)
Theorem page_records_by_depth fuel out :
  crawl cfg fuel = Some out →
  StronglySorted le (depth <$> out.(final).(pages_fp)).
Proof.
  intros (rp & pb & Hpb & Hloop & _)%crawl_unfold.
  assert (bfs_ok out.(final)) as [Hs _]; [|done].
  eapply (crawl_loop_step_invariant bfs_ok);
    [apply bfs_ok_step|apply initial_state_bfs|exact Hloop].
Qed.

(** *** Parents *)

(** An entry or record is linked when it is the seed, or a sitemap URL or
    child of the seed at depth 1, or the child of a recorded page one level
    up. *)
Definition linked (pages : list PageRecord) (u : string)
    (parent : option string) (d : nat) : Prop :=
  match parent with
  | None => d = 0%nat ∧ u = cfg.(BASE_URL)
  | Some p =>
      (p = cfg.(BASE_URL) ∧ d = 1%nat) ∨
      ∃ rec, rec ∈ pages ∧ rec.(url) = p ∧ d = S rec.(depth)
  end.

Lemma linked_app pages pages' u parent d :
  linked pages u parent d → linked (pages ++ pages') u parent d.
Proof.
  destruct parent as [p|]; [|done]. intros [?|(rec & Hrec & ?)]; [by left|].
  right. exists rec. split; [by apply elem_of_app; left|done].
Qed.

Definition parents_ok (st : State) : Prop :=
  (∀ e, e ∈ st.(q) → linked st.(pages_fp) e.1.1 e.1.2 e.2) ∧
  (∀ rec, rec ∈ st.(pages_fp) →
     linked st.(pages_fp) rec.(url) rec.(parent_url) rec.(depth)).

Lemma parents_ok_step origin st u parent d q' r :
  st.(q) = (u, parent, d) :: q' → Step origin st u parent d q' r →
  parents_ok st → parents_ok (result_state r).
Proof.
  intros Hq Hstep [Hqs Hps]. rewrite Hq in Hqs.
  assert (Hhead : linked (pages_fp st) u parent d).
  { apply (Hqs (u, parent, d)). left. }
  assert (Htail : ∀ e, e ∈ q' → linked (pages_fp st) e.1.1 e.1.2 e.2).
  { intros e He. apply Hqs. by right. }
  assert (Hgrow : ∀ recs st',
    pages_fp st' = pages_fp st ++ recs →
    (∀ rec, rec ∈ recs → url rec = u ∧ parent_url rec = parent ∧ depth rec = d) →
    (∀ e, e ∈ q st' → e ∈ q' ∨
       ∃ rec, rec ∈ recs ∧ e.1.2 = Some (url rec) ∧ e.2 = S (depth rec)) →
    parents_ok st').
  { intros recs st' Hp Hrecs Hq'. split; rewrite Hp.
    - intros e [He|(rec & Hrec & Hpar & Hdep)]%Hq'.
      + by apply linked_app, Htail.
      + unfold linked. rewrite Hpar. right. exists rec.
        split; [by apply elem_of_app; right|done].
    - intros rec [Hrec|Hrec]%elem_of_app.
      + by apply linked_app, Hps.
      + destruct (Hrecs rec Hrec) as (-> & -> & ->). by apply linked_app. }
  destruct Hstep as
    [st' Hwhy Hv Hh Hp He Her Hr Hq'
    |st' Hv Hh Hp He Her Hr Hq'
    |st' Hd Hso Hnin Hobey Hv Hh Hp He Her Hr Hq'
    |st' rec links errs Hd Hso Hnin Hu Hdep Hpar Hall Herrs Hsc
       Hv Hh Hp He Her Hr Hq']; cbn.
  - apply (Hgrow []); [by rewrite app_nil_r|by intros ? ?%elem_of_nil|].
    rewrite Hq'. by left.
  - apply (Hgrow []); [by rewrite app_nil_r|by intros ? ?%elem_of_nil|].
    rewrite Hq'. by left.
  - apply (Hgrow (if RECORD_BLOCKED_URLS cfg
                  then [blocked_record u parent d] else [])); [done| |].
    + destruct (RECORD_BLOCKED_URLS cfg); [|by intros ? ?%elem_of_nil].
      by intros rec ->%list_elem_of_singleton.
    + rewrite Hq'. by left.
  - apply (Hgrow [rec]); [done| |].
    + by intros rec0 ->%list_elem_of_singleton.
    + rewrite Hq'. intros e [?|(c & -> & _)%list_elem_of_fmap]%elem_of_app;
        [by left|].
      right. exists rec. split; [left|]. cbn. by rewrite Hu, Hdep.
Qed.

Lemma initial_state_parents sm_urls : parents_ok (initial_state cfg sm_urls).
Proof.
  split; cbn; [|by intros rec ?%elem_of_nil].
  intros e [->|(c & -> & _)%list_elem_of_fmap]%elem_of_cons; cbn; [done|].
  by left.
Qed.

(** X6. In every completed crawl the page records form a tree rooted at the
    seed: a record without a parent is the seed at depth 0, and a record with
    a parent is either at depth 1 below [BASE_URL] or one level below a page
    record whose URL is its parent. *)
Theorem page_records_linked fuel out rec :
  crawl cfg fuel = Some out →
  rec ∈ out.(final).(pages_fp) →
  match rec.(parent_url) with
  | None => rec.(depth) = 0%nat ∧ rec.(url) = cfg.(BASE_URL)
  | Some p =>
      (p = cfg.(BASE_URL) ∧ rec.(depth) = 1%nat) ∨
      ∃ rec', rec' ∈ out.(final).(pages_fp) ∧ rec'.(url) = p ∧
              rec.(depth) = S rec'.(depth)
  end.
Proof.
  intros (rp & pb & Hpb & Hloop & _)%crawl_unfold Hrec.
  assert (parents_ok out.(final)) as [_ Hps].
  { eapply (crawl_loop_step_invariant parents_ok);
      [apply parents_ok_step|apply initial_state_parents|exact Hloop]. }
  apply (Hps rec Hrec).
Qed.

(** *** The hierarchy of a crawl *)

(** The placeholder records of blocked URLs: no status code and the title
    [BLOQUEADA_POR_ROBOTS]. The record of a page that was requested has a
    status code, or the title [SIN_TITULO] when the request failed. *)
Definition blocked (rec : PageRecord) : Prop :=
  rec.(status_code) = None ∧ rec.(title) = "BLOQUEADA_POR_ROBOTS".

#[global] Instance blocked_dec rec : Decision (blocked rec).
Proof. unfold blocked. apply _. Defined.

(** The page records that are not placeholders of blocked URLs. *)
Definition requested (recs : list PageRecord) : list PageRecord :=
  filter (λ rec, ¬ blocked rec) recs.

(** The accumulator holds the paths of the recorded pages that were
    requested: of all recorded pages when robots compliance is off. *)
Definition hierarchy_ok (st : State) : Prop :=
  st.(hroot) = build (url_segments <$> (url <$> requested st.(pages_fp))) ∧
  (cfg.(OBEY_ROBOTS) = false → requested st.(pages_fp) = st.(pages_fp)).

Lemma hierarchy_ok_step origin st u parent d q' r :
  st.(q) = (u, parent, d) :: q' → Step origin st u parent d q' r →
  hierarchy_ok st → hierarchy_ok (result_state r).
Proof.
  intros Hq Hstep (Hroot & Hall).
  destruct Hstep as
    [st' Hwhy Hv Hh Hp He Her Hr Hq'
    |st' Hv Hh Hp He Her Hr Hq'
    |st' Hd Hso Hnin Hobey Hv Hh Hp He Her Hr Hq'
    |st' rec links errs Hd Hso Hnin Hu Hdep Hpar Hall' Herrs Hsc
       Hv Hh Hp He Her Hr Hq' Hkind]; cbn; unfold hierarchy_ok;
    rewrite Hh, Hp; try done.
  - unfold requested in *. rewrite filter_app.
    assert (filter (λ rec, ¬ blocked rec)
              (if RECORD_BLOCKED_URLS cfg then [blocked_record u parent d]
               else []) = []) as ->.
    { destruct (RECORD_BLOCKED_URLS cfg); [|done].
      rewrite filter_cons, decide_False; [done|].
      intros Hnb. by apply Hnb. }
    rewrite app_nil_r. split; [done|]. by rewrite Hobey.
  - assert (¬ blocked rec) as Hnb.
    { intros [Hsc' Ht]. destruct Hkind as [[sc Hsome]|Ht']; congruence. }
    unfold requested in *.
    rewrite filter_app, filter_cons, decide_True, filter_nil by done. split.
    + rewrite !fmap_app.
      change (url_segments <$> (url <$> [rec])) with [url_segments (url rec)].
      by rewrite build_snoc, <-Hroot, Hu.
    + intros Hoff. by rewrite (Hall Hoff).
Qed.

(** X9. The hierarchy of a completed crawl is the accumulator built from
    the path segments of the page records that are not placeholders of
    blocked URLs, in the order of the page file: the pages that were
    requested, whether the request succeeded or failed. With robots
    compliance off (the default) these are all the page records. *)
Theorem hierarchy_of_page_records fuel out :
  crawl cfg fuel = Some out →
  let recs := filter (λ rec, ¬ blocked rec) out.(final).(pages_fp) in
  ∃ parsed_base,
    (cfg.(OBEY_ROBOTS) = false → recs = out.(final).(pages_fp)) ∧
    out.(final).(hroot) = build (url_segments <$> (url <$> recs)) ∧
    urlparse cfg.(BASE_URL) = Some parsed_base ∧
    out.(d3tree)
    = hierarchy_to_d3 (build (url_segments <$> (url <$> recs)))
        parsed_base.(netloc).
Proof.
  intros (rp & pb & Hpb & Hloop & Htree)%crawl_unfold. cbv zeta.
  assert (hierarchy_ok out.(final)) as (Hroot & Hall).
  { eapply (crawl_loop_step_invariant hierarchy_ok);
      [apply hierarchy_ok_step| |exact Hloop].
    by split. }
  exists pb. split_and!; [done..|]. by rewrite Htree, Hroot.
Qed.

Lemma url_segments_plain u : Forall plain_segment (url_segments u).
Proof.
  unfold url_segments. destruct (urlparse u) as [up|]; [|constructor].
  apply Forall_forall. intros seg. apply path_segments_plain.
Qed.

Lemma clean_url_segments u : clean (url_segments u) = url_segments u.
Proof.
  unfold url_segments, clean. destruct (urlparse u) as [up|]; [|done].
  generalize (split_on "/" (path up)). intros l.
  induction l as [|seg l IH]; [done|].
  rewrite filter_cons. case_decide as Hne; [|done].
  rewrite filter_cons, decide_True by done. by rewrite IH.
Qed.

Definition hroot_ok (st : State) : Prop :=
  wf st.(hroot) ∧ keys_ok plain_segment st.(hroot).

Lemma hroot_ok_step origin st u parent d q' r :
  st.(q) = (u, parent, d) :: q' → Step origin st u parent d q' r →
  hroot_ok st → hroot_ok (result_state r).
Proof.
  intros Hq Hstep [Hwf Hkeys].
  destruct Hstep as
    [st' Hwhy Hv Hh Hp He Her Hr Hq'
    |st' Hv Hh Hp He Her Hr Hq'
    |st' Hd Hso Hnin Hobey Hv Hh Hp He Her Hr Hq'
    |st' rec links errs Hd Hso Hnin Hu Hdep Hpar Hall' Herrs Hsc
       Hv Hh Hp He Her Hr Hq']; cbn; unfold hroot_ok; rewrite Hh; try done.
  split; [by apply wf_insert_path|].
  apply keys_ok_insert_path; [done|].
  rewrite clean_url_segments. apply url_segments_plain.
Qed.

(** X10. The tree written to [hierarchy.json] by a completed crawl, also one
    left by an exception, lists the children of every node in strictly
    increasing lexicographic order, and every node below the root is named
    by a non-empty path segment without a slash. *)
Theorem hierarchy_tree_well_formed fuel out :
  crawl cfg fuel = Some out →
  d3_sorted out.(d3tree) ∧ d3_names plain_segment out.(d3tree).
Proof.
  intros (rp & pb & Hpb & Hloop & ->)%crawl_unfold.
  assert (hroot_ok out.(final)) as [Hwf Hkeys].
  { eapply (crawl_loop_step_invariant hroot_ok);
      [apply hroot_ok_step| |exact Hloop].
    split; cbn; by repeat constructor. }
  split; [by apply hierarchy_to_d3_sorted|by apply hierarchy_to_d3_names].
Qed.

(** *** What is crawled *)

(** Every edge leads to a URL that is visited, or still queued one level
    below its source, or that the scope tests reject. *)
Definition frontier_ok (st : State) : Prop :=
  ∀ e, e ∈ st.(edges_fp) →
    ∃ rec, rec ∈ st.(pages_fp) ∧ rec.(url) = e.(source) ∧
      (e.(target) ∈ st.(visited) ∨
       (e.(target), Some e.(source), S rec.(depth)) ∈ st.(q) ∨
       (cfg.(MAX_DEPTH) ≤ rec.(depth))%nat ∨
       same_origin cfg.(BASE_URL) e.(target) ≠ Some true).

Lemma frontier_ok_step origin st u parent d q' st' :
  st.(q) = (u, parent, d) :: q' → Step origin st u parent d q' (Next st') →
  frontier_ok st → frontier_ok st'.
Proof.
  intros Hq Hstep Hinv.
  assert (Hold : ∀ e,
    e ∈ edges_fp st →
    (∀ rec, rec ∈ pages_fp st → rec ∈ pages_fp st') →
    (∀ v, v ∈ visited st → v ∈ visited st') →
    (∀ en, en ∈ q' → en ∈ q st') →
    ((cfg.(MAX_DEPTH) < d)%nat ∨
     same_origin cfg.(BASE_URL) u = Some false ∨ u ∈ visited st') →
    ∃ rec, rec ∈ pages_fp st' ∧ url rec = source e ∧
      (target e ∈ visited st' ∨
       (target e, Some (source e), S (depth rec)) ∈ q st' ∨
       (cfg.(MAX_DEPTH) ≤ depth rec)%nat ∨
       same_origin cfg.(BASE_URL) (target e) ≠ Some true)).
  { intros e He Hpages Hvis Hqueue Hwhy.
    destruct (Hinv e He) as (rec & Hrec & Hsrc & Hcase).
    exists rec. split_and!; [by apply Hpages|done|].
    destruct Hcase as [?|[Hin|[?|?]]]; [left; by apply Hvis| |by auto..].
    rewrite Hq in Hin. apply elem_of_cons in Hin as [[= <- <- <-]|Hin].
    - destruct Hwhy as [?|[Hso|?]]; [right; right; left; lia| |by left].
      right. right. right. by rewrite Hso.
    - right. left. by apply Hqueue. }
  inversion Hstep as
    [st0 Hwhy Hv Hh Hp He Her Hr Hq'
    |
    |st0 Hd Hso Hnin Hobey Hv Hh Hp He Her Hr Hq'
    |st0 rec links errs Hd Hso Hnin Hu Hdep Hpar Hall Herrs Hsc
       Hv Hh Hp He Her Hr Hq']; subst st0; intros e; rewrite He.
  - intros He0. apply Hold; [done|by rewrite Hp|by rewrite Hv|by rewrite Hq'|].
    by rewrite Hv.
  - intros He0. apply Hold; [done| | |by rewrite Hq'|].
    + rewrite Hp. intros rec ?. by apply elem_of_app; left.
    + rewrite Hv. intros v ?. by apply elem_of_union_r.
    + right. right. rewrite Hv. by apply elem_of_union_l, elem_of_singleton.
  - intros [He0|(child & -> & Hchild)%list_elem_of_fmap]%elem_of_app.
    + apply Hold; [done| | | |].
      * rewrite Hp. intros rec0 ?. by apply elem_of_app; left.
      * rewrite Hv. intros v ?. by apply elem_of_union_r.
      * rewrite Hq'. intros en ?. by apply elem_of_app; left.
      * right. right. rewrite Hv. by apply elem_of_union_l, elem_of_singleton.
    + exists rec. split_and!; [rewrite Hp; by apply elem_of_app; right; left
                              |done|].
      right. left. rewrite Hq', Hdep. apply elem_of_app. right.
      by apply (list_elem_of_fmap_2 (child_entry u d)).
Qed.

(** X11. When a crawl completes without an exception and with an empty
    queue (it was not stopped by [MAX_PAGES]), every link it recorded was
    followed: the target of each edge record is visited, unless its source
    is at the maximum depth or the target is not of the origin of
    [BASE_URL]. *)
Theorem recorded_links_followed fuel out e :
  crawl cfg fuel = Some out →
  out.(critical) = false →
  out.(final).(q) = [] →
  e ∈ out.(final).(edges_fp) →
  ∃ rec, rec ∈ out.(final).(pages_fp) ∧ rec.(url) = e.(source) ∧
    (e.(target) ∈ out.(final).(visited) ∨
     (cfg.(MAX_DEPTH) ≤ rec.(depth))%nat ∨
     same_origin cfg.(BASE_URL) e.(target) ≠ Some true).
Proof.
  intros (rp & pb & Hpb & Hloop & _)%crawl_unfold Hcrit Hempty He.
  rewrite Hcrit in Hloop.
  assert (frontier_ok out.(final)) as Hinv.
  { eapply (crawl_loop_next_invariant frontier_ok);
      [apply frontier_ok_step| |exact Hloop].
    by intros e' ?%elem_of_nil. }
  destruct (Hinv e He) as (rec & Hrec & Hsrc & Hcase).
  exists rec. split_and!; [done..|].
  destruct Hcase as [?|[Hin|[?|?]]]; [by auto| |by auto..].
  rewrite Hempty in Hin. by apply elem_of_nil in Hin.
Qed.

(** Every visited URL has a page record, unless blocked URLs are left
    unrecorded. *)
Definition visited_recorded (st : State) : Prop :=
  ∀ v, v ∈ st.(visited) → ∃ rec, rec ∈ st.(pages_fp) ∧ rec.(url) = v.

Lemma visited_recorded_step origin st u parent d q' r :
  cfg.(OBEY_ROBOTS) = false ∨ cfg.(RECORD_BLOCKED_URLS) = true →
  st.(q) = (u, parent, d) :: q' → Step origin st u parent d q' r →
  visited_recorded st → visited_recorded (result_state r).
Proof.
  intros Hcfg Hq Hstep Hinv.
  assert (Hadd : ∀ rec st', url rec = u →
    visited st' = {[u]} ∪ visited st → pages_fp st' = pages_fp st ++ [rec] →
    visited_recorded st').
  { intros rec st' Hu Hv Hp v. rewrite Hv, Hp.
    intros [->%elem_of_singleton|(rec0 & ? & ?)%Hinv]%elem_of_union.
    - exists rec. split; [by apply elem_of_app; right; left|done].
    - exists rec0. split; [by apply elem_of_app; left|done]. }
  destruct Hstep as
    [st' Hwhy Hv Hh Hp He Her Hr Hq'
    |st' Hv Hh Hp He Her Hr Hq'
    |st' Hd Hso Hnin Hobey Hv Hh Hp He Her Hr Hq'
    |st' rec links errs Hd Hso Hnin Hu Hdep Hpar Hall Herrs Hsc
       Hv Hh Hp He Her Hr Hq']; cbn.
  - intros v. rewrite Hv, Hp. apply Hinv.
  - intros v. rewrite Hv, Hp. apply Hinv.
  - destruct Hcfg as [Hoff|Hrec]; [congruence|]. rewrite Hrec in Hp.
    by apply (Hadd (blocked_record u parent d)).
  - by apply (Hadd rec).
Qed.

(** X12. When robots compliance is off or blocked URLs are recorded (both
    hold by default), the visited set of a completed crawl is exactly the
    set of URLs of its page records. *)
Theorem visited_are_the_recorded fuel out u :
  cfg.(OBEY_ROBOTS) = false ∨ cfg.(RECORD_BLOCKED_URLS) = true →
  crawl cfg fuel = Some out →
  u ∈ out.(final).(visited) ↔
  ∃ rec, rec ∈ out.(final).(pages_fp) ∧ rec.(url) = u.
Proof.
  intros Hcfg (rp & pb & Hpb & Hloop & _)%crawl_unfold. split.
  - assert (visited_recorded out.(final)) as Hinv; [|by apply Hinv].
    eapply (crawl_loop_step_invariant visited_recorded);
      [intros st u0 parent d q' r;
       by apply (visited_recorded_step (origin_of pb))| |exact Hloop].
    by intros v ?%elem_of_empty.
  - intros (rec & Hrec & <-).
    assert (pages_in_scope out.(final)) as Hinv.
    { eapply (crawl_loop_step_invariant pages_in_scope);
        [apply pages_in_scope_step|apply initial_state_in_scope|exact Hloop]. }
    by destruct (Hinv rec Hrec) as (_ & _ & ?).
Qed.

(** *** The files only grow *)

Definition extends (st st' : State) : Prop :=
  st.(pages_fp) `prefix_of` st'.(pages_fp) ∧
  st.(edges_fp) `prefix_of` st'.(edges_fp) ∧
  st.(errors_fp) `prefix_of` st'.(errors_fp) ∧
  st.(visited) ⊆ st'.(visited) ∧
  (st.(requests) ≤ st'.(requests))%nat.

Lemma extends_step origin st u parent d q' r :
  Step origin st u parent d q' r → extends st (result_state r).
Proof.
  intros Hstep.
  destruct Hstep as
    [st' Hwhy Hv Hh Hp He Her Hr Hq'
    |st' Hv Hh Hp He Her Hr Hq'
    |st' Hd Hso Hnin Hobey Hv Hh Hp He Her Hr Hq'
    |st' rec links errs Hd Hso Hnin Hu Hdep Hpar Hall Herrs Hsc
       Hv Hh Hp He Her Hr Hq']; cbn; unfold extends;
    rewrite Hp, He, Her, Hv; split_and!;
    try done; try (by apply prefix_app_r); try set_solver; lia.
Qed.

(** X13. The three output files are append-only and the visited set only
    grows: from whatever state the loop is entered and however it is left,
    the records present at the entry are a prefix of the records at the
    exit, so an interrupted crawl leaves a prefix of the complete output. *)
Theorem crawl_loop_appends fuel rp origin st st' crit :
  crawl_loop cfg fuel rp origin st = Some (st', crit) →
  st.(pages_fp) `prefix_of` st'.(pages_fp) ∧
  st.(edges_fp) `prefix_of` st'.(edges_fp) ∧
  st.(errors_fp) `prefix_of` st'.(errors_fp) ∧
  st.(visited) ⊆ st'.(visited) ∧
  (st.(requests) ≤ st'.(requests))%nat.
Proof.
  intros Hloop.
  enough (extends st st') by done.
  eapply (crawl_loop_step_invariant (extends st)); [| |exact Hloop].
  - intros st1 u parent d q' r Hq Hstep (Hp & He & Her & Hv & Hr).
    destruct (extends_step _ _ _ _ _ _ _ Hstep) as (Hp' & He' & Her' & Hv' & Hr').
    split_and!; [by etrans..|lia].
  - by split_and!.
Qed.

(** X14. The loop always exits: unless an exception escapes before the
    loop, [crawl] returns an output for some number of iterations, and the
    output is the same for every larger number. *)
Theorem crawl_returns :
  is_Some (crawl_init cfg) →
  ∃ fuel out,
    crawl cfg fuel = Some out ∧
    ∀ fuel', (fuel ≤ fuel')%nat → crawl cfg fuel' = Some out.
Proof.
  unfold crawl. intros [[[rp origin] st0] Hinit]. rewrite Hinit. cbn.
  destruct (crawl_loop_terminates cfg rp origin st0)
    as (fuel & [st crit] & Hloop).
  assert (is_Some (urlparse (BASE_URL cfg))) as [pb Hpb].
  { unfold crawl_init in Hinit. by destruct (urlparse (BASE_URL cfg)). }
  exists fuel. rewrite Hloop, Hpb. cbn. eexists. split; [done|].
  intros fuel' Hle.
  by rewrite (crawl_loop_fuel_mono cfg rp origin fuel fuel' st0 _ Hle Hloop).
Qed.

(** *** Page extraction *)

(** X15. The links kept from a fetched page are the normalized anchors that
    are non-empty and of the crawled origin, in document order and one per
    occurrence; anchors that fail to normalize are dropped, and the
    extraction raises exactly when the origin test raises on a non-empty
    normalized anchor. *)
Theorem collect_links_filter origin base hrefs :
  let cands := omap (normalize_url base) hrefs in
  collect_links origin base hrefs =
    if decide (Exists (λ c, c ≠ "" ∧ same_origin origin c = None) cands)
    then None
    else Some (filter (λ c, c ≠ "" ∧ same_origin origin c = Some true) cands).
Proof.
  cbv zeta. induction hrefs as [|href hrefs IH]; cbn.
  { rewrite decide_False; [done|by intros ?%Exists_nil]. }
  destruct (normalize_url base href) as [cand|]; cbn; [|done].
  rewrite IH. clear IH.
  set (cands := omap (normalize_url base) hrefs).
  destruct (decide (cand = "")) as [H2|H2];
    destruct (same_origin origin cand) as [[]|] eqn:Hso;
    repeat match goal with
           | |- context [decide ?Q] => destruct (decide Q)
           end;
    try done; exfalso;
    repeat match goal with
           | H : context [Exists _ (_ :: _)] |- _ => rewrite Exists_cons in H
           end;
    intuition congruence.
Qed.

End crawl_facts.

Section robots_off.
Context {strlib : StrLib} {urllib : UrlLib} {http : Http} {htmllib : Html}.
Variables (robots1 robots2 : RobotsLib) (cfg : Config).

Lemma crawl_loop_robots_off fuel rp1 rp2 origin st :
  cfg.(OBEY_ROBOTS) = false →
  crawl_loop (robots := robots1) cfg fuel rp1 origin st
  = crawl_loop (robots := robots2) cfg fuel rp2 origin st.
Proof.
  intros Hoff. revert st. induction fuel as [|fuel IH]; intros st; [done|].
  cbn. destruct (loop_cond cfg st); [|done].
  assert (loop_body (robots := robots1) cfg rp1 origin st
          = loop_body (robots := robots2) cfg rp2 origin st) as ->.
  { unfold loop_body. by rewrite Hoff. }
  destruct (loop_body cfg rp2 origin st); [apply IH|done].
Qed.

(** X17. With robots compliance off the robots parser is never consulted:
    the crawl returns the same output whatever the robots library and the
    robots file of the site are. *)
Theorem robots_off_ignores_parser fuel :
  cfg.(OBEY_ROBOTS) = false →
  crawl (robots := robots1) cfg fuel = crawl (robots := robots2) cfg fuel.
Proof.
  intros Hoff. unfold crawl, crawl_init.
  destruct (urlparse (BASE_URL cfg)) as [pb|]; [|done]. cbn.
  destruct (urljoin _ "/robots.txt") as [robots_url|]; [|done]. cbn.
  by rewrite (crawl_loop_robots_off fuel _
                (robots_setup (robots := robots2) cfg robots_url)).
Qed.

End robots_off.
End CrawlFacts.

(** ** The filtered report (generate_filtered_reports.py) *)

(** A line of the page file as [json.loads] sees it: not JSON, a JSON value
    that is not an object (its [get] raises), or an object with the value of
    its ["url"] key, [None] when the key is missing or null. The page file
    holds strings under that key. *)
Inductive parsed_line :=
  | JsonError
  | JsonOther
  | JsonObject (url_value : option string).

Module Reports.
Import Hierarchy HierarchyFacts.

(** [EXCLUDED_PATHS] *)
Definition EXCLUDED_PATHS : list string :=
  ["/wps"; "/documents"; "/s/minisitios"; "/s"].

(** The loop of [should_exclude] over the excluded paths, for the path of
    the URL. *)
Fixpoint excluded_by (excluded_paths : list string) (pth : string) : bool :=
  match excluded_paths with
  | [] => false
  | excluded :: rest =>
      if decide (excluded = "/s") then
        if bool_decide (pth = "/s") || startswith pth "/s/" then true
        else excluded_by rest pth
      else if str_contains excluded pth then true
      else excluded_by rest pth
  end.

#[global] Arguments excluded_by : simpl never.

Section reports.
Context {urllib : UrlLib}.

(** [should_exclude(url)]; [None] when [urlparse] raises. *)
Definition should_exclude (u : string) : option bool :=
  up ← urlparse u; Some (excluded_by EXCLUDED_PATHS up.(path)).

(** The variables of [main]. *)
Record Report := {
  report_hroot : node;
  total : nat;
  excluded : nat;
  included : nat;
}.

Definition report_start : Report :=
  {| report_hroot := fresh; total := 0; excluded := 0; included := 0 |}.

(** The body of the loop over the lines; [None] when an exception escapes,
    which ends the program without a report. *)
Definition report_line (r : Report) (line : parsed_line) : option Report :=
  match line with
  | JsonError => Some r
  | JsonOther => None
  | JsonObject None => Some r
  | JsonObject (Some u) =>
      if decide (u = "") then Some r
      else
        exclude ← should_exclude u;
        if exclude : bool then
          Some {| report_hroot := r.(report_hroot); total := S r.(total);
                  excluded := S r.(excluded); included := r.(included) |}
        else
          up ← urlparse u;
          let segs := filter (λ seg, seg ≠ "") (split_on "/" up.(path)) in
          Some {| report_hroot := insert_path r.(report_hroot) segs;
                  total := S r.(total); excluded := r.(excluded);
                  included := S r.(included) |}
  end.

Fixpoint report_lines (r : Report) (lines : list parsed_line) : option Report :=
  match lines with
  | [] => Some r
  | line :: lines' => r' ← report_line r line; report_lines r' lines'
  end.

(** [main()], from the lines of the page file to the counters and the tree
    written to the filtered [hierarchy.json]. *)
Definition report_main (lines : list parsed_line) : option (Report * d3) :=
  r ← report_lines report_start lines;
  Some (r, hierarchy_to_d3 r.(report_hroot) "www.bancodebogota.com").

(** The URL that a line contributes, if any: lines that are not JSON,
    objects without a URL and objects with an empty URL are passed over. *)
Definition line_url (line : parsed_line) : option string :=
  match line with
  | JsonObject (Some u) => if decide (u = "") then None else Some u
  | _ => None
  end.

(** A line on which the loop body does not raise. *)
Definition line_ok (line : parsed_line) : Prop :=
  line ≠ JsonOther ∧ ∀ u, line_url line = Some u → is_Some (urlparse u).

(** The URLs that are kept, and the segment lists inserted for them. *)
Definition kept (urls : list string) : list string :=
  filter (λ u, should_exclude u = Some false) urls.

Definition dropped (urls : list string) : list string :=
  filter (λ u, should_exclude u = Some true) urls.

Lemma report_line_ok r line :
  is_Some (report_line r line) ↔ line_ok line.
Proof.
  unfold line_ok, report_line, should_exclude.
  destruct line as [| |[u|]]; cbn.
  - split; [|done]. intros _. split; [done|]. by intros u [=].
  - split; [by intros [? ?]|by intros [? _]].
  - destruct (decide (u = "")) as [->|Hne].
    + split; [|done]. intros _. split; [done|]. by intros u [=].
    + destruct (urlparse u) as [up|] eqn:Hup; cbn.
      * split; [|by destruct (excluded_by _ _)].
        intros _. split; [done|]. intros u' [= <-]. by rewrite Hup.
      * split; [by intros [? ?]|]. intros [_ Hu].
        destruct (Hu u eq_refl) as [? ?]. congruence.
  - split; [|done]. intros _. split; [done|]. by intros u [=].
Qed.

Lemma kept_singleton u :
  kept [u] = if decide (should_exclude u = Some false) then [u] else [].
Proof. unfold kept. by rewrite filter_cons, filter_nil. Qed.

Lemma dropped_singleton u :
  dropped [u] = if decide (should_exclude u = Some true) then [u] else [].
Proof. unfold dropped. by rewrite filter_cons, filter_nil. Qed.

(** The effect of one line. *)
Lemma report_line_spec r0 line r1 :
  report_line r0 line = Some r1 →
  let urls := option_list (line_url line) in
  r1.(total) = (r0.(total) + length urls)%nat ∧
  r1.(excluded) = (r0.(excluded) + length (dropped urls))%nat ∧
  r1.(included) = (r0.(included) + length (kept urls))%nat ∧
  r1.(report_hroot)
  = foldl insert_path r0.(report_hroot) (CrawlFacts.url_segments <$> kept urls).
Proof.
  cbv zeta.
  assert (Hnone : line_url line = None → report_line r0 line = Some r0 ∨
                                         report_line r0 line = None).
  { destruct line as [| |[u|]]; cbn; auto. case_decide; [auto|done]. }
  destruct (line_url line) as [u|] eqn:Hu.
  - clear Hnone. destruct line as [| |[u'|]]; try done. cbn in Hu.
    destruct (decide (u' = "")) as [|Hne]; [done|]. injection Hu as ->.
    unfold report_line. rewrite decide_False by done.
    change (option_list (Some u)) with [u].
    rewrite kept_singleton, dropped_singleton.
    destruct (should_exclude u) as [[]|] eqn:Hex; [| |done].
    + cbn [mbind option_bind]. intros [= <-].
      repeat case_decide; try done. cbn. split_and!; [lia..|done].
    + unfold should_exclude in Hex.
      destruct (urlparse u) as [up|] eqn:Hup; [|done].
      cbn [mbind option_bind]. intros [= <-].
      repeat case_decide; try done. cbn. split_and!; [lia..|].
      unfold CrawlFacts.url_segments. by rewrite Hup.
  - destruct (Hnone eq_refl) as [-> | ->]; [|done]. intros [= <-].
    cbn. split_and!; [lia..|done].
Qed.

Lemma omap_line_url_cons line lines :
  omap line_url (line :: lines)
  = option_list (line_url line) ++ omap line_url lines.
Proof. cbn. by destruct (line_url line). Qed.

(** The loop over the lines, as a function of its starting point. *)
Lemma report_lines_spec r0 lines r :
  report_lines r0 lines = Some r →
  let urls := omap line_url lines in
  Forall line_ok lines ∧
  r.(total) = (r0.(total) + length urls)%nat ∧
  r.(excluded) = (r0.(excluded) + length (dropped urls))%nat ∧
  r.(included) = (r0.(included) + length (kept urls))%nat ∧
  r.(report_hroot)
  = foldl insert_path r0.(report_hroot) (CrawlFacts.url_segments <$> kept urls).
Proof.
  cbv zeta. revert r0. induction lines as [|line lines IH]; intros r0.
  { cbn. intros [= <-]. split_and!; [constructor|lia..|done]. }
  cbn [report_lines].
  destruct (report_line r0 line) as [r1|] eqn:Hline; [|done].
  cbn [mbind option_bind].
  intros Hrest. destruct (IH r1 Hrest) as (Hok & Ht & He & Hi & Hh).
  destruct (report_line_spec _ _ _ Hline) as (Ht1 & He1 & Hi1 & Hh1).
  split; [constructor; [|done]; apply (report_line_ok r0); by rewrite Hline|].
  rewrite omap_line_url_cons. unfold kept, dropped in *.
  rewrite !filter_app, !length_app, fmap_app, foldl_app.
  rewrite Ht, He, Hi, Hh, Ht1, He1, Hi1, Hh1. split_and!; [lia..|done].
Qed.

Lemma report_lines_Some r0 lines :
  Forall line_ok lines → is_Some (report_lines r0 lines).
Proof.
  intros Hok. revert r0. induction Hok as [|line lines Hline _ IH];
    intros r0; cbn; [done|].
  apply (report_line_ok r0) in Hline as [r1 ->]. apply IH.
Qed.

(** X18. The filtered report counts every line that holds a non-empty URL
    once, as excluded or as included; lines that are not JSON and records
    without a URL are passed over uncounted. Its hierarchy is the accumulator
    built from the path segments of the included URLs in file order, repeated
    URLs included. *)
Theorem report_counts_and_tree lines r tree :
  report_main lines = Some (r, tree) →
  let urls := omap line_url lines in
  r.(total) = length urls ∧
  r.(total) = (r.(included) + r.(excluded))%nat ∧
  r.(excluded) = length (dropped urls) ∧
  r.(included) = length (kept urls) ∧
  r.(report_hroot) = build (CrawlFacts.url_segments <$> kept urls) ∧
  tree = hierarchy_to_d3 (build (CrawlFacts.url_segments <$> kept urls))
           "www.bancodebogota.com".
Proof.
  unfold report_main. cbv zeta.
  destruct (report_lines report_start lines) as [r'|] eqn:Hlines; [|done].
  cbn. intros [= -> <-].
  destruct (report_lines_spec _ _ _ Hlines) as (Hok & Ht & He & Hi & Hh).
  cbn in Ht, He, Hi, Hh. fold (build (CrawlFacts.url_segments
    <$> kept (omap line_url lines))) in Hh.
  split_and!; [done| |done..|by rewrite Hh].
  rewrite Ht, Hi, He. unfold kept, dropped.
  rewrite Forall_forall in Hok.
  assert (Forall (λ u, is_Some (urlparse u)) (omap line_url lines)) as Hparse.
  { apply Forall_forall. intros u (line & Hline & Hu)%list_elem_of_omap.
    by apply (Hok line Hline). }
  clear -Hparse. induction Hparse as [|u urls [up Hup] _ IH]; [done|].
  assert (is_Some (should_exclude u)) as [b Hb].
  { unfold should_exclude. by rewrite Hup. }
  rewrite !filter_cons, Hb.
  destruct b; repeat case_decide; try done; cbn; lia.
Qed.

(** X19. The filtered report does not depend on the order of the lines of
    the page file: a reordered file gives the same counters and the same
    rendered tree (and raises only if the original does). *)
Theorem report_order_independent lines lines' r tree :
  report_main lines = Some (r, tree) →
  lines ≡ₚ lines' →
  ∃ r', report_main lines' = Some (r', tree) ∧
        r'.(total) = r.(total) ∧ r'.(excluded) = r.(excluded) ∧
        r'.(included) = r.(included).
Proof.
  intros Hmain Hperm. unfold report_main in *.
  destruct (report_lines report_start lines) as [r0|] eqn:Hlines; [|done].
  cbn in Hmain. injection Hmain as -> <-.
  destruct (report_lines_spec _ _ _ Hlines) as (Hok & Ht & He & Hi & Hh).
  rewrite Hperm in Hok.
  destruct (report_lines_Some report_start lines' Hok) as [r' Hlines'].
  rewrite Hlines'. cbn. exists r'.
  destruct (report_lines_spec _ _ _ Hlines') as (_ & Ht' & He' & Hi' & Hh').
  cbn in *. unfold kept, dropped in *.
  split_and!.
  - do 2 f_equal. rewrite Hh, Hh'.
    apply hierarchy_to_d3_ext; [apply wf_build..|].
    intros pth. apply count_at_build_Permutation. by rewrite Hperm.
  - by rewrite Ht, Ht', Hperm.
  - by rewrite He, He', Hperm.
  - by rewrite Hi, Hi', Hperm.
Qed.

End reports.
End Reports.

(** ** The redirect mapper (crawler2.py) *)

Module Redirects.

(** [RedirectMapping] *)
Record RedirectMapping := {
  source_url : string;
  final_url : option string;
  has_redirect : bool;
  error : option string;
}.

(** The variables of [main]. *)
Record Totals := {
  redirects : list RedirectMapping;
  total_processed : nat;
  total_with_redirect : nat;
  total_errors : nat;
}.

(** The ["summary"] object of the output. *)
Record Summary := {
  total_urls_checked : nat;
  urls_with_redirect : nat;
  urls_without_redirect : Z;
  errors : nat;
}.

(** The object written to [wps_redirects.json]. *)
Record Output := { summary : Summary; output_redirects : list RedirectMapping }.

Section redirects.
Context {urllib : UrlLib} {http : Http}.
Variable MAX_URLS : option nat.

(** [has_wps(url)]: the path of the URL is searched, and the URL itself when
    [urlparse] raises. *)
Definition has_wps (u : string) : bool :=
  match urlparse u with
  | Some up => str_contains "/wps" up.(path)
  | None => str_contains "/wps" u
  end.

(** [MAX_URLS and total_processed >= MAX_URLS]: [None] and 0 are falsy. *)
Definition limit_reached (processed : nat) : bool :=
  match MAX_URLS with
  | Some m => negb (m =? 0)%nat && (m <=? processed)%nat
  | None => false
  end.

Definition totals_start : Totals :=
  {| redirects := []; total_processed := 0; total_with_redirect := 0;
     total_errors := 0 |}.

(** The part of the loop body after the limit test: one request, numbered
    by the requests made before it, and one mapping. [None] when
    [requests.get] raises an exception that is not a [RequestException]. *)
Definition check_url (t : Totals) (u : string) : option Totals :=
  match requests_get t.(total_processed) u with
  | Got resp =>
      let final := resp.(resp_url) in
      let redirected := bool_decide (final ≠ u) in
      Some {| redirects :=
                t.(redirects)
                ++ [{| source_url := u; final_url := Some final;
                       has_redirect := redirected; error := None |}];
              total_processed := S t.(total_processed);
              total_with_redirect :=
                if redirected then S t.(total_with_redirect)
                else t.(total_with_redirect);
              total_errors := t.(total_errors) |}
  | RequestException e =>
      Some {| redirects :=
                t.(redirects)
                ++ [{| source_url := u; final_url := None;
                       has_redirect := false; error := Some e |}];
              total_processed := S t.(total_processed);
              total_with_redirect := t.(total_with_redirect);
              total_errors := S t.(total_errors) |}
  | OtherException => None
  end.

(** The loop over the lines of the page file, with its [continue]s and its
    [break]; [None] when an exception escapes. *)
Fixpoint redirect_lines (t : Totals) (lines : list parsed_line)
    : option Totals :=
  match lines with
  | [] => Some t
  | line :: lines' =>
      match line with
      | JsonError => redirect_lines t lines'
      | JsonOther => None
      | JsonObject None => redirect_lines t lines'
      | JsonObject (Some u) =>
          if bool_decide (u = "") || negb (has_wps u) then
            redirect_lines t lines'
          else if limit_reached t.(total_processed) then Some t
          else t' ← check_url t u; redirect_lines t' lines'
      end
  end.

(** [main()] *)
Definition main (lines : list parsed_line) : option Output :=
  t ← redirect_lines totals_start lines;
  Some {| summary :=
            {| total_urls_checked := t.(total_processed);
               urls_with_redirect := t.(total_with_redirect);
               urls_without_redirect :=
                 Z.of_nat t.(total_processed)
                 - Z.of_nat t.(total_with_redirect)
                 - Z.of_nat t.(total_errors);
               errors := t.(total_errors) |};
          output_redirects := t.(redirects) |}.

(** The URLs of the page file that the mapper is meant to check, in file
    order and with their repetitions. *)
Definition wps_urls (lines : list parsed_line) : list string :=
  filter (λ u, has_wps u = true) (omap Reports.line_url lines).

(** The part of a list that the limit lets through. *)
Definition limited (urls : list string) : list string :=
  match MAX_URLS with
  | Some (S m) => take (S m) urls
  | Some O | None => urls
  end.

(** The mapping that the answer to a request gives. *)
Definition answers (m : RedirectMapping) (r : get_result) : Prop :=
  match r with
  | Got resp =>
      m.(final_url) = Some resp.(resp_url) ∧
      m.(has_redirect) = bool_decide (resp.(resp_url) ≠ m.(source_url)) ∧
      m.(error) = None
  | RequestException e =>
      m.(final_url) = None ∧ m.(has_redirect) = false ∧ m.(error) = Some e
  | OtherException => False
  end.

Definition redirected (m : RedirectMapping) : Prop := m.(has_redirect) = true.
Definition failed (m : RedirectMapping) : Prop := is_Some m.(error).
Definition unchanged (m : RedirectMapping) : Prop :=
  m.(has_redirect) = false ∧ m.(error) = None.

#[local] Instance redirected_dec m : Decision (redirected m).
Proof. unfold redirected. apply _. Defined.
#[local] Instance failed_dec m : Decision (failed m).
Proof. unfold failed. apply _. Defined.
#[local] Instance unchanged_dec m : Decision (unchanged m).
Proof. unfold unchanged. apply _. Defined.

(** What the loop keeps true of its variables. *)
Definition totals_ok (t : Totals) : Prop :=
  t.(total_processed) = length t.(redirects) ∧
  t.(total_with_redirect) = length (filter redirected t.(redirects)) ∧
  t.(total_errors) = length (filter failed t.(redirects)) ∧
  (length (filter redirected t.(redirects))
   + length (filter failed t.(redirects))
   + length (filter unchanged t.(redirects)) = length t.(redirects))%nat ∧
  ∀ i m, t.(redirects) !! i = Some m →
    m.(source_url) ≠ "" ∧ has_wps m.(source_url) = true ∧
    answers m (requests_get i m.(source_url)).

Lemma length_filter_snoc {A} (P : A → Prop) `{!∀ x, Decision (P x)} l x :
  length (filter P (l ++ [x]))
  = (length (filter P l) + if decide (P x) then 1 else 0)%nat.
Proof.
  rewrite filter_app, length_app, filter_cons, filter_nil.
  by destruct (decide (P x)).
Qed.

Lemma check_url_ok t u t' :
  u ≠ "" → has_wps u = true →
  check_url t u = Some t' → totals_ok t → totals_ok t'.
Proof.
  intros Hne Hwps Hcheck (Hn & Hr & He & Hsum & Hall). unfold check_url in Hcheck.
  assert (Hlook : ∀ m0 i m,
    source_url m0 = u → answers m0 (requests_get (total_processed t) u) →
    (redirects t ++ [m0]) !! i = Some m →
    source_url m ≠ "" ∧ has_wps (source_url m) = true ∧
    answers m (requests_get i (source_url m))).
  { intros m0 i m Hsrc Hans [Hi|[Hi Hm]]%lookup_app_Some; [by apply Hall|].
    apply list_lookup_singleton_Some in Hm as [Hi0 <-].
    assert (i = total_processed t) as -> by lia. by rewrite Hsrc. }
  destruct (requests_get (total_processed t) u) as [resp|e|] eqn:Hget;
    [| |done]; injection Hcheck as <-; unfold totals_ok;
    cbn [redirects total_processed total_with_redirect total_errors];
    rewrite !length_filter_snoc, length_app;
    match goal with |- context [_ ++ [?m]] => set (m0 := m) end.
  - assert (¬ failed m0) as Hnf by (by intros [? ?]).
    rewrite (decide_False (P := failed m0)) by done.
    destruct (bool_decide (resp_url resp ≠ u)) eqn:Hb.
    + assert (redirected m0) as Hred by done.
      assert (¬ unchanged m0) as Hnu by (by intros [? ?]).
      rewrite (decide_True (P := redirected m0)) by done.
      rewrite (decide_False (P := unchanged m0)) by done.
      cbn [length]. split_and!; [lia..|].
      intros i m. by apply Hlook.
    + assert (¬ redirected m0) as Hred by done.
      assert (unchanged m0) as Hnu by done.
      rewrite (decide_False (P := redirected m0)) by done.
      rewrite (decide_True (P := unchanged m0)) by done.
      cbn [length]. split_and!; [lia..|].
      intros i m. by apply Hlook.
  - assert (failed m0) as Hnf by (by eexists).
    assert (¬ redirected m0) as Hred by done.
    assert (¬ unchanged m0) as Hnu by (by intros [? ?]).
    rewrite (decide_True (P := failed m0)) by done.
    rewrite (decide_False (P := redirected m0)) by done.
    rewrite (decide_False (P := unchanged m0)) by done.
    cbn [length]. split_and!; [lia..|].
    intros i m. by apply Hlook.
Qed.

Lemma redirect_lines_ok t lines t' :
  redirect_lines t lines = Some t' → totals_ok t → totals_ok t'.
Proof.
  revert t. induction lines as [|line lines IH]; intros t; cbn.
  { by intros [= <-]. }
  destruct line as [| |[u|]]; [apply IH|done| |apply IH].
  destruct (bool_decide (u = "")) eqn:Hu; cbn; [apply IH|].
  apply bool_decide_eq_false in Hu.
  destruct (has_wps u) eqn:Hwps; cbn; [|apply IH].
  destruct (limit_reached _); [by intros [= <-]|].
  destruct (check_url t u) as [t1|] eqn:Hcheck; [|done]. cbn.
  intros Hrest Hok. apply (IH t1 Hrest). by apply (check_url_ok t u).
Qed.

Lemma totals_start_ok : totals_ok totals_start.
Proof. unfold totals_ok. cbn. split_and!; try done. Qed.

(** X20. The summary of the redirect map agrees with its list of mappings:
    the number of URLs checked is the number of mappings, the redirects and
    the errors are the mappings flagged as such, and the number reported as
    without redirect is the number of mappings that have neither a redirect
    nor an error, so the three classes add up to the total. *)
Theorem summary_matches_mappings lines out :
  main lines = Some out →
  let ms := out.(output_redirects) in
  out.(summary).(total_urls_checked) = length ms ∧
  out.(summary).(urls_with_redirect) = length (filter redirected ms) ∧
  out.(summary).(errors) = length (filter failed ms) ∧
  out.(summary).(urls_without_redirect)
  = Z.of_nat (length (filter unchanged ms)).
Proof.
  unfold main. cbv zeta.
  destruct (redirect_lines totals_start lines) as [t|] eqn:Hlines; [|done].
  cbn. intros [= <-]. cbn.
  destruct (redirect_lines_ok _ _ _ Hlines totals_start_ok)
    as (Hn & Hr & He & Hsum & _).
  split_and!; [done..|]. lia.
Qed.

(** X21. Every mapping of the redirect map comes from one request, made to
    its source URL: the i-th mapping records the answer to the i-th request.
    A response gives the final URL, flagged as a redirect exactly when it
    differs from the source, and no error; a request exception gives the
    error text, no final URL and no redirect flag. Every source URL is
    non-empty and passes [has_wps]: it contains /wps in its path, or in the
    URL itself when the URL does not parse. *)
Theorem mapping_records_request lines out i m :
  main lines = Some out →
  out.(output_redirects) !! i = Some m →
  m.(source_url) ≠ "" ∧ has_wps m.(source_url) = true ∧
  answers m (requests_get i m.(source_url)).
Proof.
  unfold main.
  destruct (redirect_lines totals_start lines) as [t|] eqn:Hlines; [|done].
  cbn. intros [= <-]. cbn.
  destruct (redirect_lines_ok _ _ _ Hlines totals_start_ok)
    as (_ & _ & _ & _ & Hall).
  apply Hall.
Qed.

(** The sources of the mappings, from any point of the loop. *)
Lemma redirect_lines_sources t lines t' :
  redirect_lines t lines = Some t' →
  t.(total_processed) = length t.(redirects) →
  ∃ new,
    source_url <$> t'.(redirects) = (source_url <$> t.(redirects)) ++ new ∧
    match MAX_URLS with
    | Some (S m) => new = take (S m - t.(total_processed)) (wps_urls lines)
    | Some O | None => new = wps_urls lines
    end.
Proof.
  revert t. induction lines as [|line lines IH]; intros t.
  { cbn. intros [= <-] _. exists []. rewrite app_nil_r. split; [done|].
    destruct MAX_URLS as [[|m]|]; try done. by rewrite take_nil. }
  assert (Hskip : Reports.line_url line = None →
    redirect_lines t lines = Some t' →
    t.(total_processed) = length t.(redirects) →
    ∃ new,
      source_url <$> t'.(redirects) = (source_url <$> t.(redirects)) ++ new ∧
      match MAX_URLS with
      | Some (S m) =>
          new = take (S m - t.(total_processed)) (wps_urls (line :: lines))
      | Some O | None => new = wps_urls (line :: lines)
      end).
  { intros Hnone Hrest Hn. destruct (IH t Hrest Hn) as (new & Hnew & Hlim).
    exists new. split; [done|].
    unfold wps_urls in *. cbn [omap list_omap]. by rewrite Hnone. }
  cbn [redirect_lines].
  destruct line as [| |[u|]]; [by apply Hskip|done| |by apply Hskip].
  destruct (bool_decide (u = "")) eqn:Hu; cbn [orb].
  { apply bool_decide_eq_true in Hu as ->. by apply Hskip. }
  apply bool_decide_eq_false in Hu.
  assert (Reports.line_url (JsonObject (Some u)) = Some u) as Hline.
  { cbn. by rewrite decide_False. }
  destruct (has_wps u) eqn:Hwps; cbn [negb].
  2:{ intros Hrest Hn. destruct (IH t Hrest Hn) as (new & Hnew & Hlim).
      exists new. split; [done|].
      unfold wps_urls in *. cbn [omap list_omap]. rewrite Hline.
      rewrite filter_cons, decide_False; [done|congruence]. }
  assert (wps_urls (JsonObject (Some u) :: lines) = u :: wps_urls lines)
    as Hwu.
  { unfold wps_urls. cbn [omap list_omap]. rewrite Hline.
    by rewrite filter_cons, decide_True. }
  rewrite Hwu.
  destruct (limit_reached (total_processed t)) eqn:Hlim.
  - intros [= <-] Hn. exists []. rewrite app_nil_r. split; [done|].
    unfold limit_reached in Hlim. destruct MAX_URLS as [[|m]|]; try done.
    apply andb_true_iff in Hlim as [_ Hlim%Nat.leb_le].
    replace (S m - total_processed t)%nat with 0%nat by lia. done.
  - destruct (check_url t u) as [t1|] eqn:Hcheck; [|done]. cbn [mbind option_bind].
    intros Hrest Hn.
    assert (total_processed t1 = S (total_processed t) ∧
            ∃ m0, redirects t1 = redirects t ++ [m0] ∧ source_url m0 = u)
      as (Hn1 & m0 & Hr1 & Hsrc).
    { unfold check_url in Hcheck.
      destruct (requests_get _ _); [| |done]; injection Hcheck as <-; cbn;
        (split; [done|]); eexists; (split; [done|done]). }
    destruct (IH t1 Hrest) as (new & Hnew & Hlim').
    { rewrite Hn1, Hr1, length_app. cbn. lia. }
    exists (u :: new). split.
    { rewrite Hnew, Hr1, fmap_app. cbn. rewrite Hsrc.
      by rewrite <-(assoc_L (++)). }
    unfold limit_reached in Hlim. destruct MAX_URLS as [[|m]|]; [by subst| |by subst].
    apply andb_false_iff in Hlim as [Hlim|Hlim%Nat.leb_gt]; [done|].
    rewrite Hn1 in Hlim'.
    replace (S m - total_processed t)%nat
      with (S (S m - S (total_processed t))) by lia.
    cbn [take]. by rewrite Hlim'.
Qed.

(** X22. The redirect map has one mapping for every line of the page file
    whose URL is non-empty and passes [has_wps], in file order and without
    deduplication, cut after the first [MAX_URLS] of them when [MAX_URLS] is
    a positive number; with [MAX_URLS] equal to [None] or 0 nothing is cut. *)
Theorem mappings_follow_page_file lines out :
  main lines = Some out →
  source_url <$> out.(output_redirects) = limited (wps_urls lines).
Proof.
  unfold main.
  destruct (redirect_lines totals_start lines) as [t|] eqn:Hlines; [|done].
  cbn. intros [= <-]. cbn.
  destruct (redirect_lines_sources _ _ _ Hlines eq_refl) as (new & Hnew & Hlim).
  rewrite Hnew. cbn. unfold limited.
  destruct MAX_URLS as [[|m]|]; [done| |done]. by rewrite Hlim.
Qed.

End redirects.
End Redirects.

(** ** The three programs on one page file *)

Module Pipeline.
Import Hierarchy HierarchyFacts Crawler CrawlFacts.

(** The line of [pages.jsonl] that holds a page record, as [json.loads]
    gives it back: an object whose ["url"] is the URL of the record. *)
Definition page_line (rec : PageRecord) : parsed_line :=
  JsonObject (Some rec.(url)).

Lemma filter_sublist {A} (P : A → Prop) `{!∀ x, Decision (P x)} l1 l2 :
  l1 `sublist_of` l2 → filter P l1 `sublist_of` filter P l2.
Proof.
  induction 1 as [|x l1 l2 _ IH|x l1 l2 _ IH]; [done| |];
    rewrite ?filter_cons; case_decide; try done.
  - by constructor.
  - by apply sublist_cons.
Qed.

Lemma filter_sublist_impl {A} (P Q : A → Prop)
    `{!∀ x, Decision (P x), !∀ x, Decision (Q x)} l :
  Forall (λ x, P x → Q x) l → filter P l `sublist_of` filter Q l.
Proof.
  induction 1 as [|x l Hx _ IH]; [done|].
  rewrite !filter_cons. destruct (decide (P x)) as [HP|HP].
  - rewrite decide_True by auto. by constructor.
  - case_decide; [by apply sublist_cons|done].
Qed.

Lemma count0_at_build ps pth :
  count0_at (build ps) pth
  = match pth with [] => 0 | _ => Z.of_nat (through ps pth) end.
Proof.
  unfold count0_at. destruct pth as [|k pth].
  - by rewrite count_at_build_root.
  - rewrite count_at_build. case_decide as H0; [by rewrite H0|done].
Qed.

Lemma through_sublist ps1 ps2 pth :
  ps1 `sublist_of` ps2 → (through ps1 pth ≤ through ps2 pth)%nat.
Proof. intros Hsub. apply sublist_length, filter_sublist, Hsub. Qed.

Section pipeline.
Context {strlib : StrLib} {urllib : UrlLib} {http : Http} {htmllib : Html}
  {robots : RobotsLib}.

Lemma omap_line_url_pages (recs : list PageRecord) :
  Forall (λ rec, rec.(url) ≠ "") recs →
  omap Reports.line_url (page_line <$> recs) = url <$> recs.
Proof.
  induction 1 as [|rec recs Hne _ IH]; [done|].
  cbn. rewrite decide_False by done. cbn in IH. by rewrite IH.
Qed.

(** X16. The filtered report can be run on the page file of every completed
    crawl whose origin is not that of the empty URL: it does not raise and
    counts every page record. With robots compliance off, no node of the
    filtered hierarchy has a larger count than the same node of the
    crawler's hierarchy, and when no recorded URL is excluded the two
    hierarchies are equal. *)
Theorem report_reads_page_file (cfg : Config) fuel out :
  same_origin cfg.(BASE_URL) "" ≠ Some true →
  crawl cfg fuel = Some out →
  ∃ r tree,
    Reports.report_main (page_line <$> out.(final).(pages_fp)) = Some (r, tree) ∧
    r.(Reports.total) = length out.(final).(pages_fp) ∧
    (cfg.(OBEY_ROBOTS) = false →
     (∀ pth, count0_at r.(Reports.report_hroot) pth
               ≤ count0_at out.(final).(hroot) pth) ∧
     (Forall (λ rec, Reports.should_exclude rec.(url) = Some false)
        out.(final).(pages_fp) →
      r.(Reports.report_hroot) = out.(final).(hroot) ∧
      r.(Reports.included) = length out.(final).(pages_fp))).
Proof.
  intros Hbase Hcrawl.
  pose proof Hcrawl as (rp & pb & Hpb & Hloop & _)%crawl_unfold.
  assert (pages_in_scope cfg out.(final)) as Hscope.
  { eapply (crawl_loop_step_invariant cfg (pages_in_scope cfg));
      [apply pages_in_scope_step|apply initial_state_in_scope|exact Hloop]. }
  assert (hierarchy_ok cfg out.(final)) as (Hroot & Hall).
  { eapply (crawl_loop_step_invariant cfg (hierarchy_ok cfg));
      [apply hierarchy_ok_step| |exact Hloop].
    by split. }
  set (pages := out.(final).(pages_fp)) in *.
  assert (Forall (λ rec, rec.(url) ≠ "" ∧ is_Some (urlparse rec.(url))) pages)
    as Hpages.
  { apply Forall_forall. intros rec Hrec.
    destruct (Hscope rec Hrec) as (_ & Hso & _). split.
    - intros Hempty. by rewrite Hempty in Hso.
    - by apply same_origin_Some_parse in Hso. }
  assert (omap Reports.line_url (page_line <$> pages) = url <$> pages) as Hurls.
  { apply omap_line_url_pages. eapply Forall_impl; [exact Hpages|].
    by intros rec [? _]. }
  assert (Forall Reports.line_ok (page_line <$> pages)) as Hok.
  { apply Forall_fmap. eapply Forall_impl; [exact Hpages|].
    intros rec [Hne Hparse]. split; [done|].
    intros u. cbn. rewrite decide_False by done. by intros [= <-]. }
  destruct (Reports.report_lines_Some Reports.report_start _ Hok)
    as [r Hlines].
  exists r, (hierarchy_to_d3 r.(Reports.report_hroot) "www.bancodebogota.com").
  split; [unfold Reports.report_main; by rewrite Hlines|].
  destruct (Reports.report_lines_spec _ _ _ Hlines)
    as (_ & Ht & _ & Hi & Hh).
  rewrite Hurls in Ht, Hi, Hh. cbn in Ht, Hi, Hh.
  fold (build (url_segments <$> Reports.kept (url <$> pages))) in Hh.
  split; [by rewrite Ht, length_fmap|].
  intros Hoff. rewrite (Hall Hoff) in Hroot. split.
  - intros pth. rewrite Hh, Hroot, !count0_at_build.
    destruct pth as [|k pth]; [done|].
    apply inj_le, through_sublist, fmap_sublist, sublist_filter.
  - intros Hnone.
    assert (Reports.kept (url <$> pages) = url <$> pages) as Hkept.
    { unfold Reports.kept. clear -Hnone.
      induction Hnone as [|rec recs Hrec _ IH]; [done|].
      cbn [fmap list_fmap]. rewrite filter_cons, decide_True by done.
      by rewrite IH. }
    rewrite Hkept in Hh, Hi. split; [by rewrite Hh, Hroot|].
    by rewrite Hi, length_fmap.
Qed.

(** X8. Every URL that the redirect mapper checks is one that the filtered
    report excludes: when both programs complete on the same page file, the
    source URLs of the redirect map are a subsequence of the URLs that the
    report counts as excluded, so the map has at most as many mappings as
    the report has exclusions. *)
Theorem checked_urls_are_excluded max_urls lines out r tree :
  Redirects.main max_urls lines = Some out →
  Reports.report_main lines = Some (r, tree) →
  Redirects.source_url <$> out.(Redirects.output_redirects)
    `sublist_of` Reports.dropped (omap Reports.line_url lines) ∧
  (length out.(Redirects.output_redirects) ≤ r.(Reports.excluded))%nat.
Proof.
  intros Hmain Hreport.
  assert (Redirects.source_url <$> out.(Redirects.output_redirects)
            `sublist_of` Reports.dropped (omap Reports.line_url lines)) as Hsub.
  { unfold Redirects.main in Hmain.
    destruct (Redirects.redirect_lines _ _ _) as [t|] eqn:Hlines; [|done].
    cbn in Hmain. injection Hmain as <-. cbn.
    destruct (Redirects.redirect_lines_sources _ _ _ _ Hlines eq_refl)
      as (new & -> & Hnew). cbn.
    assert (Redirects.wps_urls lines
              `sublist_of` Reports.dropped (omap Reports.line_url lines))
      as Hwps.
    { unfold Reports.report_main in Hreport.
      destruct (Reports.report_lines _ _) as [r'|] eqn:Hrl; [|done].
      destruct (Reports.report_lines_spec _ _ _ Hrl) as (Hok & _).
      apply filter_sublist_impl, Forall_forall.
      intros u (line & Hline & Hu)%list_elem_of_omap.
      rewrite Forall_forall in Hok.
      destruct (Hok line Hline) as [_ Hparse].
      destruct (Hparse u Hu) as [up Hup].
      unfold Redirects.has_wps, Reports.should_exclude. rewrite Hup. cbn.
      intros Hc. unfold Reports.excluded_by, Reports.EXCLUDED_PATHS.
      rewrite decide_False by done. by rewrite Hc. }
    destruct max_urls as [[|m]|]; subst new; [done| |done].
    etrans; [apply sublist_take|done]. }
  split; [done|].
  unfold Reports.report_main in Hreport.
  destruct (Reports.report_lines _ _) as [r'|] eqn:Hrl; [|done].
  cbn in Hreport. injection Hreport as -> _.
  destruct (Reports.report_lines_spec _ _ _ Hrl) as (_ & _ & He & _).
  cbn in He. rewrite He. apply sublist_length in Hsub.
  by rewrite length_fmap in Hsub.
Qed.

End pipeline.
End Pipeline.

(** ** The properties above on concrete runs *)

Module Runs.
Import World Crawler CrawlFacts Scenarios.

(** A crawl of the site on which every request times out. *)
Definition crawl_timeouts : option Output :=
  crawl (http := all_timeouts) (robots := robots_ok) (config None 8 false) 20.

(** A page file of five lines: two records of the same page, a line that is
    not JSON, a record without a URL and two records under /wps. *)
Definition page_file : list parsed_line :=
  [JsonObject (Some "https://example.com/personas/a");
   JsonError;
   JsonObject (Some "https://example.com/wps/portal");
   JsonObject None;
   JsonObject (Some "https://example.com/personas/a");
   JsonObject (Some "https://example.com/wps/portal/b")].

(** A server that redirects the first request and times out afterwards. *)
Definition redirect_then_timeout : Http :=
  {| requests_get := λ i u,
       match i with
       | O => Got {| resp_status_code := 200;
                     resp_content_type := Some "text/html";
                     resp_url := seed; resp_text := "" |}
       | S _ => RequestException "timeout"
       end;
     session_get := λ _ _, OtherException |}.

Definition redirect_map (max_urls : option nat) : option Redirects.Output :=
  Redirects.main (http := redirect_then_timeout) max_urls page_file.

Lemma page_records_in_scope_witness :
  ∃ out rec,
    crawl_two_pages None = Some out ∧ rec ∈ out.(final).(pages_fp) ∧
    (rec.(depth) ≤ 8)%nat ∧ same_origin seed rec.(url) = Some true.
Proof.
  destruct (crawl_two_pages None) as [out|] eqn:Hout;
    [|by vm_compute in Hout].
  assert (∃ rec, rec ∈ out.(final).(pages_fp)) as [rec Hrec].
  { pose proof Hout as H. vm_compute in H. injection H as <-.
    eexists. cbn. left. }
  exists out, rec. split; [reflexivity|]. split; [exact Hrec|].
  exact (page_records_in_scope (http := two_pages) (robots := robots_ok)
           (config None 8 false) 20 out rec Hout Hrec).
Defined.

Lemma edge_records_well_formed_witness :
  ∃ out e,
    crawl_two_pages None = Some out ∧ e ∈ out.(final).(edges_fp) ∧
    e.(source) ≠ e.(target).
Proof.
  destruct (crawl_two_pages None) as [out|] eqn:Hout;
    [|by vm_compute in Hout].
  assert (∃ e, e ∈ out.(final).(edges_fp)) as [e He].
  { pose proof Hout as H. vm_compute in H. injection H as <-.
    eexists. cbn. left. }
  exists out, e. split_and!; [done..|].
  exact (proj1 (edge_records_well_formed (http := two_pages)
                  (robots := robots_ok) (config None 8 false) 20 out e
                  Hout He)).
Defined.

Lemma error_records_match_pages_witness :
  ∃ out,
    crawl_timeouts = Some out ∧
    NoDup (error_url <$> out.(final).(errors_fp)).
Proof.
  destruct crawl_timeouts as [out|] eqn:Hout; [|by vm_compute in Hout].
  exists out. split; [done|].
  exact (proj1 (error_records_match_pages (http := all_timeouts)
                  (robots := robots_ok) (config None 8 false) 20 out Hout)).
Defined.

Lemma one_request_per_page_witness :
  ∃ out,
    crawl_two_pages None = Some out ∧ out.(critical) = false ∧
    (out.(final).(requests) ≤ length out.(final).(pages_fp))%nat.
Proof.
  destruct (crawl_two_pages None) as [out|] eqn:Hout;
    [|by vm_compute in Hout].
  assert (out.(critical) = false) as Hcrit.
  { pose proof Hout as H. vm_compute in H. by injection H as <-. }
  exists out. split_and!; [done..|].
  exact (proj1 (one_request_per_page (http := two_pages)
                  (robots := robots_ok) (config None 8 false) 20 out
                  Hout Hcrit)).
Defined.

Lemma page_records_by_depth_witness :
  ∃ out,
    crawl_two_pages None = Some out ∧
    StronglySorted le (depth <$> out.(final).(pages_fp)).
Proof.
  destruct (crawl_two_pages None) as [out|] eqn:Hout;
    [|by vm_compute in Hout].
  exists out. split; [done|].
  exact (page_records_by_depth (http := two_pages) (robots := robots_ok)
           (config None 8 false) 20 out Hout).
Defined.

Lemma page_records_linked_witness :
  ∃ out rec,
    crawl_two_pages None = Some out ∧ rec ∈ out.(final).(pages_fp) ∧
    match rec.(parent_url) with
    | None => rec.(depth) = 0%nat ∧ rec.(url) = seed
    | Some p =>
        (p = seed ∧ rec.(depth) = 1%nat) ∨
        ∃ rec', rec' ∈ out.(final).(pages_fp) ∧ rec'.(url) = p ∧
                rec.(depth) = S rec'.(depth)
    end.
Proof.
  destruct (crawl_two_pages None) as [out|] eqn:Hout;
    [|by vm_compute in Hout].
  assert (∃ rec, rec ∈ out.(final).(pages_fp)) as [rec Hrec].
  { pose proof Hout as H. vm_compute in H. injection H as <-.
    eexists. cbn. left. }
  exists out, rec. split; [reflexivity|]. split; [exact Hrec|].
  exact (page_records_linked (http := two_pages) (robots := robots_ok)
           (config None 8 false) 20 out rec Hout Hrec).
Defined.

(** A robots file that disallows the second page, and the crawl of the
    two-page site that obeys it. *)
Definition robots_block_a : RobotsLib :=
  RobotParser.lib (RobotParser.Body 1 (λ _ u, bool_decide (u ≠ page_a))).

Definition crawl_blocked_a : option Output :=
  crawl (http := two_pages) (robots := robots_block_a) (config None 8 true) 20.

Lemma hierarchy_of_page_records_witness :
  ∃ out,
    crawl_blocked_a = Some out ∧
    url <$> out.(final).(pages_fp) = [seed; page_a] ∧
    url <$> filter (λ rec, ¬ blocked rec) out.(final).(pages_fp) = [seed] ∧
    out.(final).(hroot)
    = Hierarchy.build
        (url_segments
           <$> (url <$> filter (λ rec, ¬ blocked rec) out.(final).(pages_fp))).
Proof.
  destruct crawl_blocked_a as [out|] eqn:Hout; [|by vm_compute in Hout].
  assert (url <$> out.(final).(pages_fp) = [seed; page_a] ∧
          url <$> filter (λ rec, ¬ blocked rec) out.(final).(pages_fp) = [seed])
    as [Hpages Hrecs].
  { pose proof Hout as H. vm_compute in H. injection H as <-.
    split; by vm_compute. }
  destruct (hierarchy_of_page_records (http := two_pages)
              (robots := robots_block_a) (config None 8 true) 20 out Hout)
    as (pb & _ & Hroot & _).
  exists out. split; [reflexivity|]. split; [exact Hpages|].
  split; [exact Hrecs|exact Hroot].
Defined.

Lemma hierarchy_tree_well_formed_witness :
  ∃ out,
    crawl_two_pages None = Some out ∧ Hierarchy.d3_sorted out.(d3tree).
Proof.
  destruct (crawl_two_pages None) as [out|] eqn:Hout;
    [|by vm_compute in Hout].
  exists out. split; [done|].
  exact (proj1 (hierarchy_tree_well_formed (http := two_pages)
                  (robots := robots_ok) (config None 8 false) 20 out Hout)).
Defined.

Lemma recorded_links_followed_witness :
  ∃ out e,
    crawl_two_pages None = Some out ∧ out.(critical) = false ∧
    out.(final).(q) = [] ∧ e ∈ out.(final).(edges_fp) ∧
    ∃ rec, rec ∈ out.(final).(pages_fp) ∧ rec.(url) = e.(source) ∧
      (e.(target) ∈ out.(final).(visited) ∨
       (8 ≤ rec.(depth))%nat ∨
       same_origin seed e.(target) ≠ Some true).
Proof.
  destruct (crawl_two_pages None) as [out|] eqn:Hout;
    [|by vm_compute in Hout].
  assert (out.(critical) = false) as Hcrit.
  { pose proof Hout as H. vm_compute in H. by injection H as <-. }
  assert (out.(final).(q) = []) as Hq.
  { pose proof Hout as H. vm_compute in H. by injection H as <-. }
  assert (∃ e, e ∈ out.(final).(edges_fp)) as [e He].
  { pose proof Hout as H. vm_compute in H. injection H as <-.
    eexists. cbn. left. }
  exists out, e. split_and!; [done..|].
  exact (recorded_links_followed (http := two_pages) (robots := robots_ok)
           (config None 8 false) 20 out e Hout Hcrit Hq He).
Defined.

Lemma visited_are_the_recorded_witness :
  ∃ out,
    crawl_two_pages None = Some out ∧
    (seed ∈ out.(final).(visited) ↔
     ∃ rec, rec ∈ out.(final).(pages_fp) ∧ rec.(url) = seed).
Proof.
  destruct (crawl_two_pages None) as [out|] eqn:Hout;
    [|by vm_compute in Hout].
  exists out. split; [done|].
  apply (visited_are_the_recorded (http := two_pages) (robots := robots_ok)
           (config None 8 false) 20 out seed); [left; reflexivity|done].
Defined.

Lemma crawl_loop_appends_witness :
  ∃ st' crit,
    crawl_loop (http := two_pages) (robots := robots_ok) (config None 8 false)
      20 RobotParser.new "https://example.com" (st0 (config None 8 false))
    = Some (st', crit) ∧
    (st0 (config None 8 false)).(visited) ⊆ st'.(visited).
Proof.
  destruct (crawl_loop (http := two_pages) (robots := robots_ok)
              (config None 8 false) 20 RobotParser.new "https://example.com"
              (st0 (config None 8 false))) as [[st' crit]|] eqn:Hloop;
    [|by vm_compute in Hloop].
  exists st', crit. split; [done|].
  destruct (crawl_loop_appends (http := two_pages) (robots := robots_ok)
              (config None 8 false) 20 RobotParser.new "https://example.com"
              (st0 (config None 8 false)) st' crit Hloop)
    as (_ & _ & _ & Hv & _).
  exact Hv.
Defined.

Lemma crawl_returns_witness :
  ∃ fuel out,
    crawl (http := two_pages) (robots := robots_ok) (config None 8 false) fuel
    = Some out ∧
    ∀ fuel', (fuel ≤ fuel')%nat →
      crawl (http := two_pages) (robots := robots_ok) (config None 8 false)
        fuel' = Some out.
Proof.
  apply (crawl_returns (http := two_pages) (robots := robots_ok)
           (config None 8 false)).
  vm_compute. eexists. reflexivity.
Defined.

Lemma robots_off_ignores_parser_witness :
  crawl (http := two_pages) (robots := robots_ok) (config None 8 false) 20
  = crawl (http := two_pages) (robots := robots_unreachable)
      (config None 8 false) 20.
Proof.
  apply (robots_off_ignores_parser (http := two_pages) robots_ok
           robots_unreachable (config None 8 false) 20).
  reflexivity.
Defined.

Lemma report_counts_and_tree_witness :
  ∃ r tree,
    Reports.report_main page_file = Some (r, tree) ∧
    r.(Reports.total) = 4%nat ∧
    r.(Reports.total) = (r.(Reports.included) + r.(Reports.excluded))%nat.
Proof.
  destruct (Reports.report_main page_file) as [[r tree]|] eqn:Hmain;
    [|by vm_compute in Hmain].
  exists r, tree. split; [done|].
  destruct (Reports.report_counts_and_tree page_file r tree Hmain)
    as (Ht & Hsum & _).
  done.
Defined.

Lemma report_order_independent_witness :
  ∃ r tree r',
    Reports.report_main page_file = Some (r, tree) ∧
    Reports.report_main (reverse page_file) = Some (r', tree) ∧
    r'.(Reports.total) = r.(Reports.total).
Proof.
  destruct (Reports.report_main page_file) as [[r tree]|] eqn:Hmain;
    [|by vm_compute in Hmain].
  destruct (Reports.report_order_independent page_file (reverse page_file)
              r tree Hmain) as (r' & Hmain' & Ht & _).
  - symmetry. apply reverse_Permutation.
  - by exists r, tree, r'.
Defined.

Lemma summary_matches_mappings_witness :
  ∃ out,
    redirect_map None = Some out ∧
    out.(Redirects.summary).(Redirects.total_urls_checked)
    = length out.(Redirects.output_redirects) ∧
    out.(Redirects.summary).(Redirects.urls_without_redirect)
    = Z.of_nat (length (filter Redirects.unchanged
                          out.(Redirects.output_redirects))).
Proof.
  destruct (redirect_map None) as [out|] eqn:Hmain; [|by vm_compute in Hmain].
  exists out. split; [done|].
  destruct (Redirects.summary_matches_mappings (http := redirect_then_timeout)
              None page_file out Hmain) as (Hn & _ & _ & Hu).
  done.
Defined.

Lemma mapping_records_request_witness :
  ∃ out m,
    redirect_map None = Some out ∧
    out.(Redirects.output_redirects) !! 0%nat = Some m ∧
    Redirects.has_wps m.(Redirects.source_url) = true.
Proof.
  destruct (redirect_map None) as [out|] eqn:Hmain; [|by vm_compute in Hmain].
  assert (∃ m, out.(Redirects.output_redirects) !! 0%nat = Some m)
    as [m Hm].
  { pose proof Hmain as H. vm_compute in H. injection H as <-.
    eexists. reflexivity. }
  exists out, m. split_and!; [done..|].
  destruct (Redirects.mapping_records_request (http := redirect_then_timeout)
              None page_file out 0 m Hmain Hm) as (_ & Hwps & _).
  exact Hwps.
Defined.

Lemma mappings_follow_page_file_witness :
  ∃ out,
    redirect_map (Some 1%nat) = Some out ∧
    Redirects.source_url <$> out.(Redirects.output_redirects)
    = ["https://example.com/wps/portal"].
Proof.
  destruct (redirect_map (Some 1%nat)) as [out|] eqn:Hmain;
    [|by vm_compute in Hmain].
  exists out. split; [done|].
  rewrite (Redirects.mappings_follow_page_file
             (http := redirect_then_timeout) (Some 1%nat) page_file out Hmain).
  by vm_compute.
Defined.

Lemma report_reads_page_file_witness :
  ∃ out r tree,
    crawl_two_pages None = Some out ∧
    Reports.report_main (Pipeline.page_line <$> out.(final).(pages_fp))
    = Some (r, tree) ∧
    r.(Reports.total) = length out.(final).(pages_fp).
Proof.
  destruct (crawl_two_pages None) as [out|] eqn:Hout;
    [|by vm_compute in Hout].
  destruct (Pipeline.report_reads_page_file (http := two_pages)
              (robots := robots_ok) (config None 8 false) 20 out)
    as (r & tree & Hmain & Ht & _).
  - by vm_compute.
  - exact Hout.
  - exists out, r, tree. split; [reflexivity|]. split; [exact Hmain|exact Ht].
Defined.

Lemma checked_urls_are_excluded_witness :
  ∃ out r tree,
    redirect_map None = Some out ∧
    Reports.report_main page_file = Some (r, tree) ∧
    (length out.(Redirects.output_redirects) ≤ r.(Reports.excluded))%nat.
Proof.
  destruct (redirect_map None) as [out|] eqn:Hmain; [|by vm_compute in Hmain].
  destruct (Reports.report_main page_file) as [[r tree]|] eqn:Hreport;
    [|by vm_compute in Hreport].
  exists out, r, tree. split_and!; [done..|].
  exact (proj2 (Pipeline.checked_urls_are_excluded
                  (http := redirect_then_timeout) None page_file out r tree
                  Hmain Hreport)).
Defined.

End Runs.
